(** * glyphx: widget state machines, focus/scroll helpers and the braille canvas

  A shallow embedding of the parts of [src/index.ts] and of the chart
  module that the properties below talk about.

  Conventions of the embedding
  - a JavaScript number that the code only ever uses as an integer
    (indices, offsets, sizes) is a [Z];
  - a JavaScript string used as text is a list of characters ([text]),
    one list element per UTF-16 code unit, so that [length] is the
    [.length] of the source and [slice] works on positions;
  - key names, color names and state names are [string]s;
  - an object that is mutated in place becomes a record that every
    method takes and returns; objects shared between a container and
    its focus manager live in a store and are referred to by address. *)

From Stdlib Require Import ZArith QArith Qminmax Qround Lia Ascii String.
From stdpp Require Import base tactics option list list_numbers strings.

Local Open Scope Z_scope.

(* ===================================================================== *)
(** * Part I: definitions                                                  *)
(* ===================================================================== *)

(** ** JavaScript primitives used by the widgets *)

Module JS.

(** Text: the code units of a JavaScript string. *)
Abbreviation text := (list ascii) (only parsing).

Definition of_string (s : string) : text := list_ascii_of_string s.

(** [a.length] as a number. *)
Definition len {A} (l : list A) : Z := Z.of_nat (length l).

(** [a[i]] for a numeric [i]: [None] is [undefined]. *)
Definition get {A} (l : list A) (i : Z) : option A :=
  if i <? 0 then None else l !! Z.to_nat i.

(** [v ?? d] *)
Definition nullish {A} (v : option A) (d : A) : A := default d v.

(** Relative index resolution shared by [slice] and [splice]:
    a negative index counts from the end, and everything is clamped
    into [0, len]. *)
Definition rel_index (n i : Z) : Z :=
  if i <? 0 then Z.max (n + i) 0 else Z.min i n.

(** [s.slice(a, b)] on strings and arrays. *)
Definition slice {A} (l : list A) (a b : Z) : list A :=
  let from := rel_index (len l) a in
  let to := rel_index (len l) b in
  take (Z.to_nat (to - from)) (drop (Z.to_nat from) l).

(** [s.slice(a)]: the end defaults to the length. *)
Definition slice_from {A} (l : list A) (a : Z) : list A :=
  slice l a (len l).

(** [a[i] = v] on an array.  Inside the array the element is replaced;
    past the end JavaScript grows the array and leaves holes, which are
    filled here with [hole] (the value every read site of the model
    turns [undefined] into); a negative [i] sets a property that is not
    an element, so the elements are unchanged. *)
Definition set {A} (hole : A) (l : list A) (i : Z) (v : A) : list A :=
  if i <? 0 then l
  else if i <? len l then <[Z.to_nat i := v]> l
  else l ++ replicate (Z.to_nat i - length l) hole ++ [v].

(** [a.splice(start, deleteCount, ...items)], the array afterwards. *)
Definition splice {A} (l : list A) (start deleteCount : Z) (items : list A)
  : list A :=
  let from := rel_index (len l) start in
  let dc := Z.min (Z.max deleteCount 0) (len l - from) in
  take (Z.to_nat from) l ++ items ++ drop (Z.to_nat (from + dc)) l.

(** [s.split("\n")]: never empty; an empty string gives one empty
    piece. *)
Fixpoint split_on (sep : ascii) (s : text) : list text :=
  match s with
  | [] => [[]]
  | c :: s' =>
      if Ascii.eqb c sep then [] :: split_on sep s'
      else match split_on sep s' with
           | [] => [[c]]
           | piece :: rest => (c :: piece) :: rest
           end
  end.

(** [a.join("\n")] *)
Fixpoint join (sep : ascii) (ls : list text) : text :=
  match ls with
  | [] => []
  | [l] => l
  | l :: rest => l ++ sep :: join sep rest
  end.

Definition newline : ascii := Ascii.ascii_of_nat 10.

(** [Math.round] on an exact rational: half-way cases go up. *)
Definition round (q : Q) : Z := Qfloor (q + (1 # 2))%Q.

End JS.

(** ** Key events ([readline.Key]) *)

Record Key := mkKey {
  sequence : option JS.text;
  name : option string;
  ctrl : bool;     (* an absent modifier is falsy, i.e. [false] *)
  meta : bool;
  shift : bool
}.

(** [key.name === s] *)
Definition named (k : Key) (s : string) : bool :=
  bool_decide (name k = Some s).

(** A key that only carries a name. *)
Definition key_named (s : string) : Key :=
  mkKey None (Some s) false false false.

(** A literal one-character key as the dispatcher delivers it. *)
Definition key_char (c : ascii) : Key :=
  mkKey (Some [c]) None false false false.

(** [key.sequence && !key.ctrl && !key.meta && key.sequence.length === 1] *)
Definition single_char (k : Key) : option JS.text :=
  match sequence k with
  | Some s =>
      if negb (bool_decide (s = [])) && negb (ctrl k) && negb (meta k)
         && (JS.len s =? 1)
      then Some s else None
  | None => None
  end.

(** ** ScrollState *)

Module ScrollState.

Record t := mk { x : Z; y : Z }.

Definition new : t := mk 0 0.

Definition setX (s : t) (value max : Z) : t :=
  mk (Z.max 0 (Z.min value max)) (y s).

Definition setY (s : t) (value max : Z) : t :=
  mk (x s) (Z.max 0 (Z.min value max)).

(** Ensure a cursor column stays within a viewport of
    [viewportWidth].  The arithmetic is that of the integers; it is the
    arithmetic of the code as long as the numbers are integers of
    magnitude below [2^53], as string positions and widths are. *)
Definition clampHorizontal (s : t) (cursor viewportWidth : Z) : t :=
  let x1 := if cursor <? x s then cursor else x s in
  let x2 := if x1 + viewportWidth <=? cursor
            then cursor - viewportWidth + 1 else x1 in
  mk (Z.max 0 x2) (y s).

(** Ensure a cursor row stays within a viewport of [viewportHeight]. *)
Definition clampVertical (s : t) (cursor viewportHeight maxScroll : Z) : t :=
  let y1 := if cursor <? y s then cursor else y s in
  let y2 := if y1 + viewportHeight <=? cursor
            then cursor - viewportHeight + 1 else y1 in
  mk (x s) (Z.max 0 (Z.min y2 maxScroll)).

End ScrollState.

(** ** Capability interfaces *)

(** [IDimensional]: how many lines and columns a widget occupies. *)
Class IDimensional (W : Type) := {
  lineCount : W -> Z;
  naturalWidth : W -> Z
}.

(** [IFocusTarget]: focus bookkeeping.  [activeLineHint] is the optional
    method: [None] when the widget does not define it. *)
Class IFocusTarget (W : Type) := {
  isFocused : W -> bool;
  focus : W -> W;
  blur : W -> W;
  activeLineHint : W -> option Z
}.

(** [IKeyConsumer]: the widget after the key, and whether it consumed
    it. *)
Class IKeyConsumer (W : Type) := {
  consumeKey : W -> Key -> W * bool
}.

(** ** FocusManager

    The focus manager holds references to widgets that also belong to a
    container.  The widgets live in a store [h : list W]; a reference is
    a position of the store. *)

(** The TypeScript type [1 | -1]. *)
Inductive direction := Forward | Backward.

Definition step_of (d : direction) : Z :=
  match d with Forward => 1 | Backward => -1 end.

Module FocusManager.

Record t := mk { _idx : Z; _focusables : list nat }.

Definition new (focusables : list nat) : t := mk (-1) focusables.

Definition index (fm : t) : Z := _idx fm.

(** [this._focusables[this._idx]] *)
Definition current (fm : t) : option nat := JS.get (_focusables fm) (_idx fm).

Definition hasFocus (fm : t) : bool := 0 <=? _idx fm.

Section Operations.
Context {W : Type} `{IFocusTarget W}.

(** [r?.m()] for a method that mutates the widget referred to by [r]. *)
Definition call (m : W -> W) (r : option nat) (h : list W) : list W :=
  match r with
  | Some a => alter m a h
  | None => h
  end.

Definition _blurActive (h : list W) (fm : t) : list W :=
  call blur (current fm) h.

Definition focusAt (h : list W) (fm : t) (i : Z) : list W * t :=
  let h1 := _blurActive h fm in
  let fm1 := mk (Z.max 0 (Z.min i (JS.len (_focusables fm) - 1)))
                (_focusables fm) in
  (call focus (current fm1) h1, fm1).

(** JavaScript's [%] truncates towards zero: it is [Z.rem]. *)
Definition cycle (h : list W) (fm : t) (d : direction) : list W * t :=
  let len := JS.len (_focusables fm) in
  if len =? 0 then (h, fm)
  else
    let h1 := _blurActive h fm in
    let fm1 := mk (Z.rem (_idx fm + step_of d + len) len) (_focusables fm) in
    (call focus (current fm1) h1, fm1).

Definition clear (h : list W) (fm : t) : list W * t :=
  (_blurActive h fm, mk (-1) (_focusables fm)).

Definition initFirst (h : list W) (fm : t) : list W * t :=
  if (0 <? JS.len (_focusables fm)) && (_idx fm <? 0)
  then focusAt h fm 0
  else (h, fm).

(** The public mutators, as a script a client can run. *)
Inductive op := FocusAt (i : Z) | Cycle (d : direction) | Clear | InitFirst.

Definition apply (s : list W * t) (o : op) : list W * t :=
  match o with
  | FocusAt i => focusAt s.1 s.2 i
  | Cycle d => cycle s.1 s.2 d
  | Clear => clear s.1 s.2
  | InitFirst => initFirst s.1 s.2
  end.

Definition run (s : list W * t) (script : list op) : list W * t :=
  fold_left apply script s.

(** [cycle] applied [n] times in the same direction. *)
Fixpoint cycle_n (n : nat) (s : list W * t) (d : direction) : list W * t :=
  match n with
  | O => s
  | S n' => cycle_n n' (cycle s.1 s.2 d) d
  end.

End Operations.

End FocusManager.

(** ** Input (single-line text field)

    The fields [placeholder] and [type] only matter to [renderLine] and
    are left out.  The calls of the optional [onChange] callback are
    recorded in [changes], oldest first; the callback is assumed not to
    call back into the widget. *)

Module Input.

Record t := mk {
  width : Z;
  _value : JS.text;
  _cursor : Z;
  _scroll : ScrollState.t;
  _focused : bool;
  changes : list JS.text
}.

Definition new (width : Z) : t := mk width [] 0 ScrollState.new false [].

Definition getValue (i : t) : JS.text := _value i.

Definition with_cursor (i : t) (c : Z) : t :=
  mk (width i) (_value i) c (_scroll i) (_focused i) (changes i).

Definition with_value (i : t) (v : JS.text) : t :=
  mk (width i) v (_cursor i) (_scroll i) (_focused i) (changes i).

Definition with_scroll (i : t) (s : ScrollState.t) : t :=
  mk (width i) (_value i) (_cursor i) s (_focused i) (changes i).

Definition with_focused (i : t) (b : bool) : t :=
  mk (width i) (_value i) (_cursor i) (_scroll i) b (changes i).

(** [this.onChange?.(this._value)] *)
Definition notify (i : t) : t :=
  mk (width i) (_value i) (_cursor i) (_scroll i) (_focused i)
     (changes i ++ [_value i]).

Definition _clampScroll (i : t) : t :=
  with_scroll i (ScrollState.clampHorizontal (_scroll i) (_cursor i) (width i - 2)).

Definition setValue (i : t) (v : JS.text) : t :=
  _clampScroll (with_cursor (with_value i v) (JS.len v)).

Definition handleKey (i : t) (key : Key) : t * bool :=
  let v := _value i in
  let c := _cursor i in
  if named key "left" then
    (_clampScroll (with_cursor i (Z.max 0 (c - 1))), true)
  else if named key "right" then
    (_clampScroll (with_cursor i (Z.min (JS.len v) (c + 1))), true)
  else if named key "home" then
    (_clampScroll (with_cursor i 0), true)
  else if named key "end" then
    (_clampScroll (with_cursor i (JS.len v)), true)
  else if named key "backspace" then
    let i1 :=
      if 0 <? c then
        notify (with_cursor
                  (with_value i (JS.slice v 0 (c - 1) ++ JS.slice_from v c))
                  (c - 1))
      else i in
    (_clampScroll i1, true)
  else if named key "delete" then
    let i1 :=
      if c <? JS.len v then
        notify (with_value i (JS.slice v 0 c ++ JS.slice_from v (c + 1)))
      else i in
    (_clampScroll i1, true)
  else if negb (named key "return") && negb (named key "escape")
          && negb (named key "tab") then
    match single_char key with
    | Some ch =>
        (_clampScroll
           (notify (with_cursor
                      (with_value i (JS.slice v 0 c ++ ch ++ JS.slice_from v c))
                      (c + 1))),
         true)
    | None => (i, false)
    end
  else (i, false).

(** The widget after a sequence of keys. *)
Definition handleKeys (i : t) (keys : list Key) : t :=
  fold_left (fun i k => (handleKey i k).1) keys i.

(** The key names [handleKey] tests for before it looks at the
    character a key carries. *)
Definition reserved : list string :=
  ["left"; "right"; "home"; "end"; "backspace"; "delete";
   "return"; "escape"; "tab"]%string.

(** A printable single-character key: it carries the one character
    [ch], has neither [ctrl] nor [meta], and its name (if it has one,
    as ["space"] or a letter) is none of the reserved ones. *)
Definition printable (key : Key) (ch : ascii) : Prop :=
  sequence key = Some [ch] /\ ctrl key = false /\ meta key = false /\
  Forall (fun s => name key <> Some s) reserved.

End Input.

(** ** Textarea (multi-line editor)

    [placeholder] only matters to [renderLine] and is left out; the
    [onChange] calls are recorded in [changes] as for [Input]. *)

Module Textarea.

Record t := mk {
  width : Z;
  height : Z;
  _lines : list JS.text;
  _cursorRow : Z;
  _cursorCol : Z;
  _scroll : ScrollState.t;
  _focused : bool;
  changes : list JS.text
}.

(** [v.length > 0 ? v.split("\n") : [""]] *)
Definition lines_of (v : JS.text) : list JS.text :=
  if 0 <? JS.len v then JS.split_on JS.newline v else [[]].

Definition new (width height : Z) (initialValue : JS.text) : t :=
  mk width height (lines_of initialValue) 0 0 ScrollState.new false [].

Definition iw (t0 : t) : Z := width t0 - 2.
Definition ih (t0 : t) : Z := height t0 - 2.

Definition getValue (t0 : t) : JS.text := JS.join JS.newline (_lines t0).

Definition setValue (t0 : t) (v : JS.text) : t :=
  mk (width t0) (height t0) (lines_of v) 0 0 ScrollState.new
     (_focused t0) (changes t0).

Definition activeLineHint (t0 : t) : Z :=
  1 + (_cursorRow t0 - ScrollState.y (_scroll t0)).

Definition with_lines (t0 : t) (ls : list JS.text) : t :=
  mk (width t0) (height t0) ls (_cursorRow t0) (_cursorCol t0)
     (_scroll t0) (_focused t0) (changes t0).

Definition with_row (t0 : t) (r : Z) : t :=
  mk (width t0) (height t0) (_lines t0) r (_cursorCol t0)
     (_scroll t0) (_focused t0) (changes t0).

Definition with_col (t0 : t) (c : Z) : t :=
  mk (width t0) (height t0) (_lines t0) (_cursorRow t0) c
     (_scroll t0) (_focused t0) (changes t0).

Definition with_scroll (t0 : t) (s : ScrollState.t) : t :=
  mk (width t0) (height t0) (_lines t0) (_cursorRow t0) (_cursorCol t0)
     s (_focused t0) (changes t0).

Definition with_focused (t0 : t) (b : bool) : t :=
  mk (width t0) (height t0) (_lines t0) (_cursorRow t0) (_cursorCol t0)
     (_scroll t0) b (changes t0).

(** [this.onChange?.(this.getValue())] *)
Definition notify (t0 : t) : t :=
  mk (width t0) (height t0) (_lines t0) (_cursorRow t0) (_cursorCol t0)
     (_scroll t0) (_focused t0) (changes t0 ++ [getValue t0]).

(** [this._lines[i] = v]; a hole reads back as the empty line. *)
Definition set_line (t0 : t) (i : Z) (v : JS.text) : t :=
  with_lines t0 (JS.set [] (_lines t0) i v).

(** [this._lines[this._cursorRow] ?? ""] *)
Definition _currentLine (t0 : t) : JS.text :=
  JS.nullish (JS.get (_lines t0) (_cursorRow t0)) [].

Definition _moveCursorLeft (t0 : t) : t :=
  if 0 <? _cursorCol t0 then with_col t0 (_cursorCol t0 - 1)
  else if 0 <? _cursorRow t0 then
    let t1 := with_row t0 (_cursorRow t0 - 1) in
    with_col t1 (JS.len (_currentLine t1))
  else t0.

Definition _moveCursorRight (t0 : t) : t :=
  let line := _currentLine t0 in
  if _cursorCol t0 <? JS.len line then with_col t0 (_cursorCol t0 + 1)
  else if _cursorRow t0 <? JS.len (_lines t0) - 1 then
    with_col (with_row t0 (_cursorRow t0 + 1)) 0
  else t0.

Definition _moveCursorUp (t0 : t) : t :=
  if 0 <? _cursorRow t0 then
    let t1 := with_row t0 (_cursorRow t0 - 1) in
    with_col t1 (Z.min (_cursorCol t1) (JS.len (_currentLine t1)))
  else t0.

Definition _moveCursorDown (t0 : t) : t :=
  if _cursorRow t0 <? JS.len (_lines t0) - 1 then
    let t1 := with_row t0 (_cursorRow t0 + 1) in
    with_col t1 (Z.min (_cursorCol t1) (JS.len (_currentLine t1)))
  else t0.

Definition _insertChar (t0 : t) (ch : JS.text) : t :=
  let line := _currentLine t0 in
  let col := _cursorCol t0 in
  let t1 := set_line t0 (_cursorRow t0)
              (JS.slice line 0 col ++ ch ++ JS.slice_from line col) in
  with_col t1 (col + 1).

Definition _insertNewline (t0 : t) : t :=
  let line := _currentLine t0 in
  let row := _cursorRow t0 in
  let col := _cursorCol t0 in
  let t1 := set_line t0 row (JS.slice line 0 col) in
  let t2 := with_lines t1
              (JS.splice (_lines t1) (row + 1) 0 [JS.slice_from line col]) in
  with_col (with_row t2 (row + 1)) 0.

Definition _deleteBackward (t0 : t) : t :=
  let row := _cursorRow t0 in
  let col := _cursorCol t0 in
  if 0 <? col then
    let line := _currentLine t0 in
    let t1 := set_line t0 row
                (JS.slice line 0 (col - 1) ++ JS.slice_from line col) in
    with_col t1 (col - 1)
  else if 0 <? row then
    let prevLine := JS.nullish (JS.get (_lines t0) (row - 1)) [] in
    let t1 := with_col t0 (JS.len prevLine) in
    let t2 := set_line t1 (row - 1) (prevLine ++ _currentLine t1) in
    let t3 := with_lines t2 (JS.splice (_lines t2) row 1 []) in
    with_row t3 (row - 1)
  else t0.

Definition _deleteForward (t0 : t) : t :=
  let line := _currentLine t0 in
  let row := _cursorRow t0 in
  let col := _cursorCol t0 in
  if col <? JS.len line then
    set_line t0 row (JS.slice line 0 col ++ JS.slice_from line (col + 1))
  else if row <? JS.len (_lines t0) - 1 then
    let t1 := set_line t0 row
                (line ++ JS.nullish (JS.get (_lines t0) (row + 1)) []) in
    with_lines t1 (JS.splice (_lines t1) (row + 1) 1 [])
  else t0.

Definition _clampScroll (t0 : t) : t :=
  let maxScrollY := Z.max 0 (JS.len (_lines t0) - ih t0) in
  let s1 := ScrollState.clampVertical (_scroll t0) (_cursorRow t0) (ih t0)
              maxScrollY in
  with_scroll t0 (ScrollState.clampHorizontal s1 (_cursorCol t0) (iw t0)).

(** [this._cursorCol = key.ctrl ? (this._cursorRow = 0) : 0] *)
Definition home (t0 : t) (key : Key) : t :=
  if ctrl key then with_col (with_row t0 0) 0 else with_col t0 0.

Definition end_ (t0 : t) (key : Key) : t :=
  let t1 := if ctrl key then with_row t0 (JS.len (_lines t0) - 1) else t0 in
  with_col t1 (JS.len (_currentLine t1)).

Definition handleKey (t0 : t) (key : Key) : t * bool :=
  if named key "tab" || named key "escape" then (t0, false)
  else if named key "left" then (_clampScroll (_moveCursorLeft t0), true)
  else if named key "right" then (_clampScroll (_moveCursorRight t0), true)
  else if named key "up" then (_clampScroll (_moveCursorUp t0), true)
  else if named key "down" then (_clampScroll (_moveCursorDown t0), true)
  else if named key "home" then (_clampScroll (home t0 key), true)
  else if named key "end" then (_clampScroll (end_ t0 key), true)
  else if named key "backspace" then
    (_clampScroll (notify (_deleteBackward t0)), true)
  else if named key "delete" then
    (_clampScroll (notify (_deleteForward t0)), true)
  else if named key "return" then
    (_clampScroll (notify (_insertNewline t0)), true)
  else
    match single_char key with
    | Some ch => (_clampScroll (notify (_insertChar t0 ch)), true)
    | None => (t0, false)
    end.

(** The widget after a sequence of keys. *)
Definition handleKeys (t0 : t) (keys : list Key) : t :=
  fold_left (fun t1 k => (handleKey t1 k).1) keys t0.

(** The cursor/selection invariant of the editor. *)
Definition cursor_ok (t0 : t) : Prop :=
  _lines t0 <> [] /\
  0 <= _cursorRow t0 < JS.len (_lines t0) /\
  exists line,
    JS.get (_lines t0) (_cursorRow t0) = Some line /\
    0 <= _cursorCol t0 <= JS.len line.

End Textarea.

(** ** Container (panel)

    The children are the store of the panel: a child is referred to by
    its position in [children], and [child === target] is equality of
    positions (the children are distinct objects).  The container is
    generic in the widget type, which only has to offer the capability
    interfaces. *)

Inductive ContainerState := StDefault | StSelect | StFocus.

Module Container.

Record t (W : Type) := mk {
  style_width : Z;
  style_height : Z;
  children : list W;
  state : ContainerState;
  _scroll : ScrollState.t;
  _focus : FocusManager.t
}.

Arguments mk {W} _ _ _ _ _ _.
Arguments style_width {W} _.
Arguments style_height {W} _.
Arguments children {W} _.
Arguments state {W} _.
Arguments _scroll {W} _.
Arguments _focus {W} _.

Section Methods.
Context {W : Type} `{IDimensional W, IFocusTarget W, IKeyConsumer W}.

(** The positions of the children that pass the probe
    ["isFocused" in c], in order: the [flatMap] of the constructor. *)
Fixpoint focusable_from (probe : W -> bool) (pos : nat) (l : list W)
  : list nat :=
  match l with
  | [] => []
  | c :: rest =>
      if probe c then pos :: focusable_from probe (S pos) rest
      else focusable_from probe (S pos) rest
  end.

Definition new (probe : W -> bool) (width height : Z) (children : list W)
  : t W :=
  mk width height children StDefault ScrollState.new
     (FocusManager.new (focusable_from probe 0 children)).

Definition iw (c : t W) : Z := style_width c - 4.
Definition ih (c : t W) : Z := style_height c - 3.
Definition contentWidth (c : t W) : Z := iw c - 2.

Definition _totalLines (c : t W) : Z :=
  fold_left (fun s w => s + lineCount w) (children c) 0.

Definition _maxLineWidth (c : t W) : Z :=
  fold_left (fun m w => Z.max m (naturalWidth w)) (children c) 0.

Definition _maxScrollY (c : t W) : Z := Z.max 0 (_totalLines c - ih c).
Definition _maxScrollX (c : t W) : Z := Z.max 0 (_maxLineWidth c - contentWidth c).

Definition getState (c : t W) : ContainerState := state c.

Definition setState (c : t W) (s : ContainerState) : t W :=
  mk (style_width c) (style_height c) (children c) s (_scroll c) (_focus c).

Definition with_scroll (c : t W) (s : ScrollState.t) : t W :=
  mk (style_width c) (style_height c) (children c) (state c) s (_focus c).

Definition with_focus (c : t W) (hf : list W * FocusManager.t) : t W :=
  mk (style_width c) (style_height c) hf.1 (state c) (_scroll c) hf.2.

Definition with_children (c : t W) (h : list W) : t W :=
  mk (style_width c) (style_height c) h (state c) (_scroll c) (_focus c).

(** The body of the loop of [_scrollToFocused] once the focused child is
    found at row [lineOffset]. *)
Definition scroll_to (c : t W) (lineOffset hint : Z) : t W :=
  let targetLine := lineOffset + hint in
  let topAnchor := lineOffset in
  let y := ScrollState.y (_scroll c) in
  if targetLine <? y then
    with_scroll c
      (ScrollState.setY (_scroll c) (Z.min targetLine topAnchor) (_maxScrollY c))
  else if y + ih c <=? targetLine then
    let desired := targetLine - ih c + 1 in
    with_scroll c
      (ScrollState.setY (_scroll c) (Z.min desired topAnchor) (_maxScrollY c))
  else c.

(** The loop over the children, from position [pos] on, with the rows
    of the children before it summed up in [lineOffset]. *)
Fixpoint scan (c : t W) (target pos : nat) (rest : list W) (lineOffset : Z)
  : t W :=
  match rest with
  | [] => c
  | child :: rest' =>
      if Nat.eqb pos target then
        scroll_to c lineOffset (JS.nullish (activeLineHint child) 0)
      else scan c target (S pos) rest' (lineOffset + lineCount child)
  end.

Definition _scrollToFocused (c : t W) : t W :=
  match FocusManager.current (_focus c) with
  | None => c
  | Some target => scan c target 0 (children c) 0
  end.

(** The cumulative row offset of the child at position [target]: the
    prefix sum of the row counts of the children before it. *)
Definition offset_of (c : t W) (target : nat) : Z :=
  fold_left (fun s w => s + lineCount w) (take target (children c)) 0.

Definition _handleFocusMode (c : t W) (key : Key) : t W :=
  let active := FocusManager.current (_focus c) in
  let delegated :=
    match active with
    | Some a =>
        match children c !! a with
        | Some w =>
            let r := consumeKey w key in
            (with_children c (<[a := r.1]> (children c)), r.2)
        | None => (c, false)
        end
    | None => (c, false)
    end in
  let c1 := delegated.1 in
  if delegated.2 then _scrollToFocused c1
  else if named key "tab" then
    _scrollToFocused
      (with_focus c1
         (FocusManager.cycle (children c1) (_focus c1)
            (if shift key then Backward else Forward)))
  else if named key "escape" then
    if FocusManager.hasFocus (_focus c1)
    then with_focus c1 (FocusManager.clear (children c1) (_focus c1))
    else setState c1 StSelect
  else if negb (FocusManager.hasFocus (_focus c1)) then
    let s0 := _scroll c1 in
    let s1 := if named key "up"
              then ScrollState.setY s0 (ScrollState.y s0 - 1) (_maxScrollY c1)
              else s0 in
    let s2 := if named key "down"
              then ScrollState.setY s1 (ScrollState.y s1 + 1) (_maxScrollY c1)
              else s1 in
    let s3 := if named key "left"
              then ScrollState.setX s2 (ScrollState.x s2 - 1) (_maxScrollX c1)
              else s2 in
    let s4 := if named key "right"
              then ScrollState.setX s3 (ScrollState.x s3 + 1) (_maxScrollX c1)
              else s3 in
    with_scroll c1 s4
  else c1.

Definition handleKey (c : t W) (key : Key) : t W :=
  match state c with
  | StFocus => _handleFocusMode c key
  | StSelect =>
      if named key "return" then
        let c1 := setState c StFocus in
        _scrollToFocused
          (with_focus c1 (FocusManager.initFirst (children c1) (_focus c1)))
      else c
  | StDefault => c
  end.

Definition handleKeys (c : t W) (keys : list Key) : t W :=
  fold_left handleKey keys c.

End Methods.

End Container.

(** ** The concrete widgets a panel is filled with here

    [Label] is a display widget (one row, not focusable); [Input] and
    [Textarea] are the two editors modelled above. *)

Inductive widget :=
| WLabel (text : JS.text)
| WInput (i : Input.t)
| WTextarea (t0 : Textarea.t).

(** ["isFocused" in c] *)
Definition is_focusable (w : widget) : bool :=
  match w with
  | WLabel _ => false
  | WInput _ | WTextarea _ => true
  end.

#[export] Instance widget_dimensional : IDimensional widget := {|
  lineCount w :=
    match w with
    | WLabel _ => 1
    | WInput _ => 1
    | WTextarea t0 => Textarea.height t0
    end;
  naturalWidth w :=
    match w with
    | WLabel s => JS.len s
    | WInput i => Input.width i
    | WTextarea t0 => Textarea.width t0
    end
|}.

#[export] Instance widget_focus_target : IFocusTarget widget := {|
  isFocused w :=
    match w with
    | WLabel _ => false
    | WInput i => Input._focused i
    | WTextarea t0 => Textarea._focused t0
    end;
  focus w :=
    match w with
    | WLabel s => WLabel s
    | WInput i => WInput (Input.with_focused i true)
    | WTextarea t0 => WTextarea (Textarea.with_focused t0 true)
    end;
  blur w :=
    match w with
    | WLabel s => WLabel s
    | WInput i => WInput (Input.with_focused i false)
    | WTextarea t0 => WTextarea (Textarea.with_focused t0 false)
    end;
  activeLineHint w :=
    match w with
    | WLabel _ => None
    | WInput _ => None
    | WTextarea t0 => Some (Textarea.activeLineHint t0)
    end
|}.

#[export] Instance widget_key_consumer : IKeyConsumer widget := {|
  consumeKey w key :=
    match w with
    | WLabel s => (WLabel s, false)
    | WInput i => let r := Input.handleKey i key in (WInput r.1, r.2)
    | WTextarea t0 => let r := Textarea.handleKey t0 key in (WTextarea r.1, r.2)
    end
|}.

(** ** Results of code that can throw

    [RangeError] and [TypeError] are the JavaScript exceptions the
    modelled code can raise.  JavaScript does not trap a division by
    zero: it yields [NaN] or an infinity, which no later step of the
    chart code can recover from; the model reports it as
    [DivisionByZero], so that its absence can be stated. *)

Inductive outcome (A : Type) :=
| Ok (a : A)
| RangeError
| TypeError
| DivisionByZero.

Arguments Ok {A} a.
Arguments RangeError {A}.
Arguments TypeError {A}.
Arguments DivisionByZero {A}.

#[export] Instance outcome_bind : MBind outcome := fun A B f m =>
  match m with
  | Ok a => f a
  | RangeError => RangeError
  | TypeError => TypeError
  | DivisionByZero => DivisionByZero
  end.

(** A loop whose body can throw. *)
Fixpoint for_each {A S} (body : S -> A -> outcome S) (l : list A) (s : S)
  : outcome S :=
  match l with
  | [] => Ok s
  | a :: l' => s' ← body s a; for_each body l' s'
  end.

(** [a / b] on exact rationals. *)
Definition divide (a b : Q) : outcome Q :=
  if Qeq_bool b 0 then DivisionByZero else Ok (a / b)%Q.

(** ** BrailleCanvas

    Colors are chalk color names; [None] is [null]. *)

Module BrailleCanvas.

Definition BRAILLE_BITS : list (list Z) :=
  [ [1; 8]      (* row 0: 0x01 0x08 *)
  ; [2; 16]     (* row 1: 0x02 0x10 *)
  ; [4; 32]     (* row 2: 0x04 0x20 *)
  ; [64; 128]   (* row 3: 0x40 0x80 *)
  ].

(** [BRAILLE_BITS[r]![c]!] *)
Definition braille_bit (r c : Z) : Z :=
  JS.nullish (row ← JS.get BRAILLE_BITS r; JS.get row c) 0.

Record t := mk {
  cols : Z;
  rows : Z;
  pixels : list (list bool);
  colors : list (list (option string))
}.

Definition pixelWidth (cv : t) : Z := cols cv * 2.
Definition pixelHeight (cv : t) : Z := rows cv * 4.

(** The constructor: [new Array(pw)] throws for a negative [pw], but it
    only runs when there is at least one pixel row to build. *)
Definition new (cols rows : Z) : outcome t :=
  let ph := rows * 4 in
  let pw := cols * 2 in
  if (0 <? ph) && (pw <? 0) then RangeError
  else Ok (mk cols rows
              (replicate (Z.to_nat ph) (replicate (Z.to_nat pw) false))
              (replicate (Z.to_nat ph) (replicate (Z.to_nat pw) None))).

Definition clear (cv : t) : t :=
  mk (cols cv) (rows cv)
     ((fun row => replicate (length row) false) <$> pixels cv)
     ((fun row => replicate (length row) None) <$> colors cv).

(** [a[py]![px] = v]: a [TypeError] when row [py] does not exist. *)
Definition set_at {A} (hole : A) (buf : list (list A)) (px py : Z) (v : A)
  : outcome (list (list A)) :=
  match JS.get buf py with
  | Some row => Ok (<[Z.to_nat py := JS.set hole row px v]> buf)
  | None => TypeError
  end.

Definition setPixel (cv : t) (px py : Z) (color : option string) : outcome t :=
  if (px <? 0) || (pixelWidth cv <=? px) || (py <? 0) || (pixelHeight cv <=? py)
  then Ok cv
  else
    ps ← set_at false (pixels cv) px py true;
    cs ← set_at None (colors cv) px py color;
    Ok (mk (cols cv) (rows cv) ps cs).

(** [buf[py]?.[px]], with [undefined] read as [hole]. *)
Definition at2 {A} (hole : A) (buf : list (list A)) (px py : Z) : A :=
  JS.nullish (row ← JS.get buf py; JS.get row px) hole.

(** [this.pixels[py]?.[px]] as a condition: [undefined] is falsy. *)
Definition pixel_at (cv : t) (px py : Z) : bool :=
  at2 false (pixels cv) px py.

(** [this.colors[py]?.[px] ?? "white"]: [undefined] and [null] both
    give ["white"]. *)
Definition color_at (cv : t) (px py : Z) : string :=
  JS.nullish (at2 None (colors cv) px py) "white"%string.

(** The order in which [getCell] visits the sub-pixels of a cell:
    [for r in 0..3] outside, [for c in 0..1] inside, as (r, c). *)
Definition scan_order : list (Z * Z) :=
  r ← seqZ 0 4; c ← seqZ 0 2; [(r, c)].

(** One iteration of the inner loop of [getCell] on the loop state
    [(bits, color, found)]. *)
Definition visit (cv : t) (col row : Z) (st : Z * string * bool) (rc : Z * Z)
  : Z * string * bool :=
  let '(bits, color, found) := st in
  let py := row * 4 + rc.1 in
  let px := col * 2 + rc.2 in
  if pixel_at cv px py then
    (Z.lor bits (braille_bit rc.1 rc.2),
     if found then color else color_at cv px py,
     true)
  else st.

(** [getCell]: the code unit of the glyph and the color. *)
Definition getCell (cv : t) (col row : Z) : Z * string :=
  let '(bits, color, _) :=
    fold_left (visit cv col row) scan_order (0, "gray"%string, false) in
  (10240 + bits, color).

(** [drawBar]: a filled rectangle, columns [x .. x+w-1], rows
    [top .. bottom]. *)
Definition drawBar (cv : t) (x bottom top w : Z) (color : string) : outcome t :=
  for_each
    (fun cv1 px =>
       for_each (fun cv2 py => setPixel cv2 px py (Some color))
                (seqZ top (bottom - top + 1)) cv1)
    (seqZ x w) cv.

(** The buffers have the shape the constructor gives them. *)
Definition well_formed (cv : t) : Prop :=
  length (pixels cv) = Z.to_nat (pixelHeight cv) /\
  length (colors cv) = Z.to_nat (pixelHeight cv) /\
  Forall (fun row => length row = Z.to_nat (pixelWidth cv)) (pixels cv) /\
  Forall (fun row => length row = Z.to_nat (pixelWidth cv)) (colors cv).

(** A canvas of [cols0] x [rows0] cells that is well-formed and has
    set sub-pixels on its bottom pixel row only. *)
Definition baseline_only (cols0 rows0 : Z) (cv : t) : Prop :=
  cols cv = cols0 /\ rows cv = rows0 /\ well_formed cv /\
  forall px py, pixel_at cv px py = true -> py = rows0 * 4 - 1.

(** The sub-pixels of cell [(col, row)] that are set, in scan order. *)
Definition set_subpixels (cv : t) (col row : Z) : list (Z * Z) :=
  filter (fun rc => pixel_at cv (col * 2 + rc.2) (row * 4 + rc.1) = true)
         scan_order.

End BrailleCanvas.

(** ** BarChart

    The values are JavaScript numbers; they are idealised as exact
    rationals.  [labels], [title] and [barColor] only matter to
    [renderLine] and are left out. *)

Definition PALETTE : list string :=
  ["cyan"; "yellow"; "green"; "magenta"; "red"; "blue"; "white"]%string.

Module BarChart.

Record t := mk {
  width : Z;
  height : Z;
  values : list Q;
  _canvas : BrailleCanvas.t;
  _dirty : bool;
  _max : Q
}.

Definition new (width height : Z) (values : list Q) : outcome t :=
  cv ← BrailleCanvas.new (width - 2) (height - 3);
  Ok (mk width height values cv true 1).

Definition setData (c : t) (values : list Q) : t :=
  mk (width c) (height c) values (_canvas c) true (_max c).

(** [Math.max(...values, 0.001)] *)
Definition max_of (values : list Q) : Q :=
  fold_right Qmax (1 # 1000)%Q values.

(** [PALETTE[i % PALETTE.length]!]; an [undefined] color would make
    [drawBar] fall back to its default, ["white"]. *)
Definition palette (i : Z) : string :=
  JS.nullish (JS.get PALETTE (Z.rem i (JS.len PALETTE))) "white"%string.

(** [Math.round((value / max) * (ph - 1))], on exact rationals.  The
    code rounds in double precision, which gives the same height where
    the quotient and the product are exact, as they are for the value
    0; for other data the two can differ by one. *)
Definition barH (max : Q) (ph : Z) (value : Q) : outcome Z :=
  q ← divide value max;
  Ok (JS.round (q * inject_Z (ph - 1))%Q).

(** The loop over the bars: bar [i] starts at pixel column [x]. *)
Fixpoint draw_bars (cv : BrailleCanvas.t) (max : Q) (ph barPx gapPx : Z)
  (i x : Z) (vs : list Q) : outcome BrailleCanvas.t :=
  match vs with
  | [] => Ok cv
  | v :: vs' =>
      h ← barH max ph v;
      let top := ph - 1 - h in
      cv' ← BrailleCanvas.drawBar cv x (ph - 1) top barPx (palette i);
      draw_bars cv' max ph barPx gapPx (i + 1) (x + barPx + gapPx) vs'
  end.

Definition _render (c : t) : outcome t :=
  if negb (_dirty c) then Ok c
  else
    let cv := BrailleCanvas.clear (_canvas c) in
    if JS.len (values c) =? 0
    then Ok (mk (width c) (height c) (values c) cv false (_max c))
    else
      let max := max_of (values c) in
      let pw := BrailleCanvas.pixelWidth cv in
      let ph := BrailleCanvas.pixelHeight cv in
      let n := JS.len (values c) in
      let totalPx := pw in
      let barPx := Z.max 1 (totalPx / (n * 2)) in
      let gapPx := Z.max 0 ((totalPx - barPx * n) / (n + 1)) in
      cv' ← draw_bars cv max ph barPx gapPx 0 gapPx (values c);
      Ok (mk (width c) (height c) (values c) cv' false max).

(** The heights [_render] computes for the bars, one per value. *)
Definition bar_heights (c : t) : list (outcome Z) :=
  let ph := BrailleCanvas.pixelHeight (_canvas c) in
  barH (max_of (values c)) ph <$> values c.

End BarChart.

(** ** A sample panel

    A panel of height 8 (viewport height 5) filled with ten labels, a
    text field, ten more labels and a second text field: the first text
    field starts at row 10, the second at row 21, and the content can
    scroll down to row 17.  A panel group puts the panel into the
    selected state before it hands it any key. *)

Definition demo_children : list widget :=
  replicate 10 (WLabel (JS.of_string "label"))
  ++ [WInput (Input.new 24)]
  ++ replicate 10 (WLabel (JS.of_string "label"))
  ++ [WInput (Input.new 24)].

Definition demo_panel : Container.t widget :=
  Container.setState (Container.new is_focusable 32 8 demo_children) StSelect.

(** ** A sample canvas

    One cell (2 x 4 sub-pixels) whose top-left sub-pixel is drawn red. *)

Definition demo_canvas : BrailleCanvas.t :=
  BrailleCanvas.mk 1 1
    [[true; false]; [false; false]; [false; false]; [false; false]]
    [[Some "red"%string; None]; [None; None]; [None; None]; [None; None]].

(** ** A sample chart

    The bar chart [new BarChart(10, 6, [0, 0, 0], ...)], as the
    constructor leaves it: a canvas of 8 x 3 cells, not yet
    rasterized. *)

Definition demo_chart : BarChart.t :=
  BarChart.mk 10 6 [0%Q; 0%Q; 0%Q]
    (BrailleCanvas.mk 8 3 (replicate 12 (replicate 16 false))
       (replicate 12 (replicate 16 None)))
    true 1.

(* ===================================================================== *)
(** * Part I, continued: the remaining widgets, the panel group and the
      drawing primitives                                                   *)
(* ===================================================================== *)

(** ** Select (dropdown)

    The [onChange] calls are recorded in [changes] with both arguments,
    the committed index and the committed option. *)

Module Select.

Record t := mk {
  width : Z;
  options : list JS.text;
  _open : bool;
  _focused : bool;
  _hovered : Z;
  _selected : Z;
  changes : list (Z * JS.text)
}.

Definition new (width : Z) (options : list JS.text) (initialIndex : Z) : t :=
  let sel := Z.max 0 (Z.min initialIndex (JS.len options - 1)) in
  mk width options false false sel sel [].

Definition lineCount (s : t) : Z :=
  if _open s then 1 + JS.len (options s) else 1.

Definition naturalWidth (s : t) : Z := width s.

Definition getIndex (s : t) : Z := _selected s.

(** [this.options[this._selected] ?? ""] *)
Definition getValue (s : t) : JS.text :=
  JS.nullish (JS.get (options s) (_selected s)) [].

Definition focus (s : t) : t :=
  mk (width s) (options s) (_open s) true (_hovered s) (_selected s) (changes s).

(** Losing the focus also closes the list. *)
Definition blur (s : t) : t :=
  mk (width s) (options s) false false (_hovered s) (_selected s) (changes s).

Definition with_open (s : t) (b : bool) : t :=
  mk (width s) (options s) b (_focused s) (_hovered s) (_selected s) (changes s).

Definition with_hovered (s : t) (h : Z) : t :=
  mk (width s) (options s) (_open s) (_focused s) h (_selected s) (changes s).

Definition with_selected (s : t) (i : Z) : t :=
  mk (width s) (options s) (_open s) (_focused s) (_hovered s) i (changes s).

(** [this.onChange?.(this._selected, this.options[this._selected] ?? "")] *)
Definition notify (s : t) : t :=
  mk (width s) (options s) (_open s) (_focused s) (_hovered s) (_selected s)
     (changes s ++ [(_selected s, getValue s)]).

Definition handleKey (s : t) (key : Key) : t * bool :=
  if negb (_open s) then
    if named key "return" || named key "space"
    then (with_hovered (with_open s true) (_selected s), true)
    else (s, false)
  else if named key "up" then
    (with_hovered s (Z.max 0 (_hovered s - 1)), true)
  else if named key "down" then
    (with_hovered s (Z.min (JS.len (options s) - 1) (_hovered s + 1)), true)
  else if named key "return" then
    (notify (with_open (with_selected s (_hovered s)) false), true)
  else if named key "escape" then
    (with_open s false, true)
  else (s, false).

Definition handleKeys (s : t) (keys : list Key) : t :=
  fold_left (fun s k => (handleKey s k).1) keys s.

Definition activeLineHint (s : t) : Z :=
  if _open s then 1 + _hovered s else 0.

End Select.

(** ** Radio list *)

Module Radio.

Record t := mk {
  options : list JS.text;
  _focused : bool;
  _hovered : Z;
  _selected : Z;
  changes : list (Z * JS.text)
}.

Definition new (options : list JS.text) (initialIndex : Z) : t :=
  let sel := Z.max 0 (Z.min initialIndex (JS.len options - 1)) in
  mk options false sel sel [].

Definition lineCount (r : t) : Z := JS.len (options r).

(** [3 + this.options.reduce((m, o) => Math.max(m, o.length), 0)] *)
Definition naturalWidth (r : t) : Z :=
  3 + fold_left (fun m o => Z.max m (JS.len o)) (options r) 0.

Definition getIndex (r : t) : Z := _selected r.

Definition getValue (r : t) : JS.text :=
  JS.nullish (JS.get (options r) (_selected r)) [].

Definition focus (r : t) : t :=
  mk (options r) true (_hovered r) (_selected r) (changes r).

Definition blur (r : t) : t :=
  mk (options r) false (_hovered r) (_selected r) (changes r).

Definition with_hovered (r : t) (h : Z) : t :=
  mk (options r) (_focused r) h (_selected r) (changes r).

Definition with_selected (r : t) (i : Z) : t :=
  mk (options r) (_focused r) (_hovered r) i (changes r).

Definition notify (r : t) : t :=
  mk (options r) (_focused r) (_hovered r) (_selected r)
     (changes r ++ [(_selected r, getValue r)]).

Definition handleKey (r : t) (key : Key) : t * bool :=
  if named key "up" then
    (with_hovered r (Z.max 0 (_hovered r - 1)), true)
  else if named key "down" then
    (with_hovered r (Z.min (JS.len (options r) - 1) (_hovered r + 1)), true)
  else if named key "return" || named key "space" then
    (notify (with_selected r (_hovered r)), true)
  else (r, false).

Definition handleKeys (r : t) (keys : list Key) : t :=
  fold_left (fun r k => (handleKey r k).1) keys r.

Definition activeLineHint (r : t) : Z := _hovered r.

End Radio.

(** ** CheckBox *)

Module CheckBox.

Record t := mk {
  label : JS.text;
  _focused : bool;
  _checked : bool;
  changes : list bool
}.

Definition new (label : JS.text) (initialChecked : bool) : t :=
  mk label false initialChecked [].

Definition lineCount (c : t) : Z := 1.
Definition naturalWidth (c : t) : Z := 4 + JS.len (label c).

Definition isChecked (c : t) : bool := _checked c.

Definition setChecked (c : t) (v : bool) : t :=
  mk (label c) (_focused c) v (changes c).

Definition focus (c : t) : t := mk (label c) true (_checked c) (changes c).
Definition blur (c : t) : t := mk (label c) false (_checked c) (changes c).

Definition handleKey (c : t) (key : Key) : t * bool :=
  if named key "return" || named key "space" then
    (mk (label c) (_focused c) (negb (_checked c))
        (changes c ++ [negb (_checked c)]),
     true)
  else (c, false).

Definition handleKeys (c : t) (keys : list Key) : t :=
  fold_left (fun c k => (handleKey c k).1) keys c.

End CheckBox.

(** ** Predicates used to state the properties of the widgets *)

(** An [Input] whose cursor is a position of its value and whose scroll
    window is not left of the origin. *)
Definition input_ok (i : Input.t) : Prop :=
  0 <= Input._cursor i <= JS.len (Input._value i) /\
  0 <= ScrollState.x (Input._scroll i).

(** The cursor of an [Input] lies in the window of [width - 2] columns
    that starts at the scroll offset. *)
Definition input_cursor_visible (i : Input.t) : Prop :=
  ScrollState.x (Input._scroll i) <= Input._cursor i
  <= ScrollState.x (Input._scroll i) + (Input.width i - 2) - 1.

(** A key that does not type a line break: the character it carries, if
    [handleKey] would insert it, is not ["\n"]. *)
Definition types_no_newline (k : Key) : Prop :=
  forall ch, single_char k = Some ch -> JS.newline ∉ ch.

(** The cursor of a [Textarea] lies in the viewport of
    [(width - 2) x (height - 2)] cells that starts at the scroll
    offsets. *)
Definition textarea_cursor_visible (t0 : Textarea.t) : Prop :=
  ScrollState.x (Textarea._scroll t0) <= Textarea._cursorCol t0
  <= ScrollState.x (Textarea._scroll t0) + Textarea.iw t0 - 1 /\
  ScrollState.y (Textarea._scroll t0) <= Textarea._cursorRow t0
  <= ScrollState.y (Textarea._scroll t0) + Textarea.ih t0 - 1.

(** ** The focusable widgets as one type

    [IFocusable] is implemented by the text field, the editor, the
    dropdown, the radio list and the checkbox (and by the button, whose
    timer is not modelled). *)

Inductive focusable :=
| FInput (i : Input.t)
| FTextarea (t0 : Textarea.t)
| FSelect (s : Select.t)
| FRadio (r : Radio.t)
| FCheckBox (c : CheckBox.t).

#[export] Instance focusable_dimensional : IDimensional focusable := {|
  lineCount w :=
    match w with
    | FInput _ => 1
    | FTextarea t0 => Textarea.height t0
    | FSelect s => Select.lineCount s
    | FRadio r => Radio.lineCount r
    | FCheckBox c => CheckBox.lineCount c
    end;
  naturalWidth w :=
    match w with
    | FInput i => Input.width i
    | FTextarea t0 => Textarea.width t0
    | FSelect s => Select.naturalWidth s
    | FRadio r => Radio.naturalWidth r
    | FCheckBox c => CheckBox.naturalWidth c
    end
|}.

#[export] Instance focusable_focus_target : IFocusTarget focusable := {|
  isFocused w :=
    match w with
    | FInput i => Input._focused i
    | FTextarea t0 => Textarea._focused t0
    | FSelect s => Select._focused s
    | FRadio r => Radio._focused r
    | FCheckBox c => CheckBox._focused c
    end;
  focus w :=
    match w with
    | FInput i => FInput (Input.with_focused i true)
    | FTextarea t0 => FTextarea (Textarea.with_focused t0 true)
    | FSelect s => FSelect (Select.focus s)
    | FRadio r => FRadio (Radio.focus r)
    | FCheckBox c => FCheckBox (CheckBox.focus c)
    end;
  blur w :=
    match w with
    | FInput i => FInput (Input.with_focused i false)
    | FTextarea t0 => FTextarea (Textarea.with_focused t0 false)
    | FSelect s => FSelect (Select.blur s)
    | FRadio r => FRadio (Radio.blur r)
    | FCheckBox c => FCheckBox (CheckBox.blur c)
    end;
  activeLineHint w :=
    match w with
    | FInput _ => None
    | FTextarea t0 => Some (Textarea.activeLineHint t0)
    | FSelect s => Some (Select.activeLineHint s)
    | FRadio r => Some (Radio.activeLineHint r)
    | FCheckBox _ => None
    end
|}.

#[export] Instance focusable_key_consumer : IKeyConsumer focusable := {|
  consumeKey w key :=
    match w with
    | FInput i => let r := Input.handleKey i key in (FInput r.1, r.2)
    | FTextarea t0 =>
        let r := Textarea.handleKey t0 key in (FTextarea r.1, r.2)
    | FSelect s => let r := Select.handleKey s key in (FSelect r.1, r.2)
    | FRadio r0 => let r := Radio.handleKey r0 key in (FRadio r.1, r.2)
    | FCheckBox c => let r := CheckBox.handleKey c key in (FCheckBox r.1, r.2)
    end
|}.

(** ** Focus bookkeeping *)

(** Among the targets a focus manager knows, only the current one may
    be focused. *)
Definition focus_exclusive {W} `{IFocusTarget W}
  (h : list W) (fm : FocusManager.t) : Prop :=
  forall (a : nat) (w : W),
    a ∈ FocusManager._focusables fm ->
    h !! a = Some w ->
    isFocused w = true ->
    FocusManager.current fm = Some a.

(** ** ContainerGroup (panel group)

    The panels of a group are distinct objects, held in [containers] by
    position.  [containers[i]!.m()] throws a [TypeError] when there is no
    panel at [i]. *)

Definition is_focus (s : ContainerState) : bool :=
  match s with StFocus => true | _ => false end.

Module ContainerGroup.

Record t (W : Type) := mk {
  containers : list (Container.t W);
  _sel : Z
}.

Arguments mk {W} _ _.
Arguments containers {W} _.
Arguments _sel {W} _.

Section Methods.
Context {W : Type} `{IDimensional W, IFocusTarget W, IKeyConsumer W}.

Definition new (containers : list (Container.t W)) : t W := mk containers (-1).

(** [this.containers[i]!.setState(s)] *)
Definition set_state (cs : list (Container.t W)) (i : Z) (s : ContainerState)
  : outcome (list (Container.t W)) :=
  match JS.get cs i with
  | Some c => Ok (<[Z.to_nat i := Container.setState c s]> cs)
  | None => TypeError
  end.

(** [if (this._sel >= 0) this.containers[this._sel]!.setState("default")] *)
Definition deselect (g : t W) : outcome (list (Container.t W)) :=
  if 0 <=? _sel g then set_state (containers g) (_sel g) StDefault
  else Ok (containers g).

Definition _moveSel (g : t W) (i : Z) : outcome (t W) :=
  cs1 ← deselect g;
  cs2 ← set_state cs1 i StSelect;
  Ok (mk cs2 i).

Definition _clearSel (g : t W) : outcome (t W) :=
  cs1 ← deselect g;
  Ok (mk cs1 (-1)).

(** [this.containers.findIndex((c) => c.getState() === "focus")],
    counting from [pos]. *)
Fixpoint findIndex_from (pos : Z) (cs : list (Container.t W)) : Z :=
  match cs with
  | [] => -1
  | c :: rest =>
      if is_focus (Container.getState c) then pos
      else findIndex_from (pos + 1) rest
  end.

(** [this.containers[i]!.handleKey(key)] *)
Definition forward (g : t W) (i : Z) (key : Key) : outcome (t W) :=
  match JS.get (containers g) i with
  | Some c =>
      Ok (mk (<[Z.to_nat i := Container.handleKey c key]> (containers g))
             (_sel g))
  | None => TypeError
  end.

Definition handleKey (g : t W) (key : Key) : outcome (t W) :=
  let focusedIdx := findIndex_from 0 (containers g) in
  let len := JS.len (containers g) in
  if negb (focusedIdx =? -1) then forward g focusedIdx key
  else if _sel g =? -1 then
    if named key "right" || named key "tab"
    then _moveSel g (if shift key then len - 1 else 0)
    else Ok g
  else if named key "return" then forward g (_sel g) key
  else if named key "right" || (named key "tab" && negb (shift key))
  then _moveSel g (Z.rem (_sel g + 1) len)
  else if named key "left" || (named key "tab" && shift key)
  then _moveSel g (Z.rem (_sel g - 1 + len) len)
  else if named key "escape" then _clearSel g
  else Ok g.

Definition handleKeys (g : t W) (keys : list Key) : outcome (t W) :=
  for_each handleKey keys g.

End Methods.

End ContainerGroup.

(** At most one panel of the group is out of the default state, and it
    is the one the selection index points at. *)
Definition group_ok {W} (g : ContainerGroup.t W) : Prop :=
  -1 <= ContainerGroup._sel g < JS.len (ContainerGroup.containers g) /\
  (forall (i : nat) c,
     ContainerGroup.containers g !! i = Some c ->
     Z.of_nat i <> ContainerGroup._sel g ->
     Container.state c = StDefault) /\
  (forall c,
     JS.get (ContainerGroup.containers g) (ContainerGroup._sel g) = Some c ->
     Container.state c <> StDefault).


(** ** BrailleCanvas, continued: rows of cells and drawing primitives

    Pixel coordinates are integers: the charts round them before they
    draw. *)

Module Drawing.

Import BrailleCanvas.

(** [chalk.keyword(color)(str)]: a piece of text in one color.  The
    escape codes chalk puts around [str] are not modelled: a styled
    piece is the color name together with the code units of [str], and
    the output string is the list of its pieces. *)
Abbreviation styled := (string * list Z)%type (only parsing).

(** The closure [flush] of [getRow], on [(out, runColor, runStr)]; it
    leaves [runStr] empty. *)
Definition flush (out : list styled) (runColor : string) (runStr : list Z)
  : list styled :=
  match runStr with
  | [] => out
  | _ => out ++ [(runColor, runStr)]
  end.

(** One iteration of the loop of [getRow]. *)
Definition getRow_step (cv : t) (row : Z) (st : list styled * string * list Z)
  (col : Z) : list styled * string * list Z :=
  let '(out, runColor, runStr) := st in
  let '(ch, color) := getCell cv col row in
  if bool_decide (color = runColor)
  then (out, runColor, runStr ++ [ch])
  else (flush out runColor runStr, color, [ch]).

Definition getRow (cv : t) (row : Z) : list styled :=
  let '(out, runColor, runStr) :=
    fold_left (getRow_step cv row) (seqZ 0 (cols cv)) ([], ""%string, []) in
  flush out runColor runStr.

(** The loop [for (;;)] of [drawLine], run for at most [fuel]
    iterations: [None] when the fuel runs out before the [break]. *)
Fixpoint drawLine_loop (fuel : nat) (cv : t) (x0 y0 err : Z)
  (x1 y1 dx dy sx sy : Z) (color : string) : option (outcome t) :=
  match fuel with
  | O => None
  | S fuel' =>
      match setPixel cv x0 y0 (Some color) with
      | Ok cv' =>
          if (x0 =? x1) && (y0 =? y1) then Some (Ok cv')
          else
            let e2 := 2 * err in
            let '(err1, x0') :=
              if - dy <? e2 then (err - dy, x0 + sx) else (err, x0) in
            let '(err2, y0') :=
              if e2 <? dx then (err1 + dx, y0 + sy) else (err1, y0) in
            drawLine_loop fuel' cv' x0' y0' err2 x1 y1 dx dy sx sy color
      | RangeError => Some RangeError
      | TypeError => Some TypeError
      | DivisionByZero => Some DivisionByZero
      end
  end.

(** [drawLine]: Bresenham's line from [(x0, y0)] to [(x1, y1)]. *)
Definition drawLine (fuel : nat) (cv : t) (x0 y0 x1 y1 : Z) (color : string)
  : option (outcome t) :=
  let dx := Z.abs (x1 - x0) in
  let dy := Z.abs (y1 - y0) in
  let sx := if x0 <? x1 then 1 else -1 in
  let sy := if y0 <? y1 then 1 else -1 in
  drawLine_loop fuel cv x0 y0 (dx - dy) x1 y1 dx dy sx sy color.

(** [drawDot]: the pixels within distance [r] of [(cx, cy)]. *)
Definition drawDot (cv : t) (cx cy r : Z) (color : string) : outcome t :=
  for_each
    (fun cv1 dy =>
       for_each
         (fun cv2 dx =>
            if dx * dx + dy * dy <=? r * r
            then setPixel cv2 (cx + dx) (cy + dy) (Some color)
            else Ok cv2)
         (seqZ (- r) (r - (- r) + 1)) cv1)
    (seqZ (- r) (r - (- r) + 1)) cv.

End Drawing.

(** [(px, py)] is a pixel of the canvas. *)
Definition in_canvas (cv : BrailleCanvas.t) (px py : Z) : Prop :=
  0 <= px < BrailleCanvas.pixelWidth cv /\
  0 <= py < BrailleCanvas.pixelHeight cv.

(** [setPixel] with one color on the points of a list, in order. *)
Definition paint (cv : BrailleCanvas.t) (pts : list (Z * Z)) (color : string)
  : outcome BrailleCanvas.t :=
  for_each (fun cv1 p => BrailleCanvas.setPixel cv1 p.1 p.2 (Some color)) pts cv.

(** The points [drawBar] visits, in its order. *)
Definition bar_points (x bottom top w : Z) : list (Z * Z) :=
  px ← seqZ x w; py ← seqZ top (bottom - top + 1); [(px, py)].

(** The points [drawDot] paints, in its order. *)
Definition dot_points (cx cy r : Z) : list (Z * Z) :=
  dy ← seqZ (- r) (r - (- r) + 1);
  dx ← seqZ (- r) (r - (- r) + 1);
  if dx * dx + dy * dy <=? r * r then [(cx + dx, cy + dy)] else [].

(** [cv'] is [cv] with the pixels of [pts] that lie on the canvas set
    and colored [color], and nothing else changed. *)
Definition painted (cv : BrailleCanvas.t) (pts : list (Z * Z)) (color : string)
  (cv' : BrailleCanvas.t) : Prop :=
  BrailleCanvas.cols cv' = BrailleCanvas.cols cv /\
  BrailleCanvas.rows cv' = BrailleCanvas.rows cv /\
  BrailleCanvas.well_formed cv' /\
  forall px py,
    (BrailleCanvas.pixel_at cv' px py = true <->
     BrailleCanvas.pixel_at cv px py = true \/
     ((px, py) ∈ pts /\ in_canvas cv px py)) /\
    ((px, py) ∈ pts -> in_canvas cv px py ->
     BrailleCanvas.color_at cv' px py = color) /\
    (~ ((px, py) ∈ pts /\ in_canvas cv px py) ->
     BrailleCanvas.color_at cv' px py = BrailleCanvas.color_at cv px py).

(** The bits of the sub-pixels of [l] on which [f] holds, or-ed
    together as [getCell] does. *)
Definition glyph_bits (f : Z * Z -> bool) (l : list (Z * Z)) : Z :=
  foldr Z.lor 0
    ((fun rc => BrailleCanvas.braille_bit rc.1 rc.2)
       <$> filter (fun rc => f rc = true) l).

(** The cells a list of styled pieces shows: every glyph with the color
    of its piece. *)
Definition run_cells (runs : list Drawing.styled) : list (Z * string) :=
  run ← runs; (fun g => (g, run.1)) <$> run.2.

(** What the loop of [getRow] keeps true on [(out, runColor, runStr)]:
    [out] followed by the pending run shows the cells seen so far, no
    piece of [out] is empty, two neighbours in [out] differ in color,
    and so do the last piece of [out] and the pending run. *)
Definition row_inv (cells : list (Z * string))
  (st : list Drawing.styled * string * list Z) : Prop :=
  let '(out, runColor, runStr) := st in
  run_cells out ++ ((fun g => (g, runColor)) <$> runStr) = cells /\
  Forall (fun run => run.2 <> []) out /\
  (forall (i : nat) r1 r2,
     out !! i = Some r1 -> out !! S i = Some r2 -> r1.1 <> r2.1) /\
  (forall r, last out = Some r -> r.1 <> runColor) /\
  (runStr = [] -> out = [] /\ cells = []).

(** [q] is one of the eight neighbours of [p]. *)
Definition neighbours (p q : Z * Z) : Prop :=
  p <> q /\ Z.abs (q.1 - p.1) <= 1 /\ Z.abs (q.2 - p.2) <= 1.

(** Every point of the list is a neighbour of the one before it. *)
Fixpoint chain (pts : list (Z * Z)) : Prop :=
  match pts with
  | [] => True
  | p :: rest =>
      match rest with
      | [] => True
      | q :: _ => neighbours p q
      end /\ chain rest
  end.

(** Pixel [(px, py)] lies in the rectangle of bar number [k], of height
    [h], when the first bar starts at column [x]. *)
Definition in_bar (x barPx gapPx ph : Z) (k : nat) (h : Z) (px py : Z) : Prop :=
  x + Z.of_nat k * (barPx + gapPx) <= px
    < x + Z.of_nat k * (barPx + gapPx) + barPx /\
  ph - 1 - h <= py <= ph - 1.


(** ** Key events with their escape sequences

    Key events as a terminal produces them: besides the name they carry
    the characters that were read.  [Backspace], [Return] and [Space]
    carry a single character (DEL, CR and the blank), the others an
    escape sequence. *)

Definition key_backspace : Key :=
  mkKey (Some [Ascii.ascii_of_nat 127]) (Some "backspace"%string) false false false.

Definition key_return : Key :=
  mkKey (Some [Ascii.ascii_of_nat 13]) (Some "return"%string) false false false.

Definition key_delete : Key :=
  mkKey (Some (Ascii.ascii_of_nat 27 :: JS.of_string "[3~"))
        (Some "delete"%string) false false false.

Definition key_down : Key :=
  mkKey (Some (Ascii.ascii_of_nat 27 :: JS.of_string "[B"))
        (Some "down"%string) false false false.

Definition key_space : Key :=
  mkKey (Some [" "%char]) (Some "space"%string) false false false.

Definition key_escape : Key :=
  mkKey (Some [Ascii.ascii_of_nat 27]) (Some "escape"%string) false true false.

(** ** Numbers

    The model computes on integers; a JavaScript number holds an integer
    exactly when its magnitude is below [2^53]
    ([Number.isSafeInteger]). *)
Definition safe_integer (n : Z) : Prop := - 2 ^ 53 < n < 2 ^ 53.

(** ** BarChart, with the rounding left open

    The code computes the height of a bar,
    [Math.round((value / max) * (ph - 1))], in double precision.
    [BarChart.barH] computes it on exact rationals, which is what the
    code computes where the quotient and the product are exact, as they
    are for the value 0.  [BarChartOn] is the same [_render] with any
    function [height max ph value] in the place of that expression, so
    that what is proved of it holds whatever the rounding gives. *)

Module BarChartOn.

Section Heights.

Variable height : Q -> Z -> Q -> outcome Z.

Fixpoint draw_bars (cv : BrailleCanvas.t) (max : Q) (ph barPx gapPx : Z)
  (i x : Z) (vs : list Q) : outcome BrailleCanvas.t :=
  match vs with
  | [] => Ok cv
  | v :: vs' =>
      h ← height max ph v;
      let top := ph - 1 - h in
      cv' ← BrailleCanvas.drawBar cv x (ph - 1) top barPx (BarChart.palette i);
      draw_bars cv' max ph barPx gapPx (i + 1) (x + barPx + gapPx) vs'
  end.

Definition _render (c : BarChart.t) : outcome BarChart.t :=
  if negb (BarChart._dirty c) then Ok c
  else
    let cv := BrailleCanvas.clear (BarChart._canvas c) in
    if JS.len (BarChart.values c) =? 0
    then Ok (BarChart.mk (BarChart.width c) (BarChart.height c)
               (BarChart.values c) cv false (BarChart._max c))
    else
      let max := BarChart.max_of (BarChart.values c) in
      let pw := BrailleCanvas.pixelWidth cv in
      let ph := BrailleCanvas.pixelHeight cv in
      let n := JS.len (BarChart.values c) in
      let totalPx := pw in
      let barPx := Z.max 1 (totalPx / (n * 2)) in
      let gapPx := Z.max 0 ((totalPx - barPx * n) / (n + 1)) in
      cv' ← draw_bars cv max ph barPx gapPx 0 gapPx (BarChart.values c);
      Ok (BarChart.mk (BarChart.width c) (BarChart.height c)
            (BarChart.values c) cv' false max).

End Heights.

End BarChartOn.
(* ===================================================================== *)
(** * Part II: properties                                                  *)
(* ===================================================================== *)

(** ** ScrollState *)

Section ScrollStateProps.
Import ScrollState.

(** The horizontal offset is never negative, whatever the call. *)
Lemma clampHorizontal_nonneg s cursor w :
  0 <= x (clampHorizontal s cursor w).
Proof. unfold clampHorizontal; simpl. lia. Qed.

(** [clampHorizontal] leaves the vertical offset alone. *)
Lemma clampHorizontal_y s cursor w : y (clampHorizontal s cursor w) = y s.
Proof. reflexivity. Qed.

(** C3 (amended): for every state whose offset is an integer of
    magnitude below [2^53], every integer cursor with
    [0 <= cursor < 2^53] and every integer viewport width with
    [1 <= w < 2^53], after [clampHorizontal cursor w] the offset
    satisfies [0 <= x] and [x <= cursor <= x + w - 1], and it is again
    an integer of magnitude below [2^53].  Within these bounds the
    numbers the code computes are exact: [cursor - w + 1] lies strictly
    between [-2^53] and [2^53], and the sum [x + w] can only be rounded
    when it is above [2^53], where it compares with [cursor] as the
    exact sum does. *)
Theorem clampHorizontal_keeps_cursor_visible s cursor w :
  safe_integer (x s) -> safe_integer cursor -> safe_integer w ->
  0 <= cursor -> 1 <= w ->
  let s' := clampHorizontal s cursor w in
  0 <= x s' /\ x s' <= cursor /\ cursor <= x s' + w - 1 /\
  safe_integer (x s').
Proof.
  unfold safe_integer. intros Hx Hcs Hws Hc Hw. unfold clampHorizontal; simpl.
  destruct (Z.ltb_spec cursor (x s));
    match goal with |- context [?a <=? ?b] => destruct (Z.leb_spec a b) end;
    lia.
Qed.

Lemma clampHorizontal_keeps_cursor_visible_witness :
  let s' := clampHorizontal (mk 0 0) 7 3 in
  safe_integer (x (mk 0 0)) /\ safe_integer 7 /\ safe_integer 3 /\
  0 <= 7 /\ 1 <= 3 /\
  x s' = 5 /\ 0 <= x s' /\ x s' <= 7 /\ 7 <= x s' + 3 - 1 /\
  safe_integer (x s').
Proof.
  assert (H0 : safe_integer (x (mk 0 0))) by (unfold safe_integer; simpl; lia).
  assert (H7 : safe_integer 7) by (unfold safe_integer; lia).
  assert (H3 : safe_integer 3) by (unfold safe_integer; lia).
  split; [exact H0|]. split; [exact H7|]. split; [exact H3|].
  split; [lia|]. split; [lia|]. split; [reflexivity|].
  apply (clampHorizontal_keeps_cursor_visible (mk 0 0) 7 3 H0 H7 H3); lia.
Defined.

(** C3 as stated fails when the viewport is empty: an [Input] of width
    2 has a viewport of width 0, and typing one character there leaves
    [x = 2] to the right of the cursor at 1. *)
Lemma clampHorizontal_empty_viewport_counterexample :
  let s' := clampHorizontal new 1 0 in
  x s' = 2 /\ ~ (0 <= x s' /\ x s' <= 1 /\ 1 <= x s' + 0 - 1).
Proof. vm_compute. split; [reflexivity|]. intros (_ & H & _). now apply H. Qed.

(** The same on the widget: a text field of width 2 after one typed
    character. *)
Example input_width_2_scrolls_past_cursor :
  let i := (Input.handleKey (Input.new 2) (key_char "a")).1 in
  Input._cursor i = 1 /\ ScrollState.x (Input._scroll i) = 2.
Proof. vm_compute. split; reflexivity. Qed.

(** The floor at 0 also wins over a negative cursor. *)
Example clampHorizontal_negative_cursor :
  x (clampHorizontal new (-1) 5) = 0.
Proof. reflexivity. Qed.

End ScrollStateProps.

(** ** FocusManager *)

Section FocusManagerProps.
Context {W : Type} `{IFocusTarget W}.
Import FocusManager.

(** The operations never change the list of focusables. *)
Lemma apply_focusables (s : list W * t) (o : op) :
  _focusables (apply s o).2 = _focusables s.2.
Proof.
  destruct o as [i|d| |]; simpl; unfold cycle, initFirst, focusAt;
    repeat case_match; reflexivity.
Qed.

Lemma run_focusables (script : list op) (s : list W * t) :
  _focusables (run s script).2 = _focusables s.2.
Proof.
  revert s. induction script as [|o script IH]; intros s; [reflexivity|].
  unfold run in *. simpl. rewrite IH. apply apply_focusables.
Qed.

(** [focusAt] clamps the requested index into [0, N-1] as soon as
    there is something to focus. *)
Lemma focusAt_index (h : list W) (fm : t) (i : Z) :
  1 <= JS.len (_focusables fm) ->
  index (focusAt h fm i).2 = Z.max 0 (Z.min i (JS.len (_focusables fm) - 1)) /\
  0 <= index (focusAt h fm i).2 <= JS.len (_focusables fm) - 1.
Proof. intros HN. unfold focusAt, index; simpl. lia. Qed.

(** With at least one focusable, every operation keeps the index in
    [-1, N-1]. *)
Lemma apply_index_range (s : list W * t) (o : op) :
  1 <= JS.len (_focusables s.2) ->
  -1 <= index s.2 <= JS.len (_focusables s.2) - 1 ->
  -1 <= index (apply s o).2 <= JS.len (_focusables s.2) - 1.
Proof.
  intros HN Hr. destruct s as [h fm]; simpl in *.
  destruct o as [i|d| |]; simpl.
  - unfold focusAt, index; simpl. lia.
  - unfold cycle. destruct (Z.eqb_spec (JS.len (_focusables fm)) 0); [lia|].
    unfold index in *; simpl.
    assert (Hs : step_of d = 1 \/ step_of d = -1) by (destruct d; simpl; lia).
    set (N := JS.len (_focusables fm)) in *.
    destruct (Z.eq_dec (_idx fm + step_of d + N) (-1)) as [E|E].
    + rewrite E. assert (N = 1) by lia. subst N.
      replace (JS.len (_focusables fm)) with 1 by lia.
      change (Z.rem (-1) 1) with 0. lia.
    + assert (0 <= _idx fm + step_of d + N) by lia.
      rewrite Z.rem_mod_nonneg by lia.
      pose proof (Z.mod_pos_bound (_idx fm + step_of d + N) N ltac:(lia)). lia.
  - unfold index; simpl. lia.
  - unfold initFirst. case_match; [|exact Hr].
    unfold focusAt, index; simpl. lia.
Qed.

Lemma run_index_range (script : list op) (s : list W * t) :
  1 <= JS.len (_focusables s.2) ->
  -1 <= index s.2 <= JS.len (_focusables s.2) - 1 ->
  -1 <= index (run s script).2 <= JS.len (_focusables s.2) - 1.
Proof.
  revert s. induction script as [|o script IH]; intros s HN Hr; [exact Hr|].
  unfold run in *; simpl.
  rewrite <- (apply_focusables s o).
  apply IH; rewrite apply_focusables; [exact HN|].
  now apply apply_index_range.
Qed.

(** One [cycle] step moves an index of [0, N-1] by one, modulo [N]. *)
Lemma cycle_index (h : list W) (fm : t) (d : direction) :
  0 <= index fm < JS.len (_focusables fm) ->
  index (cycle h fm d).2 = (index fm + step_of d) mod JS.len (_focusables fm) /\
  _focusables (cycle h fm d).2 = _focusables fm.
Proof.
  intros Hr. unfold cycle, index in *.
  destruct (Z.eqb_spec (JS.len (_focusables fm)) 0); [lia|]. simpl.
  split; [|reflexivity].
  assert (Hs : step_of d = 1 \/ step_of d = -1) by (destruct d; simpl; lia).
  rewrite Z.rem_mod_nonneg by lia.
  rewrite <- (Z.mod_add (_idx fm + step_of d) 1) by lia.
  f_equal. lia.
Qed.

Lemma cycle_n_index (n : nat) (s : list W * t) (d : direction) :
  0 <= index s.2 < JS.len (_focusables s.2) ->
  index (cycle_n n s d).2
  = (index s.2 + Z.of_nat n * step_of d) mod JS.len (_focusables s.2).
Proof.
  revert s. induction n as [|n IH]; intros [h fm] Hr; simpl in *.
  - rewrite Z.add_0_r. symmetry. apply Z.mod_small. exact Hr.
  - destruct (cycle_index h fm d Hr) as [Hi Hf].
    rewrite IH; rewrite Hf, Hi.
    + rewrite Zplus_mod_idemp_l. f_equal. lia.
    + apply Z.mod_pos_bound. lia.
Qed.

(** C5 (amended): when the focus index is in [0, N-1] (some child is
    focused), applying [cycle] with the same direction [N] times brings
    the index back to where it was. *)
Theorem cycle_N_times_returns (h : list W) (fm : t) (d : direction) :
  0 <= index fm < JS.len (_focusables fm) ->
  index (cycle_n (length (_focusables fm)) (h, fm) d).2 = index fm.
Proof.
  intros Hr. rewrite cycle_n_index by exact Hr. simpl.
  fold (JS.len (_focusables fm)).
  rewrite Z.mul_comm, Z.mod_add by lia.
  apply Z.mod_small. exact Hr.
Qed.

End FocusManagerProps.

Lemma cycle_N_times_returns_witness :
  let fm := FocusManager.mk 2 [0; 1; 2]%nat in
  let h := [WInput (Input.new 8); WInput (Input.new 8); WInput (Input.new 8)] in
  0 <= FocusManager.index fm < JS.len (FocusManager._focusables fm) /\
  FocusManager.index
    (FocusManager.cycle_n 3 (h, fm) Forward).2 = FocusManager.index fm.
Proof.
  intros fm h. split; [vm_compute; split; [discriminate|reflexivity]|].
  apply (cycle_N_times_returns h fm Forward). vm_compute.
  split; [discriminate|reflexivity].
Defined.

(** C5 as stated fails for the index every manager starts with: from
    [-1] (no focus) two steps over two focusables end on index 1. *)
Lemma cycle_from_no_focus_counterexample :
  let fm := FocusManager.new [0; 1]%nat in
  let h := [WInput (Input.new 8); WInput (Input.new 8)] in
  FocusManager.index fm = -1 /\
  FocusManager.index (FocusManager.cycle_n 2 (h, fm) Forward).2 = 1 /\
  FocusManager.index (FocusManager.cycle_n 2 (h, fm) Forward).2
  <> FocusManager.index fm.
Proof. vm_compute. repeat split; discriminate. Qed.

(** C4: a manager over no focusables at all leaves the range
    [-1, N-1] = [-1, -1] on [focusAt]: the clamp yields 0, and the
    manager reports a focus that no child holds. *)
Lemma focusAt_empty_leaves_range :
  let s := FocusManager.focusAt ([] : list widget) (FocusManager.new []) 0 in
  JS.len (FocusManager._focusables s.2) = 0 /\
  FocusManager.index s.2 = 0 /\
  FocusManager.hasFocus s.2 = true /\
  FocusManager.current s.2 = None /\
  ~ (-1 <= FocusManager.index s.2 <= JS.len (FocusManager._focusables s.2) - 1).
Proof. vm_compute. repeat split; try reflexivity. intros [_ Hle]. now apply Hle. Qed.

(** ** Slices inside the bounds are [take] and [drop] *)

Section SliceFacts.
Context {A : Type}.
Implicit Types l : list A.

Lemma rel_index_inside n i : 0 <= i <= n -> JS.rel_index n i = i.
Proof.
  intros Hi. unfold JS.rel_index.
  destruct (Z.ltb_spec i 0); lia.
Qed.

Lemma slice_prefix l c :
  0 <= c <= JS.len l -> JS.slice l 0 c = take (Z.to_nat c) l.
Proof.
  intros Hc. unfold JS.slice.
  rewrite !rel_index_inside by (unfold JS.len in *; lia).
  rewrite Z.sub_0_r. reflexivity.
Qed.

Lemma slice_from_suffix l c :
  0 <= c <= JS.len l -> JS.slice_from l c = drop (Z.to_nat c) l.
Proof.
  intros Hc. unfold JS.slice_from, JS.slice.
  rewrite !rel_index_inside by (unfold JS.len in *; lia).
  apply take_ge. rewrite length_drop. unfold JS.len. lia.
Qed.

(** Past the end, [slice(c)] is empty. *)
Lemma slice_from_beyond l c : JS.len l <= c -> JS.slice_from l c = [].
Proof.
  intros Hc. unfold JS.slice_from, JS.slice, JS.rel_index.
  assert (0 <= JS.len l) by (unfold JS.len; lia).
  destruct (Z.ltb_spec c 0); [lia|].
  destruct (Z.ltb_spec (JS.len l) 0); [lia|].
  rewrite drop_ge; [apply take_nil|]. unfold JS.len in *. lia.
Qed.

(** A slice in the middle: [l.slice(a, b)] for [0 <= a <= b <= len]. *)
Lemma slice_middle l a b :
  0 <= a <= b -> b <= JS.len l ->
  JS.slice l a b = take (Z.to_nat (b - a)) (drop (Z.to_nat a) l).
Proof.
  intros Ha Hb. unfold JS.slice.
  rewrite !rel_index_inside by lia. reflexivity.
Qed.

Lemma len_app l1 l2 : JS.len (l1 ++ l2) = JS.len l1 + JS.len l2.
Proof. unfold JS.len. rewrite length_app. lia. Qed.

Lemma len_nonneg l : 0 <= JS.len l.
Proof. unfold JS.len. lia. Qed.

Lemma len_take l c : 0 <= c <= JS.len l -> JS.len (take (Z.to_nat c) l) = c.
Proof. unfold JS.len. intros Hc. rewrite length_take. lia. Qed.

Lemma len_drop l c :
  0 <= c <= JS.len l -> JS.len (drop (Z.to_nat c) l) = JS.len l - c.
Proof. unfold JS.len. intros Hc. rewrite length_drop. lia. Qed.

End SliceFacts.

(** ** Input *)

Section InputProps.
Import Input.

(** For a printable key none of the name tests of [handleKey] fires. *)
Lemma printable_not_named key ch s :
  printable key ch -> s ∈ reserved -> named key s = false.
Proof.
  intros (_ & _ & _ & Hn) Hs. unfold named.
  apply bool_decide_eq_false_2.
  rewrite Forall_forall in Hn. apply Hn. exact Hs.
Qed.

Lemma printable_single_char key ch :
  printable key ch -> single_char key = Some [ch].
Proof.
  intros (Hs & Hc & Hm & _). unfold single_char.
  rewrite Hs, Hc, Hm. reflexivity.
Qed.

(** Inserting at the cursor. *)
Lemma handleKey_printable i key ch :
  0 <= _cursor i <= JS.len (_value i) ->
  printable key ch ->
  let r := handleKey i key in
  _value r.1
  = take (Z.to_nat (_cursor i)) (_value i) ++ [ch]
    ++ drop (Z.to_nat (_cursor i)) (_value i)
  /\ _cursor r.1 = _cursor i + 1
  /\ r.2 = true.
Proof.
  intros Hc Hp. unfold handleKey.
  rewrite !(printable_not_named key ch) by
    (first [exact Hp | unfold reserved; repeat constructor]).
  simpl. rewrite (printable_single_char key ch Hp). simpl.
  rewrite slice_prefix, slice_from_suffix by exact Hc.
  repeat split.
Qed.

(** The name tests of [handleKey] read [key.name] only: a key with
    one of the reserved names is handled as the bare key of that name,
    whatever characters and modifiers it carries. *)
Lemma input_handleKey_by_name i key s :
  name key = Some s -> s ∈ reserved ->
  handleKey i key = handleKey i (key_named s).
Proof.
  intros Hn Hs. unfold handleKey, named. rewrite Hn.
  unfold reserved in Hs.
  repeat (apply elem_of_cons in Hs; destruct Hs as [-> | Hs]; [reflexivity|]).
  inversion Hs.
Qed.

(** [Backspace] on an empty field changes neither value nor cursor. *)
Lemma handleKey_backspace_empty i key :
  name key = Some "backspace"%string ->
  _value i = [] -> 0 <= _cursor i <= JS.len (_value i) ->
  let r := handleKey i key in
  _value r.1 = [] /\ _cursor r.1 = 0 /\ changes r.1 = changes i.
Proof.
  intros Hn Hv Hc. cbv zeta.
  rewrite (input_handleKey_by_name i key "backspace" Hn)
    by (unfold reserved; repeat constructor).
  rewrite Hv in Hc. change (JS.len []) with 0 in Hc.
  assert (Hc0 : _cursor i = 0) by lia.
  unfold handleKey. cbn -[Z.ltb].
  rewrite Hc0. simpl. rewrite Hv, Hc0. repeat split.
Qed.

Lemma handleKeys_backspace_empty (bs : list Key) i :
  Forall (fun k => name k = Some "backspace"%string) bs ->
  _value i = [] -> 0 <= _cursor i <= JS.len (_value i) ->
  _value (handleKeys i bs) = [] /\
  _cursor (handleKeys i bs) = 0 /\
  changes (handleKeys i bs) = changes i.
Proof.
  revert i. induction bs as [|k bs IH]; intros i Hbs Hv Hc.
  - simpl. rewrite Hv in Hc. change (JS.len []) with 0 in Hc.
    repeat split; [exact Hv | lia].
  - apply Forall_cons in Hbs. destruct Hbs as [Hk Hbs].
    destruct (handleKey_backspace_empty i k Hk Hv Hc) as (Hv' & Hc' & Hch).
    change (handleKeys i (k :: bs)) with (handleKeys (handleKey i k).1 bs).
    destruct (IH (handleKey i k).1 Hbs Hv') as (H1 & H2 & H3).
    + rewrite Hv', Hc'. change (JS.len []) with 0. lia.
    + rewrite H1, H2, H3. repeat split. exact Hch.
Qed.

(** C6: on an [Input] [i] with value [v] and cursor [c], [0 <= c <= |v|],
    a printable single-character key [ch] gives value
    [v[0:c] + ch + v[c:]] and cursor [c + 1]; on an [Input] [j] with an
    empty value, any number of [Backspace] keys leaves the value empty
    and the cursor at 0.  A [Backspace] key is any key event whose name
    is ["backspace"], whatever characters and modifiers it carries (a
    terminal sends the single character DEL with it). *)
Theorem input_insert_and_backspace i key ch j (bs : list Key) :
  0 <= _cursor i <= JS.len (_value i) ->
  printable key ch ->
  _value j = [] ->
  0 <= _cursor j <= JS.len (_value j) ->
  Forall (fun k => name k = Some "backspace"%string) bs ->
  (_value (handleKey i key).1
   = take (Z.to_nat (_cursor i)) (_value i) ++ [ch]
     ++ drop (Z.to_nat (_cursor i)) (_value i)
   /\ _cursor (handleKey i key).1 = _cursor i + 1)
  /\
  (_value (handleKeys j bs) = [] /\ _cursor (handleKeys j bs) = 0).
Proof.
  intros Hc Hp Hv Hj Hbs. split.
  - destruct (handleKey_printable i key ch Hc Hp) as (H1 & H2 & _).
    split; assumption.
  - destruct (handleKeys_backspace_empty bs j Hbs Hv Hj) as (H1 & H2 & _).
    split; assumption.
Qed.

End InputProps.

Lemma input_insert_and_backspace_witness :
  let i := Input.mk 10 (JS.of_string "ac") 1 ScrollState.new true [] in
  let j := Input.new 10 in
  let bs := replicate 3 key_backspace in
  (0 <= Input._cursor i <= JS.len (Input._value i)) /\
  Input.printable (key_char "b") "b" /\
  Forall (fun k => name k = Some "backspace"%string) bs /\
  single_char key_backspace = Some [Ascii.ascii_of_nat 127] /\
  (Input._value (Input.handleKey i (key_char "b")).1 = JS.of_string "abc"
   /\ Input._cursor (Input.handleKey i (key_char "b")).1 = 2) /\
  (Input._value (Input.handleKeys j bs) = []
   /\ Input._cursor (Input.handleKeys j bs) = 0).
Proof.
  intros i j bs.
  assert (Hc : 0 <= Input._cursor i <= JS.len (Input._value i))
    by (vm_compute; split; discriminate).
  assert (Hp : Input.printable (key_char "b") "b")
    by (repeat split; repeat constructor; discriminate).
  assert (Hj : 0 <= Input._cursor j <= JS.len (Input._value j))
    by (vm_compute; split; discriminate).
  assert (Hbs : Forall (fun k => name k = Some "backspace"%string) bs)
    by (repeat constructor).
  split; [exact Hc|]. split; [exact Hp|]. split; [exact Hbs|].
  split; [reflexivity|].
  exact (input_insert_and_backspace i (key_char "b") "b" j bs
           Hc Hp eq_refl Hj Hbs).
Defined.

(** ** Array accesses inside the bounds *)

Section ArrayFacts.
Context {A : Type}.
Implicit Types l : list A.

Lemma get_inside l i : 0 <= i -> JS.get l i = l !! Z.to_nat i.
Proof. intros Hi. unfold JS.get. destruct (Z.ltb_spec i 0); [lia|reflexivity]. Qed.

Lemma get_negative l i : i < 0 -> JS.get l i = None.
Proof. intros Hi. unfold JS.get. destruct (Z.ltb_spec i 0); [reflexivity|lia]. Qed.

Lemma get_Some_range l i x : JS.get l i = Some x -> 0 <= i < JS.len l.
Proof.
  unfold JS.get, JS.len. destruct (Z.ltb_spec i 0); [discriminate|].
  intros Hx. apply lookup_lt_Some in Hx. lia.
Qed.

Lemma lookup_len l (i : nat) x : l !! i = Some x -> Z.of_nat i < JS.len l.
Proof. intros Hx. apply lookup_lt_Some in Hx. unfold JS.len. lia. Qed.

Lemma lookup_inside l (r : Z) :
  0 <= r < JS.len l -> exists x, l !! Z.to_nat r = Some x.
Proof. intros Hr. apply lookup_lt_is_Some. unfold JS.len in Hr. lia. Qed.

Lemma len_insert l (i : nat) x : JS.len (<[i := x]> l) = JS.len l.
Proof. unfold JS.len. rewrite length_insert. reflexivity. Qed.

Lemma set_inside hole l i v :
  0 <= i < JS.len l -> JS.set hole l i v = <[Z.to_nat i := v]> l.
Proof.
  intros Hi. unfold JS.set.
  destruct (Z.ltb_spec i 0); [lia|].
  destruct (Z.ltb_spec i (JS.len l)); [reflexivity|lia].
Qed.

Lemma splice_insert l i items :
  0 <= i <= JS.len l ->
  JS.splice l i 0 items = take (Z.to_nat i) l ++ items ++ drop (Z.to_nat i) l.
Proof.
  intros Hi. unfold JS.splice. rewrite rel_index_inside by exact Hi.
  replace (i + Z.min (Z.max 0 0) (JS.len l - i)) with i by lia.
  reflexivity.
Qed.

Lemma splice_delete_one l i :
  0 <= i < JS.len l ->
  JS.splice l i 1 [] = take (Z.to_nat i) l ++ drop (S (Z.to_nat i)) l.
Proof.
  intros Hi. unfold JS.splice. rewrite rel_index_inside by lia.
  replace (i + Z.min (Z.max 1 0) (JS.len l - i)) with (i + 1) by lia.
  replace (Z.to_nat (i + 1)) with (S (Z.to_nat i)) by lia.
  reflexivity.
Qed.

End ArrayFacts.

(** ** Textarea *)

Section TextareaProps.
Import Textarea.

Lemma currentLine_at t0 line :
  _lines t0 !! Z.to_nat (_cursorRow t0) = Some line -> 0 <= _cursorRow t0 ->
  _currentLine t0 = line.
Proof.
  intros Hl Hr. unfold _currentLine. rewrite get_inside by exact Hr.
  rewrite Hl. reflexivity.
Qed.

Lemma cursor_ok_intro t0 line :
  _lines t0 !! Z.to_nat (_cursorRow t0) = Some line ->
  0 <= _cursorRow t0 ->
  0 <= _cursorCol t0 <= JS.len line ->
  cursor_ok t0.
Proof.
  intros Hl Hr Hc. pose proof (lookup_len _ _ _ Hl) as Hlt.
  split; [|split].
  - intros E. rewrite E in Hl. discriminate.
  - lia.
  - exists line. rewrite get_inside by exact Hr. split; assumption.
Qed.

Lemma cursor_ok_elim t0 :
  cursor_ok t0 ->
  exists line,
    _lines t0 !! Z.to_nat (_cursorRow t0) = Some line /\
    0 <= _cursorRow t0 < JS.len (_lines t0) /\
    0 <= _cursorCol t0 <= JS.len line /\
    _currentLine t0 = line.
Proof.
  intros (_ & Hr & line & Hl & Hc). exists line.
  rewrite get_inside in Hl by lia.
  repeat split; try assumption; try lia.
  apply currentLine_at; [exact Hl|lia].
Qed.


Ltac open_inv H :=
  apply cursor_ok_elim in H as (line & Hl & Hr & Hc & Hcur).

Lemma moveCursorLeft_ok t0 : cursor_ok t0 -> cursor_ok (_moveCursorLeft t0).
Proof.
  intros H. pose proof H as H0. open_inv H. unfold _moveCursorLeft.
  destruct (Z.ltb_spec 0 (_cursorCol t0)).
  - apply (cursor_ok_intro _ line); simpl; [exact Hl|lia|lia].
  - destruct (Z.ltb_spec 0 (_cursorRow t0)); [|exact H0].
    destruct (lookup_inside (_lines t0) (_cursorRow t0 - 1)) as [prev Hp]; [lia|].
    apply (cursor_ok_intro _ prev); simpl; [exact Hp|lia|].
    rewrite (currentLine_at _ prev); simpl; [|exact Hp|lia].
    pose proof (len_nonneg prev). lia.
Qed.

Lemma moveCursorRight_ok t0 : cursor_ok t0 -> cursor_ok (_moveCursorRight t0).
Proof.
  intros H. pose proof H as H0. open_inv H. unfold _moveCursorRight.
  rewrite Hcur.
  destruct (Z.ltb_spec (_cursorCol t0) (JS.len line)).
  - apply (cursor_ok_intro _ line); simpl; [exact Hl|lia|lia].
  - destruct (Z.ltb_spec (_cursorRow t0) (JS.len (_lines t0) - 1)); [|exact H0].
    destruct (lookup_inside (_lines t0) (_cursorRow t0 + 1)) as [next Hn]; [lia|].
    apply (cursor_ok_intro _ next); simpl; [exact Hn|lia|].
    pose proof (len_nonneg next). lia.
Qed.

Lemma moveCursorUp_ok t0 : cursor_ok t0 -> cursor_ok (_moveCursorUp t0).
Proof.
  intros H. pose proof H as H0. open_inv H. unfold _moveCursorUp.
  destruct (Z.ltb_spec 0 (_cursorRow t0)); [|exact H0].
  destruct (lookup_inside (_lines t0) (_cursorRow t0 - 1)) as [prev Hp]; [lia|].
  apply (cursor_ok_intro _ prev); simpl; [exact Hp|lia|].
  rewrite (currentLine_at _ prev); simpl; [|exact Hp|lia].
  pose proof (len_nonneg prev). lia.
Qed.

Lemma moveCursorDown_ok t0 : cursor_ok t0 -> cursor_ok (_moveCursorDown t0).
Proof.
  intros H. pose proof H as H0. open_inv H. unfold _moveCursorDown.
  destruct (Z.ltb_spec (_cursorRow t0) (JS.len (_lines t0) - 1)); [|exact H0].
  destruct (lookup_inside (_lines t0) (_cursorRow t0 + 1)) as [next Hn]; [lia|].
  apply (cursor_ok_intro _ next); simpl; [exact Hn|lia|].
  rewrite (currentLine_at _ next); simpl; [|exact Hn|lia].
  pose proof (len_nonneg next). lia.
Qed.

Lemma home_ok t0 key : cursor_ok t0 -> cursor_ok (home t0 key).
Proof.
  intros H. open_inv H. unfold home. destruct (ctrl key).
  - destruct (lookup_inside (_lines t0) 0) as [first Hf]; [lia|].
    apply (cursor_ok_intro _ first); simpl; [exact Hf|lia|].
    pose proof (len_nonneg first). lia.
  - apply (cursor_ok_intro _ line); simpl; [exact Hl|lia|lia].
Qed.

Lemma end_ok t0 key : cursor_ok t0 -> cursor_ok (end_ t0 key).
Proof.
  intros H. open_inv H. unfold end_. destruct (ctrl key).
  - destruct (lookup_inside (_lines t0) (JS.len (_lines t0) - 1)) as [last Hf]; [lia|].
    apply (cursor_ok_intro _ last); simpl; [exact Hf|lia|].
    rewrite (currentLine_at _ last); simpl; [|exact Hf|lia].
    pose proof (len_nonneg last). lia.
  - apply (cursor_ok_intro _ line); simpl; [exact Hl|lia|].
    rewrite Hcur. lia.
Qed.

Lemma insertChar_ok t0 ch :
  1 <= JS.len ch -> cursor_ok t0 -> cursor_ok (_insertChar t0 ch).
Proof.
  intros Hch H. open_inv H. unfold _insertChar, set_line.
  rewrite Hcur, set_inside by exact Hr.
  eapply cursor_ok_intro; simpl.
  - apply list_lookup_insert_eq. apply lookup_lt_Some in Hl. exact Hl.
  - lia.
  - rewrite slice_prefix, slice_from_suffix by exact Hc.
    rewrite !len_app, len_take, len_drop by exact Hc. lia.
Qed.

(** What [Return] does to the lines and the cursor. *)
Lemma insertNewline_spec t0 line :
  _lines t0 !! Z.to_nat (_cursorRow t0) = Some line ->
  0 <= _cursorRow t0 ->
  0 <= _cursorCol t0 <= JS.len line ->
  _lines (_insertNewline t0)
  = take (Z.to_nat (_cursorRow t0)) (_lines t0)
    ++ [take (Z.to_nat (_cursorCol t0)) line;
        drop (Z.to_nat (_cursorCol t0)) line]
    ++ drop (S (Z.to_nat (_cursorRow t0))) (_lines t0)
  /\ _cursorRow (_insertNewline t0) = _cursorRow t0 + 1
  /\ _cursorCol (_insertNewline t0) = 0.
Proof.
  intros Hl Hr Hc. pose proof (lookup_len _ _ _ Hl) as Hlt.
  pose proof (lookup_lt_Some _ _ _ Hl) as Hn.
  unfold _insertNewline, set_line.
  rewrite (currentLine_at t0 line Hl Hr).
  rewrite set_inside by lia. simpl.
  split; [|split; reflexivity].
  rewrite splice_insert by (rewrite len_insert; lia).
  rewrite slice_prefix, slice_from_suffix by exact Hc.
  replace (Z.to_nat (_cursorRow t0 + 1)) with (S (Z.to_nat (_cursorRow t0)))
    by lia.
  rewrite (take_S_r _ _ (take (Z.to_nat (_cursorCol t0)) line))
    by (apply list_lookup_insert_eq; exact Hn).
  rewrite take_insert_ge by lia.
  rewrite drop_insert_lt by lia.
  rewrite <- app_assoc. reflexivity.
Qed.

Lemma insertNewline_ok t0 : cursor_ok t0 -> cursor_ok (_insertNewline t0).
Proof.
  intros H. open_inv H.
  destruct (insertNewline_spec t0 line Hl) as (Hls & Hrow & Hcol);
    [lia|exact Hc|].
  apply (cursor_ok_intro _ (drop (Z.to_nat (_cursorCol t0)) line)).
  - rewrite Hls, Hrow.
    replace (Z.to_nat (_cursorRow t0 + 1)) with
      (length (take (Z.to_nat (_cursorRow t0)) (_lines t0)) + 1)%nat.
    + rewrite lookup_app_r by lia.
      replace (_ + 1 - _)%nat with 1%nat by lia. reflexivity.
    + apply lookup_lt_Some in Hl. rewrite length_take. lia.
  - lia.
  - rewrite Hcol. pose proof (len_nonneg (drop (Z.to_nat (_cursorCol t0)) line)).
    lia.
Qed.

Lemma deleteBackward_ok t0 : cursor_ok t0 -> cursor_ok (_deleteBackward t0).
Proof.
  intros H. pose proof H as H0. open_inv H.
  pose proof (lookup_lt_Some _ _ _ Hl) as Hn.
  unfold _deleteBackward, set_line.
  destruct (Z.ltb_spec 0 (_cursorCol t0)).
  - rewrite Hcur, set_inside by exact Hr.
    eapply cursor_ok_intro; simpl.
    + apply list_lookup_insert_eq. exact Hn.
    + lia.
    + rewrite slice_middle, slice_from_suffix by lia.
      rewrite Z.sub_0_r, drop_0.
      rewrite !len_app, len_take, len_drop by lia. lia.
  - destruct (Z.ltb_spec 0 (_cursorRow t0)); [|exact H0].
    destruct (lookup_inside (_lines t0) (_cursorRow t0 - 1)) as [prev Hp]; [lia|].
    rewrite get_inside by lia. rewrite Hp. simpl.
    rewrite (currentLine_at _ line) by (simpl; first [exact Hl | lia]).
    rewrite set_inside by lia.
    rewrite splice_delete_one by (rewrite len_insert; lia).
    apply (cursor_ok_intro _ (prev ++ line)); simpl.
    + rewrite lookup_app_l
        by (rewrite length_take, length_insert; lia).
      rewrite lookup_take_lt by lia.
      apply list_lookup_insert_eq. lia.
    + lia.
    + rewrite len_app. pose proof (len_nonneg prev). pose proof (len_nonneg line).
      lia.
Qed.

Lemma deleteForward_ok t0 : cursor_ok t0 -> cursor_ok (_deleteForward t0).
Proof.
  intros H. pose proof H as H0. open_inv H.
  pose proof (lookup_lt_Some _ _ _ Hl) as Hn.
  unfold _deleteForward, set_line. rewrite Hcur.
  destruct (Z.ltb_spec (_cursorCol t0) (JS.len line)).
  - rewrite set_inside by exact Hr.
    eapply cursor_ok_intro; simpl.
    + apply list_lookup_insert_eq. exact Hn.
    + lia.
    + rewrite slice_prefix, slice_from_suffix by lia.
      rewrite !len_app, len_take, len_drop by lia. lia.
  - destruct (Z.ltb_spec (_cursorRow t0) (JS.len (_lines t0) - 1)); [|exact H0].
    rewrite set_inside by lia. simpl.
    rewrite splice_delete_one by (rewrite len_insert; lia).
    eapply cursor_ok_intro; simpl.
    + rewrite lookup_app_l
        by (rewrite length_take, length_insert; unfold JS.len in *; lia).
      rewrite lookup_take_lt by lia.
      apply list_lookup_insert_eq. exact Hn.
    + lia.
    + rewrite len_app.
      pose proof (len_nonneg (JS.nullish (JS.get (_lines t0) (_cursorRow t0 + 1)) [])).
      lia.
Qed.

Lemma clampScroll_ok t0 : cursor_ok t0 -> cursor_ok (_clampScroll t0).
Proof. intros H. exact H. Qed.

Lemma notify_ok t0 : cursor_ok t0 -> cursor_ok (notify t0).
Proof. intros H. exact H. Qed.

Lemma single_char_len key ch : single_char key = Some ch -> JS.len ch = 1.
Proof.
  unfold single_char. destruct (sequence key) as [s|]; [|discriminate].
  destruct (Z.eqb_spec (JS.len s) 1) as [E|E].
  - case_match; [|discriminate]. intros [= <-]. exact E.
  - rewrite andb_false_r. discriminate.
Qed.

(** One key keeps the invariant. *)
Lemma handleKey_ok t0 key : cursor_ok t0 -> cursor_ok (handleKey t0 key).1.
Proof.
  intros H. unfold handleKey.
  repeat (case_match; simpl;
          try first [ exact H
                    | apply clampScroll_ok ]).
  - now apply moveCursorLeft_ok.
  - now apply moveCursorRight_ok.
  - now apply moveCursorUp_ok.
  - now apply moveCursorDown_ok.
  - now apply home_ok.
  - now apply end_ok.
  - now apply notify_ok, deleteBackward_ok.
  - now apply notify_ok, deleteForward_ok.
  - now apply notify_ok, insertNewline_ok.
  - apply notify_ok, insertChar_ok; [|exact H].
    erewrite single_char_len by eassumption. lia.
Qed.

(** [split] never returns an empty array. *)
Lemma split_on_nonempty sep s : JS.split_on sep s <> [].
Proof.
  destruct s as [|c s]; simpl; [discriminate|].
  destruct (Ascii.eqb c sep); [discriminate|].
  destruct (JS.split_on sep s); discriminate.
Qed.

(** The constructor establishes the invariant. *)
Lemma new_ok w h init : cursor_ok (new w h init).
Proof.
  assert (Hne : lines_of init <> []).
  { unfold lines_of. case_match; [apply split_on_nonempty|discriminate]. }
  destruct (lines_of init) as [|first rest] eqn:E; [contradiction|].
  apply (cursor_ok_intro _ first); unfold new; rewrite E; simpl.
  - reflexivity.
  - lia.
  - pose proof (len_nonneg first). lia.
Qed.

(** The name tests of [handleKey] for a key whose name is known. *)
Lemma named_known key s s' :
  name key = Some s' -> named key s = bool_decide (s' = s).
Proof.
  intros Hn. unfold named. rewrite Hn.
  apply bool_decide_ext. split; [intros [= ->]|intros ->]; reflexivity.
Qed.

(** C1: a [Textarea] built by the constructor and fed any sequence of
    keys through [handleKey] keeps its cursor invariant: the list of
    lines is not empty, [0 <= cursorRow < number of lines], and
    [0 <= cursorCol <= length of the line at cursorRow]. *)
Theorem textarea_cursor_invariant w h init keys :
  let t1 := handleKeys (new w h init) keys in
  _lines t1 <> [] /\
  0 <= _cursorRow t1 < JS.len (_lines t1) /\
  exists line,
    JS.get (_lines t1) (_cursorRow t1) = Some line /\
    0 <= _cursorCol t1 <= JS.len line.
Proof.
  assert (Hreach : cursor_ok (handleKeys (new w h init) keys)).
  { generalize (new_ok w h init). generalize (new w h init).
    induction keys as [|k keys IH]; intros t0 Hok; [exact Hok|].
    apply (IH (handleKey t0 k).1). now apply handleKey_ok. }
  exact Hreach.
Qed.

(** C7: with the cursor at [(row, col)] on the line [line], the
    [Return] key replaces that line by [line[0:col]], inserts
    [line[col:]] as a new line right after it, and moves the cursor to
    [(row + 1, 0)]. *)
Theorem return_splits_line t0 key line :
  name key = Some "return"%string ->
  JS.get (_lines t0) (_cursorRow t0) = Some line ->
  0 <= _cursorCol t0 <= JS.len line ->
  let t1 := (handleKey t0 key).1 in
  _lines t1
  = take (Z.to_nat (_cursorRow t0)) (_lines t0)
    ++ [take (Z.to_nat (_cursorCol t0)) line;
        drop (Z.to_nat (_cursorCol t0)) line]
    ++ drop (S (Z.to_nat (_cursorRow t0))) (_lines t0)
  /\ _cursorRow t1 = _cursorRow t0 + 1
  /\ _cursorCol t1 = 0.
Proof.
  intros Hn Hl Hc. pose proof (get_Some_range _ _ _ Hl) as Hr.
  rewrite get_inside in Hl by lia.
  unfold handleKey. rewrite !(named_known key _ _ Hn).
  repeat (rewrite bool_decide_eq_false_2 by discriminate).
  rewrite bool_decide_eq_true_2 by reflexivity.
  cbn [orb fst].
  apply (insertNewline_spec t0 line Hl); [lia|exact Hc].
Qed.

End TextareaProps.

Lemma return_splits_line_witness :
  let t0 := Textarea.mk 12 5 [JS.of_string "hello"; JS.of_string "x"] 0 2
              ScrollState.new true [] in
  let t1 := (Textarea.handleKey t0 (key_named "return")).1 in
  JS.get (Textarea._lines t0) (Textarea._cursorRow t0)
  = Some (JS.of_string "hello") /\
  0 <= Textarea._cursorCol t0 <= JS.len (JS.of_string "hello") /\
  Textarea._lines t1
  = [JS.of_string "he"; JS.of_string "llo"; JS.of_string "x"] /\
  Textarea._cursorRow t1 = 1 /\
  Textarea._cursorCol t1 = 0.
Proof.
  intros t0 t1.
  assert (Hc : 0 <= Textarea._cursorCol t0 <= JS.len (JS.of_string "hello"))
    by (vm_compute; split; discriminate).
  split; [reflexivity|]. split; [exact Hc|].
  exact (return_splits_line t0 (key_named "return") (JS.of_string "hello")
           eq_refl eq_refl Hc).
Defined.

(** ** Container *)

Section ContainerProps.
Context {W : Type} `{IDimensional W, IFocusTarget W, IKeyConsumer W}.
Import Container.

(** The running sum of the row counts, started at [a]. *)
Lemma rows_from (l : list W) (a : Z) :
  fold_left (fun s w => s + lineCount w) l a
  = a + fold_left (fun s w => s + lineCount w) l 0.
Proof.
  revert a. induction l as [|w l IH]; intros a; simpl; [lia|].
  rewrite (IH (a + lineCount w)), (IH (0 + lineCount w)). lia.
Qed.

(** The loop of [_scrollToFocused] stops at the focused child with the
    rows of the children before it summed up. *)
Lemma scan_finds (c : t W) (rest : list W) :
  forall (target pos : nat) (off : Z) (child : W),
    (pos <= target)%nat ->
    rest !! (target - pos)%nat = Some child ->
    scan c target pos rest off
    = scroll_to c
        (off + fold_left (fun s w => s + lineCount w)
                 (take (target - pos) rest) 0)
        (JS.nullish (activeLineHint child) 0).
Proof.
  induction rest as [|w rest IH]; intros target pos off child Hle Hl.
  - discriminate.
  - simpl. destruct (Nat.eqb_spec pos target) as [->|Hne].
    + rewrite Nat.sub_diag in *. simpl in *. injection Hl as ->.
      rewrite Z.add_0_r. reflexivity.
    + replace (target - pos)%nat with (S (target - S pos)) in * by lia.
      simpl in Hl. rewrite (IH target (S pos) _ child) by (lia || exact Hl).
      simpl. rewrite (rows_from _ (0 + lineCount w)). f_equal. lia.
Qed.

Lemma scrollToFocused_spec (c : t W) (target : nat) (child : W) :
  FocusManager.current (_focus c) = Some target ->
  children c !! target = Some child ->
  _scrollToFocused c
  = scroll_to c (offset_of c target) (JS.nullish (activeLineHint child) 0).
Proof.
  intros Hcur Hch. unfold _scrollToFocused. rewrite Hcur.
  rewrite (scan_finds c (children c) target 0 0 child);
    [|lia|rewrite Nat.sub_0_r; exact Hch].
  rewrite Nat.sub_0_r. reflexivity.
Qed.

Lemma maxScrollY_nonneg (c : t W) : 0 <= _maxScrollY c.
Proof. unfold _maxScrollY. lia. Qed.

(** The vertical offset after the auto-scroll step, in general: with
    [target = offset + hint], scroll up to [min(target, offset)] when
    the target is above the viewport, down to
    [min(target - ih + 1, offset)] when it is at or below its end, both
    clamped into [0, maxScrollY]. *)
Lemma scrollToFocused_y (c : t W) (target : nat) (child : W) :
  FocusManager.current (_focus c) = Some target ->
  children c !! target = Some child ->
  let off := offset_of c target in
  let line := off + JS.nullish (activeLineHint child) 0 in
  let y := ScrollState.y (_scroll c) in
  ScrollState.y (_scroll (_scrollToFocused c))
  = if line <? y then Z.max 0 (Z.min (Z.min line off) (_maxScrollY c))
    else if y + ih c <=? line
         then Z.max 0 (Z.min (Z.min (line - ih c + 1) off) (_maxScrollY c))
         else y.
Proof.
  intros Hcur Hch off line y.
  rewrite (scrollToFocused_spec c target child Hcur Hch).
  unfold scroll_to. fold off. fold line. fold y.
  destruct (line <? y); [reflexivity|].
  destruct (y + ih c <=? line); reflexivity.
Qed.

(** C2 (amended): in a panel with viewport height 5 whose focused child
    has cumulative row offset 10 and active-line hint 0, the auto-scroll
    step sets [scrollY] to [min(10, maxScrollY)] when the child lay above
    the viewport ([scrollY > 10]), to [min(6, maxScrollY)] when it lay
    below ([scrollY + 5 <= 10]), and leaves it alone otherwise. *)
Theorem scrollToFocused_viewport5_offset10 (c : t W) (target : nat) (child : W) :
  ih c = 5 ->
  FocusManager.current (_focus c) = Some target ->
  children c !! target = Some child ->
  offset_of c target = 10 ->
  JS.nullish (activeLineHint child) 0 = 0 ->
  ScrollState.y (_scroll (_scrollToFocused c))
  = if 10 <? ScrollState.y (_scroll c) then Z.min 10 (_maxScrollY c)
    else if ScrollState.y (_scroll c) + 5 <=? 10 then Z.min 6 (_maxScrollY c)
    else ScrollState.y (_scroll c).
Proof.
  intros Hih Hcur Hch Hoff Hhint.
  rewrite (scrollToFocused_y c target child Hcur Hch), Hoff, Hhint, Hih.
  rewrite Z.add_0_r.
  pose proof (maxScrollY_nonneg c).
  destruct (Z.ltb_spec 10 (ScrollState.y (_scroll c))); [lia|].
  destruct (Z.leb_spec (ScrollState.y (_scroll c) + 5) 10); [lia|].
  reflexivity.
Qed.

(** The scroll-down case on its own: the step lands on
    [10 - 5 + 1 = 6] when the child lay below the viewport and the
    content is long enough to scroll there. *)
Lemma scrollToFocused_from_below (c : t W) (target : nat) (child : W) :
  ih c = 5 ->
  FocusManager.current (_focus c) = Some target ->
  children c !! target = Some child ->
  offset_of c target = 10 ->
  JS.nullish (activeLineHint child) 0 = 0 ->
  ScrollState.y (_scroll c) + 5 <= 10 ->
  6 <= _maxScrollY c ->
  ScrollState.y (_scroll (_scrollToFocused c)) = 6.
Proof.
  intros Hih Hcur Hch Hoff Hhint Hy Hmax.
  rewrite (scrollToFocused_y c target child Hcur Hch), Hoff, Hhint, Hih.
  rewrite Z.add_0_r.
  destruct (Z.ltb_spec 10 (ScrollState.y (_scroll c))); [lia|].
  destruct (Z.leb_spec (ScrollState.y (_scroll c) + 5) 10); lia.
Qed.

(** The scroll-up case on its own: the step lands on the child's own
    row 10 when the child lay above the viewport. *)
Lemma scrollToFocused_from_above (c : t W) (target : nat) (child : W) :
  ih c = 5 ->
  FocusManager.current (_focus c) = Some target ->
  children c !! target = Some child ->
  offset_of c target = 10 ->
  JS.nullish (activeLineHint child) 0 = 0 ->
  10 < ScrollState.y (_scroll c) ->
  10 <= _maxScrollY c ->
  ScrollState.y (_scroll (_scrollToFocused c)) = 10.
Proof.
  intros Hih Hcur Hch Hoff Hhint Hy Hmax.
  rewrite (scrollToFocused_y c target child Hcur Hch), Hoff, Hhint, Hih.
  rewrite Z.add_0_r.
  destruct (Z.ltb_spec 10 (ScrollState.y (_scroll c))); lia.
Qed.

End ContainerProps.

Lemma scrollToFocused_viewport5_offset10_witness :
  let c := Container.mk 32 8 demo_children StFocus (ScrollState.mk 0 0)
             (FocusManager.mk 0 [10; 21]%nat) in
  Container.ih c = 5 /\
  FocusManager.current (Container._focus c) = Some 10%nat /\
  Container.children c !! 10%nat = Some (WInput (Input.new 24)) /\
  Container.offset_of c 10 = 10 /\
  JS.nullish (activeLineHint (WInput (Input.new 24))) 0 = 0 /\
  ScrollState.y (Container._scroll (Container._scrollToFocused c)) = 6.
Proof.
  intros c.
  repeat (split; [reflexivity|]).
  exact (scrollToFocused_viewport5_offset10 c 10 (WInput (Input.new 24))
           eq_refl eq_refl eq_refl eq_refl eq_refl).
Defined.

(** C2 as stated fails when the focused child lay above the viewport.
    In the sample panel, [Return] focuses the first text field and
    scrolls to 6, [Tab] moves on to the second one and scrolls to 17,
    and the next [Tab] comes back to the first one: the viewport shows
    rows 17 to 21, the child sits at row 10 above it, and the auto-scroll
    step puts [scrollY] on the child's own row, 10, not on 6. *)
Lemma scrollToFocused_from_above_counterexample :
  let c := Container.handleKeys demo_panel
             [key_named "return"; key_named "tab"] in
  let c' := Container.with_focus c
              (FocusManager.cycle (Container.children c) (Container._focus c)
                 Forward) in
  Container.ih c' = 5 /\
  FocusManager.current (Container._focus c') = Some 10%nat /\
  Container.offset_of c' 10 = 10 /\
  (child ← Container.children c' !! 10%nat; activeLineHint child) = None /\
  ScrollState.y (Container._scroll c') = 17 /\
  Container.handleKey c (key_named "tab") = Container._scrollToFocused c' /\
  ScrollState.y (Container._scroll (Container._scrollToFocused c')) = 10 /\
  ScrollState.y (Container._scroll (Container._scrollToFocused c')) <> 6.
Proof. vm_compute. repeat split; discriminate. Qed.

(** ** Writes into a two-dimensional buffer *)

Section BufferFacts.
Context {A : Type}.
Implicit Types (l : list A) (buf : list (list A)).

(** After [a[i] = v] the element at [i] is [v]. *)
Lemma get_set_same hole l i v : 0 <= i -> JS.get (JS.set hole l i v) i = Some v.
Proof.
  intros Hi. unfold JS.set. destruct (Z.ltb_spec i 0); [lia|].
  rewrite get_inside by exact Hi.
  destruct (Z.ltb_spec i (JS.len l)).
  - apply list_lookup_insert_eq. unfold JS.len in *. lia.
  - unfold JS.len in *. rewrite lookup_app_r by lia.
    rewrite lookup_app_r by (rewrite length_replicate; lia).
    rewrite length_replicate.
    replace (_ - _ - _)%nat with 0%nat by lia. reflexivity.
Qed.

(** Every other index reads as before; an index that the write brought
    into the array as a hole read as [undefined] before. *)
Lemma get_set_other hole l i j v :
  i <> j ->
  JS.nullish (JS.get (JS.set hole l i v) j) hole = JS.nullish (JS.get l j) hole.
Proof.
  intros Hne. unfold JS.set. destruct (Z.ltb_spec i 0); [reflexivity|].
  unfold JS.get. destruct (Z.ltb_spec j 0); [destruct (i <? JS.len l); reflexivity|].
  destruct (Z.ltb_spec i (JS.len l)).
  - rewrite list_lookup_insert_ne by lia. reflexivity.
  - unfold JS.len in *.
    destruct (decide (Z.to_nat j < length l)%nat) as [Hj|Hj].
    + rewrite lookup_app_l by exact Hj. reflexivity.
    + rewrite (lookup_ge_None_2 l) by lia.
      rewrite lookup_app_r by lia.
      destruct (decide (Z.to_nat j - length l < Z.to_nat i - length l)%nat) as [Hk|Hk].
      * rewrite lookup_app_l by (rewrite length_replicate; exact Hk).
        rewrite lookup_replicate_2 by exact Hk. reflexivity.
      * rewrite lookup_app_r by (rewrite length_replicate; lia).
        rewrite length_replicate.
        rewrite lookup_ge_None_2 by (simpl; lia). reflexivity.
Qed.

Lemma at2_set_at_same hole buf px py v buf' :
  0 <= px ->
  BrailleCanvas.set_at hole buf px py v = Ok buf' ->
  BrailleCanvas.at2 hole buf' px py = v.
Proof.
  intros Hpx. unfold BrailleCanvas.set_at, BrailleCanvas.at2.
  destruct (JS.get buf py) as [row|] eqn:Hrow; [|discriminate].
  intros [= <-]. pose proof (get_Some_range _ _ _ Hrow) as Hpy.
  rewrite get_inside by lia.
  rewrite list_lookup_insert_eq by (unfold JS.len in Hpy; lia).
  simpl. rewrite get_set_same by exact Hpx. reflexivity.
Qed.

Lemma at2_set_at_other hole buf px py v buf' px' py' :
  (px', py') <> (px, py) ->
  BrailleCanvas.set_at hole buf px py v = Ok buf' ->
  BrailleCanvas.at2 hole buf' px' py' = BrailleCanvas.at2 hole buf px' py'.
Proof.
  intros Hne. unfold BrailleCanvas.set_at, BrailleCanvas.at2.
  destruct (JS.get buf py) as [row|] eqn:Hrow; [|discriminate].
  intros [= <-]. pose proof (get_Some_range _ _ _ Hrow) as Hpy.
  destruct (Z.ltb_spec py' 0) as [Hneg|Hpos].
  { rewrite !(get_negative _ py') by exact Hneg. reflexivity. }
  rewrite !(get_inside _ py') by exact Hpos.
  destruct (Z.eq_dec py' py) as [->|Hy].
  - rewrite list_lookup_insert_eq by (unfold JS.len in Hpy; lia).
    rewrite get_inside in Hrow by lia. rewrite Hrow. simpl.
    apply get_set_other. intros ->. now apply Hne.
  - rewrite list_lookup_insert_ne by lia. reflexivity.
Qed.

End BufferFacts.

(** ** BrailleCanvas *)

Section CanvasProps.
Import BrailleCanvas.

(** The guard of [setPixel]. *)
Lemma setPixel_outside cv px py color :
  px < 0 \/ pixelWidth cv <= px \/ py < 0 \/ pixelHeight cv <= py ->
  setPixel cv px py color = Ok cv.
Proof.
  intros Hout. unfold setPixel.
  destruct (Z.ltb_spec px 0); [reflexivity|].
  destruct (Z.leb_spec (pixelWidth cv) px); [reflexivity|].
  destruct (Z.ltb_spec py 0); [reflexivity|].
  destruct (Z.leb_spec (pixelHeight cv) py); [reflexivity|].
  lia.
Qed.

(** A successful [setPixel] either did nothing (outside) or wrote both
    buffers at [(px, py)]. *)
Lemma setPixel_Ok cv px py color cv' :
  setPixel cv px py color = Ok cv' ->
  cv' = cv \/
  (0 <= px /\ 0 <= py /\
   set_at false (pixels cv) px py true = Ok (pixels cv') /\
   set_at None (colors cv) px py color = Ok (colors cv')).
Proof.
  unfold setPixel.
  destruct (Z.ltb_spec px 0); [intros [= <-]; now left|].
  destruct (Z.leb_spec (pixelWidth cv) px); [intros [= <-]; now left|].
  destruct (Z.ltb_spec py 0); [intros [= <-]; now left|].
  destruct (Z.leb_spec (pixelHeight cv) py); [intros [= <-]; now left|].
  simpl.
  destruct (set_at false (pixels cv) px py true) as [ps| | |]; try discriminate.
  destruct (set_at None (colors cv) px py color) as [cs| | |]; try discriminate.
  simpl. intros [= <-]. right. simpl. auto.
Qed.

(** [setPixel] leaves every other sub-pixel as it reads. *)
Lemma setPixel_other cv px py color cv' px' py' :
  setPixel cv px py color = Ok cv' ->
  (px', py') <> (px, py) ->
  pixel_at cv' px' py' = pixel_at cv px' py' /\
  color_at cv' px' py' = color_at cv px' py'.
Proof.
  intros Hset Hne.
  destruct (setPixel_Ok _ _ _ _ _ Hset) as [->|(_ & _ & Hp & Hc)]; [now split|].
  unfold pixel_at, color_at.
  rewrite (at2_set_at_other _ _ _ _ _ _ _ _ Hne Hp).
  rewrite (at2_set_at_other _ _ _ _ _ _ _ _ Hne Hc).
  now split.
Qed.

(** [setPixel] never clears a sub-pixel. *)
Lemma setPixel_keeps_set cv px py color cv' px' py' :
  setPixel cv px py color = Ok cv' ->
  pixel_at cv px' py' = true -> pixel_at cv' px' py' = true.
Proof.
  intros Hset Hp.
  destruct (decide ((px', py') = (px, py))) as [[= -> ->]|Hne].
  - destruct (setPixel_Ok _ _ _ _ _ Hset) as [->|(Hx & _ & Hs & _)]; [exact Hp|].
    unfold pixel_at. apply (at2_set_at_same _ _ _ _ _ _ Hx Hs).
  - destruct (setPixel_other _ _ _ _ _ _ _ Hset Hne) as [-> _]. exact Hp.
Qed.

(** The loop of [getCell] from any loop state: the bits of the set
    sub-pixels are or-ed in, and the color is fixed by the first set
    sub-pixel unless one was found before. *)
Lemma fold_visit cv col row (l : list (Z * Z)) :
  forall bits color found,
    (fold_left (visit cv col row) l (bits, color, found)).1
    = (Z.lor bits
         (foldr Z.lor 0
            ((fun rc => braille_bit rc.1 rc.2)
               <$> filter (fun rc => pixel_at cv (col * 2 + rc.2) (row * 4 + rc.1) = true) l)),
       if found then color
       else match head (filter (fun rc => pixel_at cv (col * 2 + rc.2) (row * 4 + rc.1) = true) l) with
            | Some rc => color_at cv (col * 2 + rc.2) (row * 4 + rc.1)
            | None => color
            end).
Proof.
  induction l as [|rc l IH]; intros bits color found.
  - simpl. rewrite Z.lor_0_r. destruct found; reflexivity.
  - change (fold_left (visit cv col row) (rc :: l) (bits, color, found))
      with (fold_left (visit cv col row) l
              (visit cv col row (bits, color, found) rc)).
    assert (Hv : visit cv col row (bits, color, found) rc
                 = if pixel_at cv (col * 2 + rc.2) (row * 4 + rc.1)
                   then (Z.lor bits (braille_bit rc.1 rc.2),
                         if found then color
                         else color_at cv (col * 2 + rc.2) (row * 4 + rc.1),
                         true)
                   else (bits, color, found)) by reflexivity.
    rewrite Hv. clear Hv.
    destruct (pixel_at cv (col * 2 + rc.2) (row * 4 + rc.1)) eqn:Hp.
    + rewrite IH. rewrite filter_cons_True by exact Hp. simpl.
      rewrite Z.lor_assoc. destruct found; reflexivity.
    + rewrite IH. rewrite filter_cons_False by (rewrite Hp; discriminate).
      reflexivity.
Qed.

(** [getCell]: the glyph is U+2800 plus the or of the bits of the set
    sub-pixels, the color is that of the first set sub-pixel in scan
    order, and ["gray"] for an empty cell. *)
Lemma getCell_spec cv col row :
  getCell cv col row
  = (10240 + foldr Z.lor 0
               ((fun rc => braille_bit rc.1 rc.2) <$> set_subpixels cv col row),
     match head (set_subpixels cv col row) with
     | Some rc => color_at cv (col * 2 + rc.2) (row * 4 + rc.1)
     | None => "gray"%string
     end).
Proof.
  unfold getCell, set_subpixels.
  pose proof (fold_visit cv col row scan_order 0 "gray"%string false) as Hf.
  destruct (fold_left (visit cv col row) scan_order (0, "gray"%string, false))
    as [[bits color] found].
  simpl in Hf. injection Hf as -> ->. reflexivity.
Qed.

(** The scan order visits every sub-pixel position once. *)
Lemma scan_order_NoDup : NoDup scan_order.
Proof. apply (bool_decide_unpack _). vm_compute. reflexivity. Qed.

(** Two predicates that agree on a prefix of a list that holds a hit
    select the same first element. *)
Lemma head_filter_prefix {X} (P P' : X -> Prop)
  `{forall x, Decision (P x)} `{forall x, Decision (P' x)}
  (l1 l2 : list X) (x0 : X) :
  x0 ∈ l1 -> P x0 ->
  (forall y, y ∈ l1 -> (P' y <-> P y)) ->
  exists z, z ∈ l1 /\
    head (filter P (l1 ++ l2)) = Some z /\
    head (filter P' (l1 ++ l2)) = Some z.
Proof.
  intros Hin HP Hagree.
  assert (Heq : filter P' l1 = filter P l1).
  { clear Hin. induction l1 as [|y l1 IH]; [reflexivity|].
    rewrite !filter_cons.
    rewrite IH by (intros z Hz; apply Hagree; now right).
    destruct (decide (P y)) as [Hy|Hy], (decide (P' y)) as [Hy'|Hy'];
      try reflexivity.
    - exfalso. apply Hy'. apply Hagree; [now left|exact Hy].
    - exfalso. apply Hy. apply Hagree; [now left|exact Hy']. }
  assert (Hx : x0 ∈ filter P l1) by (apply list_elem_of_filter; now split).
  destruct (filter P l1) as [|z rest] eqn:Hf; [now apply not_elem_of_nil in Hx|].
  exists z. split.
  - assert (Hz : z ∈ filter P l1) by (rewrite Hf; now left).
    apply list_elem_of_filter in Hz. tauto.
  - rewrite !filter_app, Heq, Hf. split; reflexivity.
Qed.

(** A write to a sub-pixel that the scan reaches after an already set
    one does not change the color of the cell. *)
Lemma getCell_color_later_write cv col row px py color cv' (i j : nat) rc0 rc :
  setPixel cv px py color = Ok cv' ->
  scan_order !! i = Some rc0 ->
  scan_order !! j = Some rc ->
  (i < j)%nat ->
  pixel_at cv (col * 2 + rc0.2) (row * 4 + rc0.1) = true ->
  px = col * 2 + rc.2 ->
  py = row * 4 + rc.1 ->
  (getCell cv' col row).2 = (getCell cv col row).2.
Proof.
  intros Hset Hi Hj Hlt Hp0 -> ->.
  rewrite !getCell_spec. simpl. unfold set_subpixels.
  rewrite <- (take_drop (S i) scan_order).
  set (l1 := take (S i) scan_order). set (l2 := drop (S i) scan_order).
  assert (Hfar : forall y, y ∈ l1 ->
            (col * 2 + y.2, row * 4 + y.1) <> (col * 2 + rc.2, row * 4 + rc.1)).
  { intros y Hy [= E2 E1]. apply elem_of_take in Hy as (k & Hk & Hki).
    assert (y = rc) by (destruct y, rc; simpl in *; f_equal; lia). subst y.
    pose proof (NoDup_lookup _ _ _ _ scan_order_NoDup Hk Hj). lia. }
  destruct (head_filter_prefix
              (fun y => pixel_at cv (col * 2 + y.2) (row * 4 + y.1) = true)
              (fun y => pixel_at cv' (col * 2 + y.2) (row * 4 + y.1) = true)
              l1 l2 rc0) as (z & Hz & H1 & H2).
  - apply elem_of_take. exists i. split; [exact Hi|lia].
  - exact Hp0.
  - intros y Hy.
    destruct (setPixel_other _ _ _ _ _ _ _ Hset (Hfar y Hy)) as [-> _].
    reflexivity.
  - rewrite H1, H2.
    destruct (setPixel_other _ _ _ _ _ _ _ Hset (Hfar z Hz)) as [_ ->].
    reflexivity.
Qed.

(** C8: for a pixel coordinate outside
    [0, pixelWidth) x [0, pixelHeight), [setPixel] does not throw and
    leaves the canvas as it is, so [getCell] returns the same glyph and
    color for every cell. *)
Theorem setPixel_outside_is_noop cv px py color :
  px < 0 \/ pixelWidth cv <= px \/ py < 0 \/ pixelHeight cv <= py ->
  exists cv',
    setPixel cv px py color = Ok cv' /\
    cv' = cv /\
    forall col row, getCell cv' col row = getCell cv col row.
Proof.
  intros Hout. exists cv. split; [now apply setPixel_outside|].
  split; reflexivity.
Qed.

(** C9 (amended): [getCell] returns the glyph U+2800 plus the or of the
    bits of the set sub-pixels of the cell, and the color of the first
    set sub-pixel in the scan order (rows outside, columns inside),
    ["gray"] for an empty cell; a later [setPixel] on a sub-pixel that
    the scan reaches after an already set one does not change the color
    of the cell. *)
Theorem getCell_or_of_bits_first_in_scan_order :
  (forall cv col row,
     getCell cv col row
     = (10240 + foldr Z.lor 0
                  ((fun rc => braille_bit rc.1 rc.2)
                     <$> set_subpixels cv col row),
        match head (set_subpixels cv col row) with
        | Some rc => color_at cv (col * 2 + rc.2) (row * 4 + rc.1)
        | None => "gray"%string
        end))
  /\
  (forall cv col row px py color cv' (i j : nat) rc0 rc,
     setPixel cv px py color = Ok cv' ->
     scan_order !! i = Some rc0 ->
     scan_order !! j = Some rc ->
     (i < j)%nat ->
     pixel_at cv (col * 2 + rc0.2) (row * 4 + rc0.1) = true ->
     px = col * 2 + rc.2 ->
     py = row * 4 + rc.1 ->
     (getCell cv' col row).2 = (getCell cv col row).2).
Proof.
  split.
  - exact getCell_spec.
  - exact getCell_color_later_write.
Qed.

End CanvasProps.

Lemma setPixel_outside_is_noop_witness :
  (BrailleCanvas.pixelWidth demo_canvas <= 2) /\
  exists cv',
    BrailleCanvas.setPixel demo_canvas 2 0 (Some "blue"%string) = Ok cv' /\
    cv' = demo_canvas /\
    forall col row,
      BrailleCanvas.getCell cv' col row = BrailleCanvas.getCell demo_canvas col row.
Proof.
  assert (Hout : 2 < 0 \/ BrailleCanvas.pixelWidth demo_canvas <= 2 \/
                 0 < 0 \/ BrailleCanvas.pixelHeight demo_canvas <= 0).
  { right. left. vm_compute. discriminate. }
  split; [vm_compute; discriminate|].
  exact (setPixel_outside_is_noop demo_canvas 2 0 (Some "blue"%string) Hout).
Defined.

Lemma getCell_or_of_bits_first_in_scan_order_witness :
  let cv' := BrailleCanvas.mk 1 1
               [[true; true]; [false; false]; [false; false]; [false; false]]
               [[Some "red"%string; Some "blue"%string];
                [None; None]; [None; None]; [None; None]] in
  BrailleCanvas.setPixel demo_canvas 1 0 (Some "blue"%string) = Ok cv' /\
  BrailleCanvas.scan_order !! 0%nat = Some (0, 0) /\
  BrailleCanvas.scan_order !! 1%nat = Some (0, 1) /\
  BrailleCanvas.pixel_at demo_canvas 0 0 = true /\
  BrailleCanvas.getCell demo_canvas 0 0 = (10240 + 1, "red"%string) /\
  (BrailleCanvas.getCell cv' 0 0).2 = (BrailleCanvas.getCell demo_canvas 0 0).2.
Proof.
  intros cv'.
  repeat (split; [reflexivity|]).
  exact (proj2 getCell_or_of_bits_first_in_scan_order
           demo_canvas 0 0 1 0 (Some "blue"%string) cv' 0%nat 1%nat (0, 0) (0, 1)
           eq_refl eq_refl eq_refl (le_n 1) eq_refl eq_refl eq_refl).
Defined.

(** C9 as stated fails on its last part: a color drawn later does
    override the color of the cell when it lands on a sub-pixel that the
    scan reaches first.  On a fresh one-cell canvas, drawing the
    top-right sub-pixel blue makes the cell blue; drawing the top-left
    one red afterwards makes the cell red.  (Drawing the same sub-pixel
    again replaces its color as well.) *)
Lemma getCell_later_color_overrides_counterexample :
  (cv0 ← BrailleCanvas.new 1 1;
   cv1 ← BrailleCanvas.setPixel cv0 1 0 (Some "blue"%string);
   cv2 ← BrailleCanvas.setPixel cv1 0 0 (Some "red"%string);
   cv3 ← BrailleCanvas.setPixel cv1 1 0 (Some "green"%string);
   Ok ((BrailleCanvas.getCell cv1 0 0).2,
       (BrailleCanvas.getCell cv2 0 0).2,
       (BrailleCanvas.getCell cv3 0 0).2))
  = Ok ("blue"%string, "red"%string, "green"%string).
Proof. reflexivity. Qed.

(** ** Loops that can throw *)

(** A loop whose body keeps an invariant and does not throw under it
    does not throw and ends in the invariant. *)
Lemma for_each_invariant {A S} (I : S -> Prop) (body : S -> A -> outcome S)
  (l : list A) :
  (forall s a, a ∈ l -> I s -> exists s', body s a = Ok s' /\ I s') ->
  forall s, I s -> exists s', for_each body l s = Ok s' /\ I s'.
Proof.
  induction l as [|a l IH]; intros Hbody s Hs.
  - exists s. split; [reflexivity|exact Hs].
  - destruct (Hbody s a) as (s1 & H1 & HI1); [now left|exact Hs|].
    destruct (IH (fun s a Ha => Hbody s a (list_elem_of_further _ _ _ Ha)) s1 HI1)
      as (s2 & H2 & HI2).
    exists s2. split; [|exact HI2].
    simpl. rewrite H1. exact H2.
Qed.

(** ** BarChart *)

Section BarChartProps.
Import BrailleCanvas BarChart.

(** The constructor of the canvas builds well-formed buffers. *)
Lemma new_well_formed cols rows cv :
  BrailleCanvas.new cols rows = Ok cv -> well_formed cv.
Proof.
  unfold BrailleCanvas.new. case_match; [discriminate|]. intros [= <-].
  unfold well_formed, pixelHeight, pixelWidth; simpl.
  rewrite !length_replicate.
  repeat split; try reflexivity;
    apply Forall_replicate, length_replicate.
Qed.

Lemma clear_well_formed cv : well_formed cv -> well_formed (clear cv).
Proof.
  intros (Hp & Hc & Hpr & Hcr).
  unfold well_formed, clear, pixelHeight, pixelWidth in *; simpl.
  rewrite !length_fmap. repeat split; try assumption.
  - apply Forall_fmap. eapply Forall_impl; [exact Hpr|].
    intros row Hrow. simpl. rewrite length_replicate. exact Hrow.
  - apply Forall_fmap. eapply Forall_impl; [exact Hcr|].
    intros row Hrow. simpl. rewrite length_replicate. exact Hrow.
Qed.

(** After [clear] no sub-pixel is set. *)
Lemma clear_pixel_at cv px py : pixel_at (clear cv) px py = false.
Proof.
  unfold pixel_at, at2, clear; simpl.
  destruct (Z.ltb_spec py 0); [rewrite get_negative by lia; reflexivity|].
  rewrite get_inside by lia. rewrite list_lookup_fmap.
  destruct (pixels cv !! Z.to_nat py) as [row|]; [|reflexivity]. simpl.
  destruct (Z.ltb_spec px 0); [rewrite get_negative by lia; reflexivity|].
  rewrite get_inside by lia.
  destruct (replicate (length row) false !! Z.to_nat px) as [b|] eqn:E;
    [|reflexivity].
  apply lookup_replicate in E as [-> _]. reflexivity.
Qed.

(** On well-formed buffers a write inside the bounds does not throw and
    keeps the shape. *)
Lemma set_at_well_formed {A} (hole : A) (buf : list (list A)) (h w : nat) px py v :
  length buf = h -> Forall (fun row => length row = w) buf ->
  0 <= px < Z.of_nat w -> 0 <= py < Z.of_nat h ->
  exists buf', set_at hole buf px py v = Ok buf' /\
    length buf' = h /\ Forall (fun row => length row = w) buf'.
Proof.
  intros Hh Hw Hpx Hpy. unfold set_at. rewrite get_inside by lia.
  destruct (lookup_lt_is_Some_2 buf (Z.to_nat py)) as [row Hrow]; [lia|].
  rewrite Hrow. eexists. split; [reflexivity|].
  rewrite length_insert. split; [exact Hh|].
  apply Forall_insert; [exact Hw|].
  pose proof (Forall_lookup_1 _ _ _ _ Hw Hrow) as Hlen. simpl in Hlen.
  rewrite set_inside by (unfold JS.len; lia).
  rewrite length_insert. exact Hlen.
Qed.

(** On a well-formed canvas [setPixel] does not throw, and the canvas
    stays well-formed. *)
Lemma setPixel_well_formed cv px py color :
  well_formed cv ->
  exists cv', setPixel cv px py color = Ok cv' /\
    cols cv' = cols cv /\ rows cv' = rows cv /\ well_formed cv'.
Proof.
  intros Hwf. unfold setPixel.
  destruct (Z.ltb_spec px 0); [exists cv; auto|].
  destruct (Z.leb_spec (pixelWidth cv) px); [exists cv; auto|].
  destruct (Z.ltb_spec py 0); [exists cv; auto|].
  destruct (Z.leb_spec (pixelHeight cv) py); [exists cv; auto|].
  simpl. destruct Hwf as (Hp & Hc & Hpr & Hcr).
  destruct (set_at_well_formed false (pixels cv) _ _ px py true Hp Hpr)
    as (ps & Hps & Hps1 & Hps2); [lia|lia|].
  destruct (set_at_well_formed None (colors cv) _ _ px py color Hc Hcr)
    as (cs & Hcs & Hcs1 & Hcs2); [lia|lia|].
  rewrite Hps, Hcs. simpl. eexists. split; [reflexivity|]. simpl.
  repeat split; assumption.
Qed.

Lemma setPixel_baseline cols0 rows0 cv px color :
  baseline_only cols0 rows0 cv ->
  exists cv', setPixel cv px (rows0 * 4 - 1) color = Ok cv' /\
    baseline_only cols0 rows0 cv'.
Proof.
  intros (Hc & Hr & Hwf & Hbase).
  destruct (setPixel_well_formed cv px (rows0 * 4 - 1) color Hwf)
    as (cv' & Hset & Hc1 & Hr1 & Hwf1).
  exists cv'. split; [exact Hset|].
  split; [congruence|]. split; [congruence|]. split; [exact Hwf1|].
  intros px' py' Hp.
  destruct (decide ((px', py') = (px, rows0 * 4 - 1))) as [[= _ ->]|Hne];
    [reflexivity|].
  destruct (setPixel_other _ _ _ _ _ _ _ Hset Hne) as [E _].
  rewrite E in Hp. exact (Hbase px' py' Hp).
Qed.

(** A bar of height 0 paints sub-pixels of the bottom row only. *)
Lemma drawBar_baseline cols0 rows0 cv x w color :
  baseline_only cols0 rows0 cv ->
  exists cv',
    drawBar cv x (rows0 * 4 - 1) (rows0 * 4 - 1) w color = Ok cv' /\
    baseline_only cols0 rows0 cv'.
Proof.
  intros Hb. unfold drawBar.
  apply (for_each_invariant (baseline_only cols0 rows0)); [|exact Hb].
  intros cv1 px _ Hb1.
  apply (for_each_invariant (baseline_only cols0 rows0)); [|exact Hb1].
  intros cv2 py Hpy Hb2.
  replace (rows0 * 4 - 1 - (rows0 * 4 - 1) + 1) with 1 in Hpy by lia.
  apply elem_of_seqZ in Hpy.
  replace py with (rows0 * 4 - 1) by lia.
  now apply setPixel_baseline.
Qed.

(** The divisor of an all-zero chart is the epsilon, not zero. *)
Lemma max_of_zeros values :
  Forall (fun v => v == 0)%Q values -> max_of values = (1 # 1000)%Q.
Proof.
  induction 1 as [|v values Hv _ IH]; [reflexivity|].
  unfold max_of in *. simpl. rewrite IH.
  unfold Qmax, GenericMinMax.gmax.
  assert (Hlt : (v < 1 # 1000)%Q) by (rewrite Hv; reflexivity).
  rewrite Qlt_alt in Hlt. rewrite Hlt. reflexivity.
Qed.

(** Against the epsilon a zero value gives a bar of height 0, and the
    division is defined. *)
Lemma barH_zero ph v : (v == 0)%Q -> barH (1 # 1000) ph v = Ok 0.
Proof.
  intros Hv. unfold barH, divide. simpl. f_equal. unfold JS.round.
  assert (E : (v / (1 # 1000) * inject_Z (ph - 1) + (1 # 2) == 1 # 2)%Q).
  { rewrite Hv. unfold Qdiv. rewrite !Qmult_0_l. reflexivity. }
  rewrite E. reflexivity.
Qed.

Lemma draw_bars_cons cv max ph barPx gapPx i x v vs :
  draw_bars cv max ph barPx gapPx i x (v :: vs)
  = (h ← barH max ph v;
     cv' ← drawBar cv x (ph - 1) (ph - 1 - h) barPx (palette i);
     draw_bars cv' max ph barPx gapPx (i + 1) (x + barPx + gapPx) vs).
Proof. reflexivity. Qed.

Lemma draw_bars_zeros cols0 rows0 barPx gapPx values :
  Forall (fun v => v == 0)%Q values ->
  forall cv i x,
    baseline_only cols0 rows0 cv ->
    exists cv',
      draw_bars cv (1 # 1000) (rows0 * 4) barPx gapPx i x values = Ok cv' /\
      baseline_only cols0 rows0 cv'.
Proof.
  induction 1 as [|v values Hv _ IH]; intros cv i x Hb.
  - exists cv. split; [reflexivity|exact Hb].
  - rewrite draw_bars_cons, (barH_zero _ v Hv).
    change (mbind ?f (Ok ?a)) with (f a). cbv beta.
    rewrite Z.sub_0_r.
    destruct (drawBar_baseline cols0 rows0 cv x barPx (palette i) Hb)
      as (cv1 & Hd & Hb1).
    rewrite Hd. change (mbind ?f (Ok ?a)) with (f a). cbv beta.
    apply IH. exact Hb1.
Qed.

(** A chart fresh from the constructor, or after [setData], is ready
    to be rasterized. *)
Lemma new_chart_ready w h values c :
  BarChart.new w h values = Ok c ->
  well_formed (_canvas c) /\ _dirty c = true /\ BarChart.values c = values.
Proof.
  unfold BarChart.new.
  destruct (BrailleCanvas.new (w - 2) (h - 3)) as [cv| | |] eqn:Hcv;
    try discriminate.
  simpl. intros [= <-]. simpl.
  split; [exact (new_well_formed _ _ _ Hcv)|]. split; reflexivity.
Qed.

Lemma setData_chart_ready c values :
  well_formed (_canvas c) ->
  well_formed (_canvas (setData c values)) /\
  _dirty (setData c values) = true /\
  BarChart.values (setData c values) = values.
Proof. intros Hwf. split; [exact Hwf|]. split; reflexivity. Qed.

End BarChartProps.


(** The sample chart is what the constructor returns. *)
Example demo_chart_is_new :
  BarChart.new 10 6 [0%Q; 0%Q; 0%Q] = Ok demo_chart.
Proof. reflexivity. Qed.

(** On the sample chart the three bars come out as the bottom pixel row
    of columns 2-3, 6-7 and 10-11: a bar of height 0 still covers its
    base line, because [drawBar] paints the rows [top .. bottom]
    inclusively. *)
Example demo_chart_rendered :
  (c' ← BarChart._render demo_chart;
   Ok (BrailleCanvas.pixels (BarChart._canvas c') !! 11%nat,
       BrailleCanvas.pixels (BarChart._canvas c') !! 10%nat))
  = Ok (Some [false; false; true; true; false; false; true; true;
              false; false; true; true; false; false; false; false],
        Some (replicate 16 false)).
Proof. vm_compute. reflexivity. Qed.

(** ** Input: the whole key handler *)

Section InputMoreProps.
Import Input.

(** The window that [clampHorizontal] leaves, as a helper. *)
Lemma clampHorizontal_window s cursor w :
  0 <= cursor -> 1 <= w ->
  ScrollState.x (ScrollState.clampHorizontal s cursor w) <= cursor
  <= ScrollState.x (ScrollState.clampHorizontal s cursor w) + w - 1.
Proof.
  intros Hc Hw. unfold ScrollState.clampHorizontal; simpl.
  destruct (Z.ltb_spec cursor (ScrollState.x s));
    match goal with |- context [?a <=? ?b] => destruct (Z.leb_spec a b) end;
    lia.
Qed.

Lemma input_clampScroll_ok i :
  0 <= _cursor i <= JS.len (_value i) -> input_ok (_clampScroll i).
Proof.
  intros Hc. split; [exact Hc|]. apply clampHorizontal_nonneg.
Qed.

Lemma input_clampScroll_visible i :
  0 <= _cursor i -> 3 <= width i -> input_cursor_visible (_clampScroll i).
Proof.
  intros Hc Hw.
  pose proof (clampHorizontal_window (_scroll i) (_cursor i) (width i - 2)
                Hc ltac:(lia)) as Hwin.
  unfold input_cursor_visible, _clampScroll, with_scroll.
  cbn [_scroll _cursor width]. lia.
Qed.

Lemma input_width_handleKey i key : width (handleKey i key).1 = width i.
Proof. unfold handleKey. repeat (case_match; simpl; try reflexivity). Qed.

Lemma input_handleKey_ok i key : input_ok i -> input_ok (handleKey i key).1.
Proof.
  intros [Hc Hx]. pose proof (len_nonneg (_value i)) as Hlen.
  unfold handleKey.
  repeat (case_match; simpl; try (split; assumption));
    try (apply input_clampScroll_ok; simpl; try lia).
  - rewrite slice_middle, slice_from_suffix by lia.
    rewrite Z.sub_0_r, drop_0.
    rewrite len_app, len_take, len_drop by lia. lia.
  - rewrite slice_prefix by lia.
    assert (Hs : JS.slice_from (_value i) (_cursor i + 1)
                 = drop (Z.to_nat (_cursor i + 1)) (_value i))
      by (apply slice_from_suffix; lia).
    rewrite Hs, len_app, len_take, len_drop by lia. lia.
  - rewrite slice_prefix, slice_from_suffix by lia.
    rewrite !len_app, len_take, len_drop by lia.
    erewrite single_char_len by eassumption. lia.
Qed.

Lemma input_handleKey_visible i key :
  3 <= width i -> input_ok i -> input_cursor_visible i ->
  input_cursor_visible (handleKey i key).1.
Proof.
  intros Hw [Hc Hx] Hv. unfold handleKey.
  repeat (case_match; simpl; try exact Hv);
    apply input_clampScroll_visible; simpl; lia.
Qed.

Lemma input_setValue_ok i v : input_ok (setValue i v).
Proof.
  unfold setValue. apply input_clampScroll_ok. simpl.
  pose proof (len_nonneg v). lia.
Qed.

(** X1: whatever value is set and whatever keys follow, the cursor of an
    [Input] stays a position of its value, [0 <= cursor <= length], and
    the horizontal scroll offset stays [>= 0]. *)
Theorem input_cursor_in_value w v keys :
  let i := handleKeys (setValue (new w) v) keys in
  0 <= _cursor i <= JS.len (_value i) /\ 0 <= ScrollState.x (_scroll i).
Proof.
  assert (Hall : forall keys i, input_ok i -> input_ok (handleKeys i keys)).
  { clear keys. induction keys as [|k keys IH]; intros i Hi; [exact Hi|].
    apply (IH (handleKey i k).1). now apply input_handleKey_ok. }
  exact (Hall keys _ (input_setValue_ok (new w) v)).
Qed.

(** X2: in an [Input] of width at least 3 (a window of at least one
    column) the cursor is always inside the scroll window:
    [x <= cursor <= x + (width - 2) - 1] after [setValue] and any keys. *)
Theorem input_cursor_stays_visible w v keys :
  3 <= w ->
  let i := handleKeys (setValue (new w) v) keys in
  ScrollState.x (_scroll i) <= _cursor i
  <= ScrollState.x (_scroll i) + (w - 2) - 1.
Proof.
  intros Hw.
  assert (Hall : forall keys i,
            width i = w -> input_ok i -> input_cursor_visible i ->
            width (handleKeys i keys) = w /\
            input_cursor_visible (handleKeys i keys)).
  { clear keys. induction keys as [|k keys IH]; intros i Hwi Hi Hv.
    - split; assumption.
    - apply (IH (handleKey i k).1).
      + rewrite input_width_handleKey. exact Hwi.
      + now apply input_handleKey_ok.
      + apply input_handleKey_visible; [lia|assumption|assumption]. }
  destruct (Hall keys (setValue (new w) v)) as [Hwidth Hvis].
  - reflexivity.
  - apply input_setValue_ok.
  - unfold setValue. apply input_clampScroll_visible; simpl;
      [pose proof (len_nonneg v); lia|lia].
  - unfold input_cursor_visible in Hvis. rewrite Hwidth in Hvis. exact Hvis.
Qed.

(** X3: typing a printable character and then pressing [Backspace]
    gives back the value and the cursor.  [Backspace] is any key event
    named ["backspace"], whatever characters and modifiers it carries. *)
Theorem input_type_then_backspace i key ch bk :
  0 <= _cursor i <= JS.len (_value i) ->
  printable key ch ->
  name bk = Some "backspace"%string ->
  let i2 := (handleKey (handleKey i key).1 bk).1 in
  _value i2 = _value i /\ _cursor i2 = _cursor i.
Proof.
  intros Hc Hp Hbk.
  rewrite (input_handleKey_by_name _ bk "backspace" Hbk)
    by (unfold reserved; repeat constructor).
  destruct (handleKey_printable i key ch Hc Hp) as (Hv & Hcur & _).
  set (i1 := (handleKey i key).1) in *.
  assert (Hlen : JS.len (_value i1) = JS.len (_value i) + 1).
  { rewrite Hv, !len_app, len_take, len_drop by lia.
    change (JS.len [ch]) with 1. lia. }
  unfold handleKey at 1. cbn -[Z.ltb JS.slice JS.slice_from].
  destruct (Z.ltb_spec 0 (_cursor i1)); [|lia]. simpl.
  rewrite slice_middle, slice_from_suffix by lia.
  rewrite Z.sub_0_r, drop_0, Hcur, Hv.
  replace (_cursor i + 1 - 1) with (_cursor i) by lia.
  split; [|reflexivity].
  assert (Hn : length (take (Z.to_nat (_cursor i)) (_value i))
               = Z.to_nat (_cursor i))
    by (rewrite length_take; unfold JS.len in Hc; lia).
  rewrite take_app_length' by (symmetry; exact Hn).
  replace (Z.to_nat (_cursor i + 1)) with
    (length (take (Z.to_nat (_cursor i)) (_value i) ++ [ch]))
    by (rewrite length_app, Hn; simpl; lia).
  rewrite (app_assoc _ [ch]), drop_app_length.
  apply take_drop.
Qed.

End InputMoreProps.

Lemma input_cursor_stays_visible_witness :
  3 <= 6 /\
  let i := Input.handleKeys (Input.setValue (Input.new 6) (JS.of_string "hello world"))
             [key_named "home"; key_named "right"; key_char "x"] in
  ScrollState.x (Input._scroll i) <= Input._cursor i
  <= ScrollState.x (Input._scroll i) + (6 - 2) - 1.
Proof.
  split; [lia|].
  apply (input_cursor_stays_visible 6 (JS.of_string "hello world")
           [key_named "home"; key_named "right"; key_char "x"]). lia.
Defined.

Lemma input_type_then_backspace_witness :
  let i := Input.mk 10 (JS.of_string "ac") 1 ScrollState.new true [] in
  (0 <= Input._cursor i <= JS.len (Input._value i)) /\
  Input.printable (key_char "b") "b" /\
  name key_backspace = Some "backspace"%string /\
  let i2 := (Input.handleKey (Input.handleKey i (key_char "b")).1
               key_backspace).1 in
  Input._value i2 = JS.of_string "ac" /\ Input._cursor i2 = 1.
Proof.
  intros i.
  assert (Hc : 0 <= Input._cursor i <= JS.len (Input._value i))
    by (vm_compute; split; discriminate).
  assert (Hp : Input.printable (key_char "b") "b")
    by (repeat split; repeat constructor; discriminate).
  split; [exact Hc|]. split; [exact Hp|]. split; [reflexivity|].
  exact (input_type_then_backspace i (key_char "b") "b" key_backspace
           Hc Hp eq_refl).
Defined.

Section InputEditProps.
Import Input.

(** X4: [Backspace] removes the character before the cursor and moves
    the cursor one to the left, [Delete] removes the character at the
    cursor and leaves the cursor; at the start (resp. the end) of the
    value nothing is removed, and [onChange] is called exactly when a
    character was removed.  [Backspace] and [Delete] are any key
    events named ["backspace"] and ["delete"], whatever characters and
    modifiers they carry. *)
Theorem input_backspace_and_delete i bk dl :
  0 <= _cursor i <= JS.len (_value i) ->
  name bk = Some "backspace"%string ->
  name dl = Some "delete"%string ->
  let b := (handleKey i bk).1 in
  let d := (handleKey i dl).1 in
  (_value b = take (Z.to_nat (_cursor i - 1)) (_value i)
              ++ drop (Z.to_nat (_cursor i)) (_value i)
   /\ _cursor b = Z.max 0 (_cursor i - 1)
   /\ changes b = if 0 <? _cursor i then changes i ++ [_value b] else changes i)
  /\
  (_value d = take (Z.to_nat (_cursor i)) (_value i)
              ++ drop (Z.to_nat (_cursor i + 1)) (_value i)
   /\ _cursor d = _cursor i
   /\ changes d = if _cursor i <? JS.len (_value i)
                  then changes i ++ [_value d] else changes i).
Proof.
  intros Hc Hbk Hdl. cbv zeta.
  rewrite (input_handleKey_by_name i bk "backspace" Hbk)
    by (unfold reserved; repeat constructor).
  rewrite (input_handleKey_by_name i dl "delete" Hdl)
    by (unfold reserved; repeat constructor).
  split.
  - unfold handleKey. cbn -[Z.ltb JS.slice JS.slice_from].
    destruct (Z.ltb_spec 0 (_cursor i)); simpl.
    + rewrite slice_middle, slice_from_suffix by lia.
      rewrite Z.sub_0_r, drop_0. repeat split. lia.
    + replace (_cursor i) with 0 by lia. simpl. rewrite drop_0.
      repeat split.
  - unfold handleKey. cbn -[Z.ltb JS.slice JS.slice_from].
    destruct (Z.ltb_spec (_cursor i) (JS.len (_value i))); simpl.
    + rewrite slice_prefix by lia.
      assert (Hs : JS.slice_from (_value i) (_cursor i + 1)
                   = drop (Z.to_nat (_cursor i + 1)) (_value i))
        by (apply slice_from_suffix; lia).
      rewrite Hs. repeat split.
    + rewrite take_ge by (unfold JS.len in *; lia).
      rewrite drop_ge by (unfold JS.len in *; lia).
      rewrite app_nil_r. repeat split.
Qed.

End InputEditProps.

Lemma input_backspace_and_delete_witness :
  let i := Input.mk 10 (JS.of_string "abc") 2 ScrollState.new true [] in
  (0 <= Input._cursor i <= JS.len (Input._value i)) /\
  name key_backspace = Some "backspace"%string /\
  name key_delete = Some "delete"%string /\
  Input._value (Input.handleKey i key_backspace).1 = JS.of_string "ac" /\
  Input._cursor (Input.handleKey i key_backspace).1 = 1 /\
  Input._value (Input.handleKey i key_delete).1 = JS.of_string "ab" /\
  Input._cursor (Input.handleKey i key_delete).1 = 2.
Proof.
  intros i.
  assert (Hc : 0 <= Input._cursor i <= JS.len (Input._value i))
    by (vm_compute; split; discriminate).
  split; [exact Hc|]. split; [reflexivity|]. split; [reflexivity|].
  destruct (input_backspace_and_delete i key_backspace key_delete
              Hc eq_refl eq_refl) as ((H1 & H2 & _) & (H3 & H4 & _)).
  repeat split; assumption.
Defined.

(** ** Textarea: joins, round trips and the scroll window *)

Section TextareaMoreProps.
Import Textarea.

(** [Backspace] at column 0 of a row below the first one. *)
Lemma deleteBackward_join_spec t0 prev line :
  0 < _cursorRow t0 ->
  _cursorCol t0 = 0 ->
  _lines t0 !! Z.to_nat (_cursorRow t0 - 1) = Some prev ->
  _lines t0 !! Z.to_nat (_cursorRow t0) = Some line ->
  _lines (_deleteBackward t0)
  = take (Z.to_nat (_cursorRow t0 - 1)) (_lines t0)
    ++ [prev ++ line]
    ++ drop (S (Z.to_nat (_cursorRow t0))) (_lines t0)
  /\ _cursorRow (_deleteBackward t0) = _cursorRow t0 - 1
  /\ _cursorCol (_deleteBackward t0) = JS.len prev.
Proof.
  intros Hrow Hcol Hp Hl.
  pose proof (lookup_len _ _ _ Hl) as Hlt.
  pose proof (lookup_lt_Some _ _ _ Hl) as Hn.
  unfold _deleteBackward, set_line.
  destruct (Z.ltb_spec 0 (_cursorCol t0)); [lia|].
  destruct (Z.ltb_spec 0 (_cursorRow t0)); [|lia].
  rewrite get_inside by lia. rewrite Hp. simpl.
  rewrite (currentLine_at _ line) by (simpl; first [exact Hl | lia]).
  rewrite set_inside by lia.
  rewrite splice_delete_one by (rewrite len_insert; lia).
  split; [|split; reflexivity].
  replace (Z.to_nat (_cursorRow t0)) with (S (Z.to_nat (_cursorRow t0 - 1)))
    at 1 by lia.
  rewrite (take_S_r _ _ (prev ++ line))
    by (apply list_lookup_insert_eq; lia).
  rewrite take_insert_ge by lia.
  rewrite drop_insert_lt by lia.
  rewrite <- app_assoc. reflexivity.
Qed.

(** [Delete] at the end of a line that is not the last one. *)
Lemma deleteForward_join_spec t0 line next :
  _lines t0 !! Z.to_nat (_cursorRow t0) = Some line ->
  _lines t0 !! S (Z.to_nat (_cursorRow t0)) = Some next ->
  0 <= _cursorRow t0 ->
  _cursorCol t0 = JS.len line ->
  _lines (_deleteForward t0)
  = take (Z.to_nat (_cursorRow t0)) (_lines t0)
    ++ [line ++ next]
    ++ drop (S (S (Z.to_nat (_cursorRow t0)))) (_lines t0)
  /\ _cursorRow (_deleteForward t0) = _cursorRow t0
  /\ _cursorCol (_deleteForward t0) = _cursorCol t0.
Proof.
  intros Hl Hnx Hrow Hcol.
  pose proof (lookup_len _ _ _ Hnx) as Hlt.
  pose proof (lookup_lt_Some _ _ _ Hl) as Hn.
  unfold _deleteForward, set_line.
  rewrite (currentLine_at t0 line Hl Hrow).
  destruct (Z.ltb_spec (_cursorCol t0) (JS.len line)); [lia|].
  destruct (Z.ltb_spec (_cursorRow t0) (JS.len (_lines t0) - 1)); [|lia].
  rewrite get_inside by lia.
  replace (Z.to_nat (_cursorRow t0 + 1)) with (S (Z.to_nat (_cursorRow t0)))
    by lia.
  rewrite Hnx. simpl.
  rewrite set_inside by lia.
  rewrite splice_delete_one by (rewrite len_insert; lia).
  split; [|split; reflexivity].
  replace (Z.to_nat (_cursorRow t0 + 1)) with (S (Z.to_nat (_cursorRow t0)))
    by lia.
  rewrite (take_S_r _ _ (line ++ next))
    by (apply list_lookup_insert_eq; exact Hn).
  rewrite take_insert_ge by lia.
  rewrite drop_insert_lt by lia.
  rewrite <- app_assoc. reflexivity.
Qed.

(** The handler on the three editing keys: the branch is chosen by
    [key.name] alone, before the characters of the key are looked at. *)
Lemma handleKey_return_eq t0 key :
  name key = Some "return"%string ->
  (handleKey t0 key).1 = _clampScroll (notify (_insertNewline t0)).
Proof. intros Hn. unfold handleKey, named. rewrite Hn. reflexivity. Qed.

Lemma handleKey_backspace_eq t0 key :
  name key = Some "backspace"%string ->
  (handleKey t0 key).1 = _clampScroll (notify (_deleteBackward t0)).
Proof. intros Hn. unfold handleKey, named. rewrite Hn. reflexivity. Qed.

Lemma handleKey_delete_eq t0 key :
  name key = Some "delete"%string ->
  (handleKey t0 key).1 = _clampScroll (notify (_deleteForward t0)).
Proof. intros Hn. unfold handleKey, named. rewrite Hn. reflexivity. Qed.

(** X5: [Backspace] at column 0 of a row [row > 0] joins the line with
    the previous one: the two lines become [prev + line], and the cursor
    moves to the join point [(row - 1, length of prev)].  [Backspace]
    is any key event named ["backspace"], whatever characters and
    modifiers it carries. *)
Theorem backspace_joins_with_previous_line t0 prev line key :
  name key = Some "backspace"%string ->
  0 < _cursorRow t0 ->
  _cursorCol t0 = 0 ->
  JS.get (_lines t0) (_cursorRow t0 - 1) = Some prev ->
  JS.get (_lines t0) (_cursorRow t0) = Some line ->
  let t1 := (handleKey t0 key).1 in
  _lines t1
  = take (Z.to_nat (_cursorRow t0 - 1)) (_lines t0)
    ++ [prev ++ line]
    ++ drop (S (Z.to_nat (_cursorRow t0))) (_lines t0)
  /\ _cursorRow t1 = _cursorRow t0 - 1
  /\ _cursorCol t1 = JS.len prev.
Proof.
  intros Hkey Hrow Hcol Hp Hl.
  rewrite get_inside in Hp, Hl by lia.
  rewrite (handleKey_backspace_eq t0 key Hkey).
  exact (deleteBackward_join_spec t0 prev line Hrow Hcol Hp Hl).
Qed.

(** X6: [Delete] at the end of a line that has a line below it joins
    the two lines into [line + next] and leaves the cursor where it
    is.  [Delete] is any key event named ["delete"], whatever
    characters and modifiers it carries. *)
Theorem delete_joins_with_next_line t0 line next key :
  name key = Some "delete"%string ->
  JS.get (_lines t0) (_cursorRow t0) = Some line ->
  JS.get (_lines t0) (_cursorRow t0 + 1) = Some next ->
  _cursorCol t0 = JS.len line ->
  let t1 := (handleKey t0 key).1 in
  _lines t1
  = take (Z.to_nat (_cursorRow t0)) (_lines t0)
    ++ [line ++ next]
    ++ drop (S (S (Z.to_nat (_cursorRow t0)))) (_lines t0)
  /\ _cursorRow t1 = _cursorRow t0
  /\ _cursorCol t1 = _cursorCol t0.
Proof.
  intros Hkey Hl Hnx Hcol.
  pose proof (get_Some_range _ _ _ Hl) as Hr.
  rewrite get_inside in Hl, Hnx by lia.
  replace (Z.to_nat (_cursorRow t0 + 1)) with (S (Z.to_nat (_cursorRow t0)))
    in Hnx by lia.
  rewrite (handleKey_delete_eq t0 key Hkey).
  apply (deleteForward_join_spec t0 line next Hl Hnx); [lia|exact Hcol].
Qed.

(** X7: [Return] followed by [Backspace] gives back the lines and the
    cursor.  [Return] and [Backspace] are any key events named
    ["return"] and ["backspace"], whatever characters and modifiers
    they carry. *)
Theorem return_then_backspace t0 line ret bk :
  name ret = Some "return"%string ->
  name bk = Some "backspace"%string ->
  JS.get (_lines t0) (_cursorRow t0) = Some line ->
  0 <= _cursorCol t0 <= JS.len line ->
  let t2 := (handleKey (handleKey t0 ret).1 bk).1 in
  _lines t2 = _lines t0 /\
  _cursorRow t2 = _cursorRow t0 /\
  _cursorCol t2 = _cursorCol t0.
Proof.
  intros Hret Hbk Hl Hc. cbv zeta. pose proof (get_Some_range _ _ _ Hl) as Hr.
  rewrite get_inside in Hl by lia.
  pose proof (lookup_lt_Some _ _ _ Hl) as Hn.
  destruct (insertNewline_spec t0 line Hl ltac:(lia) Hc) as (Hls & Hrow & Hcol).
  set (t1 := _insertNewline t0) in *.
  assert (Hlen : length (take (Z.to_nat (_cursorRow t0)) (_lines t0))
                 = Z.to_nat (_cursorRow t0)) by (rewrite length_take; lia).
  assert (Hp : _lines t1 !! Z.to_nat (_cursorRow t1 - 1)
               = Some (take (Z.to_nat (_cursorCol t0)) line)).
  { rewrite Hls, Hrow.
    replace (Z.to_nat (_cursorRow t0 + 1 - 1)) with
      (length (take (Z.to_nat (_cursorRow t0)) (_lines t0)) + 0)%nat by lia.
    rewrite lookup_app_r by lia.
    replace (_ + 0 - _)%nat with 0%nat by lia. reflexivity. }
  assert (Hq : _lines t1 !! Z.to_nat (_cursorRow t1)
               = Some (drop (Z.to_nat (_cursorCol t0)) line)).
  { rewrite Hls, Hrow.
    replace (Z.to_nat (_cursorRow t0 + 1)) with
      (length (take (Z.to_nat (_cursorRow t0)) (_lines t0)) + 1)%nat by lia.
    rewrite lookup_app_r by lia.
    replace (_ + 1 - _)%nat with 1%nat by lia. reflexivity. }
  rewrite (handleKey_backspace_eq (handleKey t0 ret).1 bk Hbk).
  rewrite (handleKey_return_eq t0 ret Hret). fold t1.
  destruct (deleteBackward_join_spec (_clampScroll (notify t1)) _ _
              ltac:(simpl; lia) Hcol Hp Hq) as (Hls2 & Hrow2 & Hcol2).
  change (_lines (_clampScroll (notify (_deleteBackward
            (_clampScroll (notify t1))))))
    with (_lines (_deleteBackward (_clampScroll (notify t1)))).
  change (_cursorRow (_clampScroll (notify (_deleteBackward
            (_clampScroll (notify t1))))))
    with (_cursorRow (_deleteBackward (_clampScroll (notify t1)))).
  change (_cursorCol (_clampScroll (notify (_deleteBackward
            (_clampScroll (notify t1))))))
    with (_cursorCol (_deleteBackward (_clampScroll (notify t1)))).
  rewrite Hls2, Hrow2, Hcol2.
  change (_lines (_clampScroll (notify t1))) with (_lines t1).
  change (_cursorRow (_clampScroll (notify t1))) with (_cursorRow t1).
  rewrite Hrow, take_drop, len_take by exact Hc.
  split; [|split; lia].
  rewrite Hls.
  replace (Z.to_nat (_cursorRow t0 + 1 - 1)) with
    (length (take (Z.to_nat (_cursorRow t0)) (_lines t0))) by lia.
  rewrite take_app_length.
  replace (S (Z.to_nat (_cursorRow t0 + 1))) with
    (length (take (Z.to_nat (_cursorRow t0)) (_lines t0)) + 2)%nat by lia.
  rewrite drop_app_add'
    by reflexivity.
  simpl drop.
  rewrite <- (take_drop_middle (_lines t0) (Z.to_nat (_cursorRow t0)) line Hl)
    at 3.
  reflexivity.
Qed.

End TextareaMoreProps.

Lemma backspace_joins_with_previous_line_witness :
  let t0 := Textarea.mk 12 5 [JS.of_string "he"; JS.of_string "llo"] 1 0
              ScrollState.new true [] in
  let t1 := (Textarea.handleKey t0 key_backspace).1 in
  name key_backspace = Some "backspace"%string /\
  0 < Textarea._cursorRow t0 /\
  Textarea._lines t1 = [JS.of_string "hello"] /\
  Textarea._cursorRow t1 = 0 /\
  Textarea._cursorCol t1 = 2.
Proof.
  intros t0 t1. split; [reflexivity|]. split; [reflexivity|].
  exact (backspace_joins_with_previous_line t0 (JS.of_string "he")
           (JS.of_string "llo") key_backspace
           eq_refl eq_refl eq_refl eq_refl eq_refl).
Defined.

Lemma delete_joins_with_next_line_witness :
  let t0 := Textarea.mk 12 5 [JS.of_string "he"; JS.of_string "llo"] 0 2
              ScrollState.new true [] in
  let t1 := (Textarea.handleKey t0 key_delete).1 in
  name key_delete = Some "delete"%string /\
  Textarea._cursorCol t0 = JS.len (JS.of_string "he") /\
  Textarea._lines t1 = [JS.of_string "hello"] /\
  Textarea._cursorRow t1 = 0 /\
  Textarea._cursorCol t1 = 2.
Proof.
  intros t0 t1. split; [reflexivity|]. split; [reflexivity|].
  exact (delete_joins_with_next_line t0 (JS.of_string "he")
           (JS.of_string "llo") key_delete eq_refl eq_refl eq_refl eq_refl).
Defined.

Lemma return_then_backspace_witness :
  let t0 := Textarea.mk 12 5 [JS.of_string "hello"; JS.of_string "x"] 0 2
              ScrollState.new true [] in
  let t2 := (Textarea.handleKey
               (Textarea.handleKey t0 key_return).1 key_backspace).1 in
  name key_return = Some "return"%string /\
  name key_backspace = Some "backspace"%string /\
  0 <= Textarea._cursorCol t0 <= JS.len (JS.of_string "hello") /\
  Textarea._lines t2 = Textarea._lines t0 /\
  Textarea._cursorRow t2 = 0 /\
  Textarea._cursorCol t2 = 2.
Proof.
  intros t0 t2.
  assert (Hc : 0 <= Textarea._cursorCol t0 <= JS.len (JS.of_string "hello"))
    by (vm_compute; split; discriminate).
  split; [reflexivity|]. split; [reflexivity|]. split; [exact Hc|].
  exact (return_then_backspace t0 (JS.of_string "hello") key_return
           key_backspace eq_refl eq_refl eq_refl Hc).
Defined.

(** ** Textarea: the text and the lines *)

Section SplitJoin.

Lemma split_on_no_sep sep (l : JS.text) : sep ∉ l -> JS.split_on sep l = [l].
Proof.
  induction l as [|c l IH]; intros Hn; [reflexivity|].
  simpl. destruct (Ascii.eqb_spec c sep) as [->|Hne].
  - exfalso. apply Hn. now left.
  - rewrite IH; [reflexivity|]. intros Hin. apply Hn. now right.
Qed.

Lemma split_on_app_sep sep (l s : JS.text) :
  sep ∉ l -> JS.split_on sep (l ++ sep :: s) = l :: JS.split_on sep s.
Proof.
  induction l as [|c l IH]; intros Hn.
  - simpl. rewrite Ascii.eqb_refl. reflexivity.
  - simpl. destruct (Ascii.eqb_spec c sep) as [->|Hne].
    + exfalso. apply Hn. now left.
    + rewrite IH; [reflexivity|]. intros Hin. apply Hn. now right.
Qed.

(** Joining the pieces of a text gives the text back. *)
Lemma join_split_on sep (s : JS.text) : JS.join sep (JS.split_on sep s) = s.
Proof.
  induction s as [|c s IH]; [reflexivity|].
  simpl. destruct (Ascii.eqb_spec c sep) as [->|Hne].
  - pose proof (split_on_nonempty sep s) as Hne.
    destruct (JS.split_on sep s) as [|p ps] eqn:E; [contradiction|].
    change (JS.join sep ([] :: p :: ps)) with ([] ++ sep :: JS.join sep (p :: ps)).
    rewrite IH. reflexivity.
  - pose proof (split_on_nonempty sep s) as Hne'.
    destruct (JS.split_on sep s) as [|p ps] eqn:E; [contradiction|].
    destruct ps as [|p2 ps].
    + simpl in *. rewrite IH. reflexivity.
    + change (JS.join sep ((c :: p) :: p2 :: ps))
        with ((c :: p) ++ sep :: JS.join sep (p2 :: ps)).
      change (JS.join sep (p :: p2 :: ps))
        with (p ++ sep :: JS.join sep (p2 :: ps)) in IH.
      rewrite <- IH. reflexivity.
Qed.

(** Splitting the join of separator-free lines gives the lines back. *)
Lemma split_on_join sep (ls : list JS.text) :
  ls <> [] -> Forall (fun l => sep ∉ l) ls ->
  JS.split_on sep (JS.join sep ls) = ls.
Proof.
  intros Hne Hall. induction Hall as [|l ls Hl Hls IH]; [contradiction|].
  destruct ls as [|l2 ls].
  - simpl. now apply split_on_no_sep.
  - change (JS.join sep (l :: l2 :: ls))
      with (l ++ sep :: JS.join sep (l2 :: ls)).
    rewrite split_on_app_sep by exact Hl.
    rewrite IH by discriminate. reflexivity.
Qed.

Lemma join_empty_only sep (ls : list JS.text) :
  ls <> [] -> JS.join sep ls = [] -> ls = [[]].
Proof.
  intros Hne Hj. destruct ls as [|l ls]; [contradiction|].
  destruct ls as [|l2 ls].
  - simpl in Hj. now subst.
  - change (JS.join sep (l :: l2 :: ls))
      with (l ++ sep :: JS.join sep (l2 :: ls)) in Hj.
    now destruct l.
Qed.

End SplitJoin.

Section TextareaTextProps.
Import Textarea.

(** The lines of a text never hold a line break. *)
Lemma split_on_pieces sep (s : JS.text) :
  Forall (fun l => sep ∉ l) (JS.split_on sep s).
Proof.
  induction s as [|c s IH]; simpl.
  - constructor; [apply not_elem_of_nil|constructor].
  - destruct (Ascii.eqb_spec c sep) as [->|Hne].
    + constructor; [apply not_elem_of_nil|exact IH].
    + destruct (JS.split_on sep s) as [|p ps].
      * constructor; [|constructor]. intros Hin.
        apply list_elem_of_singleton in Hin. congruence.
      * inversion IH as [|? ? Hp Hps]; subst. constructor; [|exact Hps].
        intros Hin. apply elem_of_cons in Hin as [Heq|Hin];
          [congruence|contradiction].
Qed.

Lemma lines_of_pieces v : Forall (fun l => JS.newline ∉ l) (lines_of v).
Proof.
  unfold lines_of. case_match; [apply split_on_pieces|].
  constructor; [apply not_elem_of_nil|constructor].
Qed.

(** Slices, reads and writes keep lines free of line breaks. *)
Lemma slice_no_newline (l : JS.text) a b :
  JS.newline ∉ l -> JS.newline ∉ JS.slice l a b.
Proof.
  intros Hn Hin. apply Hn. unfold JS.slice in Hin.
  apply (subseteq_take _ _), (subseteq_drop _ _) in Hin. exact Hin.
Qed.

Lemma get_no_newline (ls : list JS.text) i :
  Forall (fun l => JS.newline ∉ l) ls ->
  JS.newline ∉ JS.nullish (JS.get ls i) [].
Proof.
  intros Hall. unfold JS.get. destruct (i <? 0); [apply not_elem_of_nil|].
  destruct (ls !! Z.to_nat i) as [l|] eqn:E; [|apply not_elem_of_nil].
  exact (Forall_lookup_1 _ _ _ _ Hall E).
Qed.

Lemma set_no_newline (ls : list JS.text) i v :
  Forall (fun l => JS.newline ∉ l) ls -> JS.newline ∉ v ->
  Forall (fun l => JS.newline ∉ l) (JS.set [] ls i v).
Proof.
  intros Hall Hv. unfold JS.set. destruct (i <? 0); [exact Hall|].
  destruct (i <? JS.len ls); [now apply Forall_insert|].
  apply Forall_app. split; [exact Hall|].
  apply Forall_app. split.
  - apply Forall_replicate, not_elem_of_nil.
  - constructor; [exact Hv|constructor].
Qed.

Lemma splice_no_newline (ls : list JS.text) s d items :
  Forall (fun l => JS.newline ∉ l) ls ->
  Forall (fun l => JS.newline ∉ l) items ->
  Forall (fun l => JS.newline ∉ l) (JS.splice ls s d items).
Proof.
  intros Hall Hit. unfold JS.splice.
  apply Forall_app. split; [now apply Forall_take|].
  apply Forall_app. split; [exact Hit|now apply Forall_drop].
Qed.

Lemma app_no_newline (a b : JS.text) :
  JS.newline ∉ a -> JS.newline ∉ b -> JS.newline ∉ a ++ b.
Proof. intros Ha Hb Hin. apply elem_of_app in Hin as [?|?]; auto. Qed.

Lemma handleKey_no_newline t0 key :
  types_no_newline key ->
  Forall (fun l => JS.newline ∉ l) (_lines t0) ->
  Forall (fun l => JS.newline ∉ l) (_lines (handleKey t0 key).1).
Proof.
  intros Hkey Hall.
  pose proof (get_no_newline (_lines t0) (_cursorRow t0) Hall) as Hcur.
  fold (_currentLine t0) in Hcur.
  unfold handleKey.
  repeat (case_match; simpl; try exact Hall).
  - unfold _moveCursorLeft. repeat (case_match; simpl; try exact Hall).
  - unfold _moveCursorRight. repeat (case_match; simpl; try exact Hall).
  - unfold _moveCursorUp. repeat (case_match; simpl; try exact Hall).
  - unfold _moveCursorDown. repeat (case_match; simpl; try exact Hall).
  - unfold home. repeat (case_match; simpl; try exact Hall).
  - unfold _deleteBackward, set_line.
    repeat (case_match; simpl; try exact Hall).
    + apply set_no_newline; [exact Hall|].
      apply app_no_newline; now apply slice_no_newline.
    + apply splice_no_newline; [|constructor].
      apply set_no_newline; [exact Hall|].
      apply app_no_newline; [now apply get_no_newline|exact Hcur].
  - unfold _deleteForward, set_line.
    repeat (case_match; simpl; try exact Hall).
    + apply set_no_newline; [exact Hall|].
      apply app_no_newline; now apply slice_no_newline.
    + apply splice_no_newline; [|constructor].
      apply set_no_newline; [exact Hall|].
      apply app_no_newline; [exact Hcur|now apply get_no_newline].
  - apply splice_no_newline.
    + apply set_no_newline; [exact Hall|now apply slice_no_newline].
    + constructor; [now apply slice_no_newline|constructor].
  - apply set_no_newline; [exact Hall|].
    apply app_no_newline; [now apply slice_no_newline|].
    apply app_no_newline; [now apply Hkey|now apply slice_no_newline].
Qed.

(** X8: [getValue] right after the constructor or [setValue] returns
    the text that was given. *)
Theorem textarea_getValue_after_setValue w h init v :
  getValue (new w h init) = init /\
  getValue (setValue (new w h init) v) = v.
Proof.
  assert (Hj : forall s, JS.join JS.newline (lines_of s) = s).
  { intros s. unfold lines_of. destruct (Z.ltb_spec 0 (JS.len s)).
    - apply join_split_on.
    - destruct s; [reflexivity|]. unfold JS.len in *. simpl in *. lia. }
  split; apply Hj.
Qed.

(** X9: as long as no key types a line break, splitting the text of the
    editor at the line breaks gives exactly its lines: [setValue] of
    [getValue] is a round trip on the line list. *)
Theorem textarea_lines_round_trip w h init keys :
  Forall types_no_newline keys ->
  let t1 := handleKeys (new w h init) keys in
  lines_of (getValue t1) = _lines t1 /\
  _lines (setValue t1 (getValue t1)) = _lines t1.
Proof.
  intros Hkeys.
  assert (Hall : forall keys t0,
            Forall types_no_newline keys ->
            cursor_ok t0 -> Forall (fun l => JS.newline ∉ l) (_lines t0) ->
            cursor_ok (handleKeys t0 keys) /\
            Forall (fun l => JS.newline ∉ l) (_lines (handleKeys t0 keys))).
  { clear keys Hkeys. induction keys as [|k keys IH]; intros t0 Hk Hok Hnl.
    - split; assumption.
    - inversion Hk as [|? ? Hk1 Hk2]; subst.
      apply (IH (handleKey t0 k).1 Hk2).
      + now apply handleKey_ok.
      + now apply handleKey_no_newline. }
  destruct (Hall keys (new w h init) Hkeys (new_ok w h init)
              (lines_of_pieces init)) as [Hok Hnl].
  cbv zeta. set (t1 := handleKeys (new w h init) keys) in *.
  assert (Hne : _lines t1 <> []) by (destruct Hok as [Hne _]; exact Hne).
  assert (Hround : lines_of (getValue t1) = _lines t1).
  { unfold lines_of, getValue.
    destruct (Z.ltb_spec 0 (JS.len (JS.join JS.newline (_lines t1)))).
    - now apply split_on_join.
    - symmetry. apply (join_empty_only JS.newline); [exact Hne|].
      destruct (JS.join JS.newline (_lines t1)); [reflexivity|].
      unfold JS.len in *. simpl in *. lia. }
  split; exact Hround.
Qed.

End TextareaTextProps.

Lemma textarea_lines_round_trip_witness :
  let keys := [key_char "a"; key_named "return"; key_char "b"] in
  let t1 := Textarea.handleKeys (Textarea.new 12 5 (JS.of_string "x")) keys in
  Forall types_no_newline keys /\
  Textarea._lines t1 = [JS.of_string "a"; JS.of_string "bx"] /\
  Textarea.lines_of (Textarea.getValue t1) = Textarea._lines t1.
Proof.
  intros keys t1.
  assert (Hk : Forall types_no_newline keys).
  { repeat constructor; intros ch; vm_compute; intros [= <-];
      intros Hin; repeat (apply elem_of_cons in Hin as [Hin|Hin];
        [discriminate|]); now apply not_elem_of_nil in Hin. }
  split; [exact Hk|]. split; [reflexivity|].
  exact (proj1 (textarea_lines_round_trip 12 5 (JS.of_string "x") keys Hk)).
Defined.

(** The round trip needs the proviso: the key ["enter"] of the terminal
    carries the character ["\n"], which [handleKey] inserts into the
    current line like any other character. *)
Example textarea_enter_key_breaks_round_trip :
  let enter := mkKey (Some [JS.newline]) (Some "enter"%string) false false false in
  let t1 := Textarea.handleKeys (Textarea.new 12 5 []) [enter] in
  Textarea._lines t1 = [[JS.newline]] /\
  Textarea.lines_of (Textarea.getValue t1) = [[]; []].
Proof. vm_compute. split; reflexivity. Qed.

(** ** Textarea: the scroll window *)

Section TextareaWindowProps.
Import Textarea.

(** The window that [clampVertical] leaves when the cursor can be
    reached without scrolling past [maxScroll]. *)
Lemma clampVertical_window s cursor h maxScroll :
  0 <= cursor -> 1 <= h -> 0 <= maxScroll -> cursor <= maxScroll + h - 1 ->
  let s' := ScrollState.clampVertical s cursor h maxScroll in
  ScrollState.y s' <= cursor <= ScrollState.y s' + h - 1 /\
  0 <= ScrollState.y s' <= maxScroll.
Proof.
  intros Hc Hh Hm Hreach. unfold ScrollState.clampVertical; simpl.
  destruct (Z.ltb_spec cursor (ScrollState.y s));
    match goal with |- context [?a <=? ?b] => destruct (Z.leb_spec a b) end;
    lia.
Qed.

Lemma textarea_clampScroll_visible t0 :
  3 <= width t0 -> 3 <= height t0 ->
  0 <= _cursorRow t0 < JS.len (_lines t0) -> 0 <= _cursorCol t0 ->
  textarea_cursor_visible (_clampScroll t0).
Proof.
  intros Hw Hh Hr Hc.
  pose proof (clampVertical_window (_scroll t0) (_cursorRow t0) (ih t0)
                (Z.max 0 (JS.len (_lines t0) - ih t0))) as Hv.
  pose proof (clampHorizontal_window
                (ScrollState.clampVertical (_scroll t0) (_cursorRow t0) (ih t0)
                   (Z.max 0 (JS.len (_lines t0) - ih t0)))
                (_cursorCol t0) (iw t0)) as Hx.
  unfold ih, iw in *.
  unfold textarea_cursor_visible, _clampScroll, with_scroll, ih, iw.
  cbn [_scroll _cursorRow _cursorCol width height].
  split; [apply Hx; lia|].
  rewrite clampHorizontal_y. apply Hv; lia.
Qed.

(** Every branch of [handleKey] either reports the key as not consumed
    and returns the editor as it is, or ends in [_clampScroll]. *)
Lemma textarea_handleKey_shape t0 key :
  handleKey t0 key = (t0, false) \/
  exists t1, handleKey t0 key = (_clampScroll t1, true) /\
    width t1 = width t0 /\ height t1 = height t0 /\
    (cursor_ok t0 -> cursor_ok t1).
Proof.
  unfold handleKey.
  repeat (case_match; try (left; reflexivity));
    right; eexists; (split; [reflexivity|]).
  - split; [|split]; [| |apply moveCursorLeft_ok];
      unfold _moveCursorLeft; repeat case_match; reflexivity.
  - split; [|split]; [| |apply moveCursorRight_ok];
      unfold _moveCursorRight; repeat case_match; reflexivity.
  - split; [|split]; [| |apply moveCursorUp_ok];
      unfold _moveCursorUp; repeat case_match; reflexivity.
  - split; [|split]; [| |apply moveCursorDown_ok];
      unfold _moveCursorDown; repeat case_match; reflexivity.
  - split; [|split]; [| |apply home_ok];
      unfold home; repeat case_match; reflexivity.
  - split; [|split]; [| |apply end_ok];
      unfold end_; repeat case_match; reflexivity.
  - split; [|split]; [| |intros Hok; now apply notify_ok, deleteBackward_ok];
      unfold _deleteBackward; repeat case_match; reflexivity.
  - split; [|split]; [| |intros Hok; now apply notify_ok, deleteForward_ok];
      unfold _deleteForward; repeat case_match; reflexivity.
  - split; [|split]; [| |intros Hok; now apply notify_ok, insertNewline_ok];
      reflexivity.
  - split; [|split]; [reflexivity|reflexivity|].
    intros Hok. apply notify_ok, insertChar_ok; [|exact Hok].
    erewrite single_char_len by eassumption. lia.
Qed.

(** X10: in a [Textarea] of width and height at least 3 the cursor is
    always inside the viewport, whatever keys are typed: the scroll
    offsets satisfy [x <= col <= x + (width - 2) - 1] and
    [y <= row <= y + (height - 2) - 1]; hence the active-line hint the
    panel asks for lies in [1, height - 2], on a content row of the
    widget. *)
Theorem textarea_cursor_stays_visible w h init keys :
  3 <= w -> 3 <= h ->
  let t1 := handleKeys (new w h init) keys in
  (ScrollState.x (_scroll t1) <= _cursorCol t1
   <= ScrollState.x (_scroll t1) + (w - 2) - 1) /\
  (ScrollState.y (_scroll t1) <= _cursorRow t1
   <= ScrollState.y (_scroll t1) + (h - 2) - 1) /\
  1 <= activeLineHint t1 <= h - 2.
Proof.
  intros Hw Hh.
  assert (Hall : forall keys t0,
            width t0 = w -> height t0 = h ->
            cursor_ok t0 -> textarea_cursor_visible t0 ->
            width (handleKeys t0 keys) = w /\
            height (handleKeys t0 keys) = h /\
            textarea_cursor_visible (handleKeys t0 keys)).
  { clear keys. induction keys as [|k keys IH]; intros t0 Hw0 Hh0 Hok Hvis.
    - split; [|split]; assumption.
    - change (handleKeys t0 (k :: keys))
        with (handleKeys (handleKey t0 k).1 keys).
      pose proof (handleKey_ok t0 k Hok) as Hok'.
      destruct (textarea_handleKey_shape t0 k)
        as [E|(t1 & E & Hw1 & Hh1 & Hok1)]; rewrite E in *; simpl in *.
      + now apply IH.
      + apply IH;
          [change (width t1 = w); congruence
          |change (height t1 = h); congruence
          |exact Hok'|].
        specialize (Hok1 Hok). destruct Hok1 as (_ & Hr & line & _ & Hc).
        apply textarea_clampScroll_visible; lia. }
  destruct (Hall keys (new w h init) eq_refl eq_refl (new_ok w h init))
    as (Hw1 & Hh1 & (Hx & Hy)).
  { unfold textarea_cursor_visible, new, ih, iw. simpl. lia. }
  cbv zeta. unfold ih, iw, activeLineHint in *. rewrite Hw1 in Hx.
  rewrite Hh1 in Hy. repeat split; lia.
Qed.

End TextareaWindowProps.

Lemma textarea_cursor_stays_visible_witness :
  3 <= 6 /\ 3 <= 4 /\
  let t1 := Textarea.handleKeys (Textarea.new 6 4 (JS.of_string "hello world"))
              [key_named "end"; key_named "return"; key_named "return";
               key_char "x"] in
  (ScrollState.x (Textarea._scroll t1) <= Textarea._cursorCol t1
   <= ScrollState.x (Textarea._scroll t1) + (6 - 2) - 1) /\
  (ScrollState.y (Textarea._scroll t1) <= Textarea._cursorRow t1
   <= ScrollState.y (Textarea._scroll t1) + (4 - 2) - 1) /\
  1 <= Textarea.activeLineHint t1 <= 4 - 2.
Proof.
  split; [lia|]. split; [lia|].
  apply (textarea_cursor_stays_visible 6 4 (JS.of_string "hello world")
           [key_named "end"; key_named "return"; key_named "return";
            key_char "x"]); lia.
Defined.

(** ** Select *)

Section SelectProps.
Import Select.

Lemma select_handleKey_options s key : options (handleKey s key).1 = options s.
Proof. unfold handleKey. repeat (case_match; simpl; try reflexivity). Qed.

Lemma select_handleKey_range s key :
  1 <= JS.len (options s) ->
  0 <= _selected s <= JS.len (options s) - 1 ->
  0 <= _hovered s <= JS.len (options s) - 1 ->
  0 <= _selected (handleKey s key).1 <= JS.len (options s) - 1 /\
  0 <= _hovered (handleKey s key).1 <= JS.len (options s) - 1.
Proof.
  intros HN Hs Hh. unfold handleKey.
  repeat (case_match; simpl; try (split; assumption)); lia.
Qed.

(** X11: over a non-empty list of options, the committed and the
    hovered index of a [Select] are valid indices after the constructor
    (which clamps the initial index) and after any keys; [getValue] is
    the option at [getIndex], and the active-line hint is a row of the
    widget, [0 <= hint < lineCount]. *)
Theorem select_indices_in_range w opts initial keys :
  1 <= JS.len opts ->
  let s := handleKeys (new w opts initial) keys in
  options s = opts /\
  0 <= getIndex s <= JS.len opts - 1 /\
  0 <= _hovered s <= JS.len opts - 1 /\
  opts !! Z.to_nat (getIndex s) = Some (getValue s) /\
  0 <= activeLineHint s < lineCount s.
Proof.
  intros HN.
  assert (Hall : forall keys s,
            options s = opts ->
            0 <= _selected s <= JS.len opts - 1 ->
            0 <= _hovered s <= JS.len opts - 1 ->
            options (handleKeys s keys) = opts /\
            0 <= _selected (handleKeys s keys) <= JS.len opts - 1 /\
            0 <= _hovered (handleKeys s keys) <= JS.len opts - 1).
  { clear keys. induction keys as [|k keys IH]; intros s Ho Hs Hh.
    - simpl. split; [|split]; assumption.
    - apply (IH (handleKey s k).1).
      + rewrite select_handleKey_options. exact Ho.
      + rewrite <- Ho. apply select_handleKey_range; rewrite Ho; assumption.
      + rewrite <- Ho. apply select_handleKey_range; rewrite Ho; assumption. }
  destruct (Hall keys (new w opts initial)) as (Ho & Hs & Hh).
  - reflexivity.
  - unfold new; simpl. lia.
  - unfold new; simpl. lia.
  - cbv zeta. set (s := handleKeys (new w opts initial) keys) in *.
    unfold getIndex. repeat split; try assumption; try lia.
    + unfold getValue. rewrite Ho, get_inside by lia.
      destruct (lookup_inside opts (_selected s)) as [o Hopt]; [lia|].
      rewrite Hopt. reflexivity.
    + unfold activeLineHint. destruct (_open s); lia.
    + unfold activeLineHint, lineCount. rewrite Ho. destruct (_open s); lia.
Qed.

(** Keys that move the hover. *)
Lemma select_down_n s (n : nat) :
  _open s = true ->
  0 <= _hovered s <= JS.len (options s) - 1 ->
  let s' := handleKeys s (replicate n (key_named "down")) in
  _open s' = true /\ options s' = options s /\
  _selected s' = _selected s /\ changes s' = changes s /\
  _focused s' = _focused s /\ width s' = width s /\
  _hovered s' = Z.min (JS.len (options s) - 1) (_hovered s + Z.of_nat n).
Proof.
  revert s. induction n as [|n IH]; intros s Ho Hh.
  - simpl. repeat split; try reflexivity; try assumption. lia.
  - change (handleKeys s (replicate (S n) (key_named "down")))
      with (handleKeys (handleKey s (key_named "down")).1
              (replicate n (key_named "down"))).
    assert (E : (handleKey s (key_named "down")).1
                = with_hovered s (Z.min (JS.len (options s) - 1) (_hovered s + 1))).
    { unfold handleKey. rewrite Ho. reflexivity. }
    rewrite E.
    destruct (IH (with_hovered s (Z.min (JS.len (options s) - 1) (_hovered s + 1))))
      as (H1 & H2 & H3 & H4 & H5 & H6 & H7); [exact Ho|simpl; lia|].
    cbv zeta. rewrite H1, H2, H3, H4, H5, H6, H7. simpl.
    repeat split; try reflexivity. lia.
Qed.

(** Open, move down and commit or cancel, with keys that carry a name
    only. *)
Lemma select_open_move_bare s opener (n : nat) :
  _open s = false ->
  named opener "return" || named opener "space" = true ->
  0 <= _selected s <= JS.len (options s) - 1 ->
  let target := Z.min (JS.len (options s) - 1) (_selected s + Z.of_nat n) in
  let moved := handleKeys s (opener :: replicate n (key_named "down")) in
  let committed := (handleKey moved (key_named "return")).1 in
  let cancelled := (handleKey moved (key_named "escape")).1 in
  (_selected committed = target /\ _open committed = false /\
   changes committed
   = changes s ++ [(target, JS.nullish (JS.get (options s) target) [])]) /\
  (_selected cancelled = _selected s /\ _open cancelled = false /\
   changes cancelled = changes s).
Proof.
  intros Hclosed Hopener Hs. cbv zeta.
  change (handleKeys s (opener :: replicate n (key_named "down")))
    with (handleKeys (handleKey s opener).1 (replicate n (key_named "down"))).
  assert (E : (handleKey s opener).1
              = with_hovered (with_open s true) (_selected s)).
  { unfold handleKey. rewrite Hclosed, Hopener. reflexivity. }
  rewrite E.
  destruct (select_down_n (with_hovered (with_open s true) (_selected s)) n)
    as (H1 & H2 & H3 & H4 & H5 & H6 & H7); [reflexivity|exact Hs|].
  simpl in H2, H3, H4, H5, H6, H7.
  set (moved := handleKeys (with_hovered (with_open s true) (_selected s))
                  (replicate n (key_named "down"))) in *.
  split.
  - unfold handleKey. rewrite H1. simpl.
    unfold getValue. simpl. rewrite H2, H4, H7. repeat split.
  - unfold handleKey. rewrite H1. simpl. rewrite H3, H4. repeat split.
Qed.

(** [Select.handleKey] reads nothing of a key but its name. *)
Lemma select_handleKey_by_name s key key' :
  name key = name key' -> handleKey s key = handleKey s key'.
Proof. intros Hn. unfold handleKey, named. rewrite Hn. reflexivity. Qed.

Lemma select_handleKeys_down s (downs : list Key) :
  Forall (fun k => name k = Some "down"%string) downs ->
  handleKeys s downs = handleKeys s (replicate (length downs) (key_named "down")).
Proof.
  revert s. induction downs as [|k downs IH]; intros s Hd; [reflexivity|].
  apply Forall_cons in Hd. destruct Hd as [Hk Hd].
  change (handleKeys s (k :: downs)) with (handleKeys (handleKey s k).1 downs).
  rewrite (select_handleKey_by_name s k (key_named "down")) by exact Hk.
  rewrite (IH _ Hd). reflexivity.
Qed.

(** X12: opening a closed [Select] (with [Return] or [Space]), pressing
    [Down] [n] times and then [Return] commits the option
    [min(selected + n, N - 1)], closes the list and calls [onChange]
    once with that index and option; with [Escape] instead of the final
    [Return] the committed index stays as it was and [onChange] is not
    called.  The keys are any key events of these names, whatever
    characters and modifiers they carry. *)
Theorem select_open_move_commit s opener (downs : list Key) commit cancel :
  _open s = false ->
  named opener "return" || named opener "space" = true ->
  0 <= _selected s <= JS.len (options s) - 1 ->
  Forall (fun k => name k = Some "down"%string) downs ->
  name commit = Some "return"%string ->
  name cancel = Some "escape"%string ->
  let target := Z.min (JS.len (options s) - 1) (_selected s + JS.len downs) in
  let moved := handleKeys s (opener :: downs) in
  let committed := (handleKey moved commit).1 in
  let cancelled := (handleKey moved cancel).1 in
  (_selected committed = target /\ _open committed = false /\
   changes committed
   = changes s ++ [(target, JS.nullish (JS.get (options s) target) [])]) /\
  (_selected cancelled = _selected s /\ _open cancelled = false /\
   changes cancelled = changes s).
Proof.
  intros Hclosed Hopener Hs Hdowns Hcommit Hcancel. cbv zeta.
  change (handleKeys s (opener :: downs))
    with (handleKeys (handleKey s opener).1 downs).
  rewrite (select_handleKeys_down _ downs Hdowns).
  rewrite (select_handleKey_by_name _ commit (key_named "return")) by exact Hcommit.
  rewrite (select_handleKey_by_name _ cancel (key_named "escape")) by exact Hcancel.
  exact (select_open_move_bare s opener (length downs) Hclosed Hopener Hs).
Qed.

End SelectProps.

Lemma select_indices_in_range_witness :
  let opts := [JS.of_string "TypeScript"; JS.of_string "Rust"; JS.of_string "Go"] in
  let s := Select.handleKeys (Select.new 24 opts 7)
             [key_named "space"; key_named "up"; key_named "return"] in
  1 <= JS.len opts /\
  Select.options s = opts /\
  0 <= Select.getIndex s <= JS.len opts - 1 /\
  0 <= Select._hovered s <= JS.len opts - 1 /\
  opts !! Z.to_nat (Select.getIndex s) = Some (Select.getValue s) /\
  0 <= Select.activeLineHint s < Select.lineCount s.
Proof.
  intros opts s. split; [vm_compute; discriminate|].
  apply (select_indices_in_range 24 opts 7
           [key_named "space"; key_named "up"; key_named "return"]).
  vm_compute. discriminate.
Defined.

Lemma select_open_move_commit_witness :
  let opts := [JS.of_string "TypeScript"; JS.of_string "Rust"; JS.of_string "Go"] in
  let s := Select.new 24 opts 0 in
  let moved := Select.handleKeys s [key_space; key_down] in
  Select._open s = false /\
  0 <= Select._selected s <= JS.len (Select.options s) - 1 /\
  Forall (fun k => name k = Some "down"%string) [key_down] /\
  name key_return = Some "return"%string /\
  name key_escape = Some "escape"%string /\
  Select._selected (Select.handleKey moved key_return).1 = 1 /\
  Select.changes (Select.handleKey moved key_return).1
  = [(1, JS.of_string "Rust")] /\
  Select._selected (Select.handleKey moved key_escape).1 = 0.
Proof.
  intros opts s moved.
  assert (Hs : 0 <= Select._selected s <= JS.len (Select.options s) - 1)
    by (vm_compute; split; discriminate).
  assert (Hd : Forall (fun k => name k = Some "down"%string) [key_down])
    by (repeat constructor).
  split; [reflexivity|]. split; [exact Hs|]. split; [exact Hd|].
  split; [reflexivity|]. split; [reflexivity|].
  destruct (select_open_move_commit s key_space [key_down]
              key_return key_escape eq_refl eq_refl Hs Hd eq_refl eq_refl)
    as ((H1 & _ & H2) & (H3 & _)).
  repeat split; assumption.
Defined.

(** ** Radio and CheckBox *)

Section RadioProps.
Import Radio.

Lemma radio_handleKey_options r key : options (handleKey r key).1 = options r.
Proof. unfold handleKey. repeat (case_match; simpl; try reflexivity). Qed.

Lemma radio_handleKey_range r key :
  1 <= JS.len (options r) ->
  0 <= _selected r <= JS.len (options r) - 1 ->
  0 <= _hovered r <= JS.len (options r) - 1 ->
  0 <= _selected (handleKey r key).1 <= JS.len (options r) - 1 /\
  0 <= _hovered (handleKey r key).1 <= JS.len (options r) - 1.
Proof.
  intros HN Hs Hh. unfold handleKey.
  repeat (case_match; simpl; try (split; assumption)); lia.
Qed.

(** X13: over a non-empty list of options, the committed and the
    hovered index of a [Radio] list are valid indices after the
    constructor and after any keys; [getValue] is the option at
    [getIndex], and the active-line hint (the hovered row) is a row of
    the widget. *)
Theorem radio_indices_in_range opts initial keys :
  1 <= JS.len opts ->
  let r := handleKeys (new opts initial) keys in
  options r = opts /\
  0 <= getIndex r <= JS.len opts - 1 /\
  0 <= _hovered r <= JS.len opts - 1 /\
  opts !! Z.to_nat (getIndex r) = Some (getValue r) /\
  0 <= activeLineHint r < lineCount r.
Proof.
  intros HN.
  assert (Hall : forall keys r,
            options r = opts ->
            0 <= _selected r <= JS.len opts - 1 ->
            0 <= _hovered r <= JS.len opts - 1 ->
            options (handleKeys r keys) = opts /\
            0 <= _selected (handleKeys r keys) <= JS.len opts - 1 /\
            0 <= _hovered (handleKeys r keys) <= JS.len opts - 1).
  { clear keys. induction keys as [|k keys IH]; intros r Ho Hs Hh.
    - simpl. split; [|split]; assumption.
    - apply (IH (handleKey r k).1).
      + rewrite radio_handleKey_options. exact Ho.
      + rewrite <- Ho. apply radio_handleKey_range; rewrite Ho; assumption.
      + rewrite <- Ho. apply radio_handleKey_range; rewrite Ho; assumption. }
  destruct (Hall keys (new opts initial)) as (Ho & Hs & Hh).
  - reflexivity.
  - unfold new; simpl. lia.
  - unfold new; simpl. lia.
  - cbv zeta. set (r := handleKeys (new opts initial) keys) in *.
    unfold getIndex, activeLineHint, lineCount.
    repeat split; try assumption; try lia.
    + unfold getValue. rewrite Ho, get_inside by lia.
      destruct (lookup_inside opts (_selected r)) as [o Hopt]; [lia|].
      rewrite Hopt. reflexivity.
    + rewrite Ho. lia.
Qed.

End RadioProps.

Lemma radio_indices_in_range_witness :
  let opts := [JS.of_string "Light"; JS.of_string "Dark"; JS.of_string "System"] in
  let r := Radio.handleKeys (Radio.new opts 1)
             [key_named "down"; key_named "down"; key_named "return"] in
  1 <= JS.len opts /\
  Radio.options r = opts /\
  0 <= Radio.getIndex r <= JS.len opts - 1 /\
  0 <= Radio._hovered r <= JS.len opts - 1 /\
  opts !! Z.to_nat (Radio.getIndex r) = Some (Radio.getValue r) /\
  0 <= Radio.activeLineHint r < Radio.lineCount r.
Proof.
  intros opts r. split; [vm_compute; discriminate|].
  apply (radio_indices_in_range opts 1
           [key_named "down"; key_named "down"; key_named "return"]).
  vm_compute. discriminate.
Defined.

Section CheckBoxProps.
Import CheckBox.

(** X14: [n] presses of [Return] or [Space] leave a [CheckBox] checked
    as before when [n] is even and toggled when [n] is odd, and call
    [onChange] once per press. *)
Theorem checkbox_toggles c key (n : nat) :
  named key "return" || named key "space" = true ->
  let c' := handleKeys c (replicate n key) in
  isChecked c' = (if Nat.even n then isChecked c else negb (isChecked c)) /\
  length (changes c') = (length (changes c) + n)%nat /\
  label c' = label c /\ _focused c' = _focused c.
Proof.
  intros Hk. revert c. induction n as [|n IH]; intros c.
  - simpl. repeat split. lia.
  - change (handleKeys c (replicate (S n) key))
      with (handleKeys (handleKey c key).1 (replicate n key)).
    assert (E : (handleKey c key).1
                = mk (label c) (_focused c) (negb (_checked c))
                     (changes c ++ [negb (_checked c)])).
    { unfold handleKey. rewrite Hk. reflexivity. }
    rewrite E. cbv zeta in *.
    destruct (IH (mk (label c) (_focused c) (negb (_checked c))
                     (changes c ++ [negb (_checked c)])))
      as (H1 & H2 & H3 & H4).
    rewrite H1, H2, H3, H4. unfold isChecked. simpl _checked.
    rewrite Nat.even_succ, <- Nat.negb_even.
    cbn [changes label _focused]. rewrite length_app. simpl length.
    repeat split; [|lia].
    destruct (Nat.even n), (_checked c); reflexivity.
Qed.

End CheckBoxProps.

Lemma checkbox_toggles_witness :
  let c := CheckBox.new (JS.of_string "Remember me") false in
  let c' := CheckBox.handleKeys c (replicate 3 (key_named "space")) in
  named (key_named "space") "return" || named (key_named "space") "space" = true /\
  CheckBox.isChecked c' = true /\
  CheckBox.changes c' = [true; false; true].
Proof.
  intros c c'. split; [reflexivity|].
  destruct (checkbox_toggles c (key_named "space") 3 eq_refl) as (H1 & _).
  split; [exact H1|reflexivity].
Defined.

(** ** Keys a widget does not consume *)

Section Unconsumed.

(** X15: a key that a leaf widget reports as not consumed has not
    changed the widget, so that the panel can act on it instead; and
    [Tab] is never consumed by any of [Input], [Textarea], [Select],
    [Radio] and [CheckBox]. *)
Theorem unconsumed_key_changes_nothing (key : Key) :
  ((forall i, (Input.handleKey i key).2 = false -> (Input.handleKey i key).1 = i) /\
   (forall t0, (Textarea.handleKey t0 key).2 = false ->
               (Textarea.handleKey t0 key).1 = t0) /\
   (forall s, (Select.handleKey s key).2 = false -> (Select.handleKey s key).1 = s) /\
   (forall r, (Radio.handleKey r key).2 = false -> (Radio.handleKey r key).1 = r) /\
   (forall c, (CheckBox.handleKey c key).2 = false ->
              (CheckBox.handleKey c key).1 = c))
  /\
  (name key = Some "tab"%string ->
   (forall i, (Input.handleKey i key).2 = false) /\
   (forall t0, (Textarea.handleKey t0 key).2 = false) /\
   (forall s, (Select.handleKey s key).2 = false) /\
   (forall r, (Radio.handleKey r key).2 = false) /\
   (forall c, (CheckBox.handleKey c key).2 = false)).
Proof.
  split.
  - repeat split.
    + intros i. unfold Input.handleKey.
      repeat (case_match; simpl; try discriminate); reflexivity.
    + intros t0. unfold Textarea.handleKey.
      repeat (case_match; simpl; try discriminate); reflexivity.
    + intros s. unfold Select.handleKey.
      repeat (case_match; simpl; try discriminate); reflexivity.
    + intros r. unfold Radio.handleKey.
      repeat (case_match; simpl; try discriminate); reflexivity.
    + intros c. unfold CheckBox.handleKey.
      repeat (case_match; simpl; try discriminate); reflexivity.
  - intros Htab.
    assert (Hn : forall s, s <> "tab"%string -> named key s = false).
    { intros s Hs. rewrite (named_known key s _ Htab).
      apply bool_decide_eq_false_2. congruence. }
    assert (Ht : named key "tab" = true).
    { rewrite (named_known key _ _ Htab). now apply bool_decide_eq_true_2. }
    repeat split.
    + intros i. unfold Input.handleKey.
      rewrite !Hn by discriminate. rewrite Ht. reflexivity.
    + intros t0. unfold Textarea.handleKey. rewrite Ht. reflexivity.
    + intros s. unfold Select.handleKey.
      rewrite !Hn by discriminate. destruct (Select._open s); reflexivity.
    + intros r. unfold Radio.handleKey.
      rewrite !Hn by discriminate. reflexivity.
    + intros c. unfold CheckBox.handleKey.
      rewrite !Hn by discriminate. reflexivity.
Qed.

End Unconsumed.

Lemma unconsumed_key_changes_nothing_witness :
  name (key_named "tab") = Some "tab"%string /\
  (Input.handleKey (Input.new 10) (key_named "tab")).2 = false /\
  (Select.handleKey (Select.with_open (Select.new 10 [JS.of_string "a"] 0) true)
     (key_named "tab")).2 = false.
Proof.
  split; [reflexivity|].
  destruct (proj2 (unconsumed_key_changes_nothing (key_named "tab")) eq_refl)
    as (H1 & _ & H3 & _).
  split; [apply H1|apply H3].
Defined.

(** ** FocusManager: focus and blur come in pairs *)

Section FocusPairing.
Context {W : Type} `{IFocusTarget W}.
Hypothesis blur_clears : forall w : W, isFocused (blur w) = false.
Import FocusManager.

(** Blurring the current target leaves no known target focused. *)
Lemma blurActive_none_focused (h : list W) (fm : t) :
  focus_exclusive h fm ->
  forall a w, a ∈ _focusables fm -> _blurActive h fm !! a = Some w ->
              isFocused w = false.
Proof.
  intros Hex a w Ha Hw. unfold _blurActive, call in Hw.
  destruct (current fm) as [c|] eqn:Hc.
  - destruct (decide (c = a)) as [->|Hne].
    + rewrite list_lookup_alter_eq in Hw.
      destruct (h !! a) as [w0|]; simpl in Hw; [|discriminate].
      injection Hw as <-. apply blur_clears.
    + rewrite list_lookup_alter_ne in Hw by exact Hne.
      destruct (isFocused w) eqn:Hf; [|reflexivity].
      pose proof (Hex a w Ha Hw Hf). congruence.
  - destruct (isFocused w) eqn:Hf; [|reflexivity].
    pose proof (Hex a w Ha Hw Hf). congruence.
Qed.

(** Focusing the new current target of a store without focused targets
    leaves that one the only focused one. *)
Lemma focus_current_exclusive (h : list W) (fm : t) :
  (forall a w, a ∈ _focusables fm -> h !! a = Some w -> isFocused w = false) ->
  focus_exclusive (call focus (current fm) h) fm.
Proof.
  intros Hnone a w Ha Hw Hf. unfold call in Hw.
  destruct (current fm) as [c|] eqn:Hc.
  - destruct (decide (c = a)) as [->|Hne]; [reflexivity|].
    rewrite list_lookup_alter_ne in Hw by exact Hne.
    rewrite (Hnone a w Ha Hw) in Hf. discriminate.
  - rewrite (Hnone a w Ha Hw) in Hf. discriminate.
Qed.

Lemma apply_exclusive (s : list W * t) (o : op) :
  focus_exclusive s.1 s.2 -> focus_exclusive (apply s o).1 (apply s o).2.
Proof.
  destruct s as [h fm]. intros Hex. simpl in Hex.
  pose proof (blurActive_none_focused h fm Hex) as Hnone.
  assert (HfocusAt : forall i, focus_exclusive (focusAt h fm i).1 (focusAt h fm i).2).
  { intros i. unfold focusAt. simpl.
    apply (focus_current_exclusive (_blurActive h fm)
             (mk (Z.max 0 (Z.min i (JS.len (_focusables fm) - 1)))
                 (_focusables fm))).
    exact Hnone. }
  destruct o as [i|d| |]; simpl.
  - apply HfocusAt.
  - unfold cycle. destruct (JS.len (_focusables fm) =? 0); [exact Hex|].
    simpl.
    apply (focus_current_exclusive (_blurActive h fm)
             (mk (Z.rem (_idx fm + step_of d + JS.len (_focusables fm))
                    (JS.len (_focusables fm)))
                 (_focusables fm))).
    exact Hnone.
  - unfold clear. simpl. intros a w Ha Hw Hf.
    rewrite (Hnone a w Ha Hw) in Hf. discriminate.
  - unfold initFirst. case_match; [apply HfocusAt|exact Hex].
Qed.

(** X16: focus and blur come in pairs.  For targets whose [blur] clears
    the focus flag (as every widget's does): if no target is focused when
    the manager is created, then after any sequence of [focusAt],
    [cycle], [clear] and [initFirst] at most one of its targets is
    focused, and that one is the current target; right after [clear] no
    target is focused. *)
Theorem focus_is_exclusive (h : list W) (focusables : list nat) (script : list op) :
  (forall a w, a ∈ focusables -> h !! a = Some w -> isFocused w = false) ->
  let s := run (h, new focusables) script in
  focus_exclusive s.1 s.2 /\
  (forall a w, a ∈ focusables -> (clear s.1 s.2).1 !! a = Some w ->
               isFocused w = false).
Proof.
  intros Hnone.
  assert (Hall : forall script s,
            focus_exclusive s.1 s.2 ->
            focus_exclusive (run s script).1 (run s script).2).
  { clear script. induction script as [|o script IH]; intros s Hs; [exact Hs|].
    apply (IH (apply s o)). now apply apply_exclusive. }
  assert (Hstart : focus_exclusive (h, new focusables).1 (h, new focusables).2).
  { intros a w Ha Hw Hf. simpl in *. rewrite (Hnone a w Ha Hw) in Hf.
    discriminate. }
  pose proof (Hall script _ Hstart) as Hex.
  cbv zeta. split; [exact Hex|].
  intros a w Ha Hw. unfold clear in Hw. simpl in Hw.
  apply (blurActive_none_focused _ _ Hex a w); [|exact Hw].
  rewrite run_focusables. exact Ha.
Qed.

End FocusPairing.

Lemma focus_is_exclusive_witness :
  let h := [FInput (Input.new 8); FCheckBox (CheckBox.new [] false);
            FSelect (Select.new 8 [JS.of_string "a"] 0)] in
  let script := [FocusManager.InitFirst; FocusManager.Cycle Forward;
                 FocusManager.FocusAt 9] in
  let s := FocusManager.run (h, FocusManager.new [0; 1; 2]%nat) script in
  (forall a w, a ∈ [0; 1; 2]%nat -> h !! a = Some w -> isFocused w = false) /\
  focus_exclusive s.1 s.2 /\
  FocusManager.current s.2 = Some 2%nat /\
  (isFocused <$> s.1) = [false; false; true].
Proof.
  intros h script s.
  assert (Hnone : forall a w, a ∈ [0; 1; 2]%nat -> h !! a = Some w ->
                              isFocused w = false).
  { intros a w Ha Hw.
    repeat (apply elem_of_cons in Ha as [->|Ha];
            [injection Hw as <-; reflexivity|]).
    now apply elem_of_nil in Ha. }
  split; [exact Hnone|].
  split; [|split; reflexivity].
  refine (proj1 (focus_is_exclusive _ h [0; 1; 2]%nat script Hnone)).
  intros [i|t0|s0|r|c]; reflexivity.
Defined.

(** ** Container: auto-scroll and key routing *)

Section ContainerMoreProps.
Context {W : Type} `{IDimensional W, IFocusTarget W, IKeyConsumer W}.
Import Container.

Lemma rows_nonneg (l : list W) :
  Forall (fun w => 0 <= lineCount w) l ->
  0 <= fold_left (fun s w => s + lineCount w) l 0.
Proof.
  induction 1 as [|w l Hw _ IH]; simpl; [lia|].
  rewrite rows_from. lia.
Qed.

Lemma rows_app (l1 l2 : list W) :
  fold_left (fun s w => s + lineCount w) (l1 ++ l2) 0
  = fold_left (fun s w => s + lineCount w) l1 0
    + fold_left (fun s w => s + lineCount w) l2 0.
Proof. rewrite fold_left_app, rows_from. reflexivity. Qed.

(** The rows of a child lie inside the content: its offset is not
    negative, and offset plus row count does not exceed the total. *)
Lemma offset_bounds (c : t W) (target : nat) (child : W) :
  Forall (fun w => 0 <= lineCount w) (children c) ->
  children c !! target = Some child ->
  0 <= offset_of c target /\
  offset_of c target + lineCount child <= _totalLines c.
Proof.
  intros Hall Hch. unfold offset_of, _totalLines.
  rewrite <- (take_drop_middle (children c) target child Hch) at 3.
  rewrite rows_app. simpl. rewrite (rows_from _ (0 + lineCount child)).
  pose proof (rows_nonneg (take target (children c))
                ltac:(now apply Forall_take)).
  pose proof (rows_nonneg (drop (S target) (children c))
                ltac:(now apply Forall_drop)).
  lia.
Qed.

(** X17: the auto-scroll step brings the line the focused child asks
    for into the viewport.  When the viewport has at least one row, no
    child has a negative row count, and the active-line hint is a row of
    the child that fits the viewport ([0 <= hint < ih] and
    [hint < lineCount]), then after [_scrollToFocused] the target line
    [offset + hint] satisfies [scrollY <= target <= scrollY + ih - 1];
    and whenever the step moves the viewport, it does not move it past
    the top row of the child. *)
Theorem scrollToFocused_shows_target (c : t W) (target : nat) (child : W) :
  FocusManager.current (_focus c) = Some target ->
  children c !! target = Some child ->
  1 <= ih c ->
  Forall (fun w => 0 <= lineCount w) (children c) ->
  0 <= JS.nullish (activeLineHint child) 0 < ih c ->
  JS.nullish (activeLineHint child) 0 < lineCount child ->
  let line := offset_of c target + JS.nullish (activeLineHint child) 0 in
  let y' := ScrollState.y (_scroll (_scrollToFocused c)) in
  (y' <= line <= y' + ih c - 1) /\
  (y' <> ScrollState.y (_scroll c) -> 0 <= y' <= offset_of c target).
Proof.
  intros Hcur Hch Hih Hall Hhint Hrow. cbv zeta.
  destruct (offset_bounds c target child Hall Hch) as [Hoff Htot].
  rewrite (scrollToFocused_y c target child Hcur Hch).
  unfold _maxScrollY.
  set (off := offset_of c target) in *.
  set (hint := JS.nullish (activeLineHint child) 0) in *.
  set (y := ScrollState.y (_scroll c)).
  destruct (Z.ltb_spec (off + hint) y).
  - split; lia.
  - destruct (Z.leb_spec (y + ih c) (off + hint)); split; lia.
Qed.

(** The auto-scroll step only touches the scroll state. *)
Lemma scan_keeps (c : t W) (target : nat) (rest : list W) :
  forall pos off,
    state (scan c target pos rest off) = state c /\
    _focus (scan c target pos rest off) = _focus c /\
    children (scan c target pos rest off) = children c.
Proof.
  induction rest as [|w rest IH]; intros pos off; simpl;
    [repeat split|].
  destruct (Nat.eqb pos target); [|apply IH].
  unfold scroll_to. repeat case_match; repeat split.
Qed.

Lemma scrollToFocused_keeps (c : t W) :
  state (_scrollToFocused c) = state c /\
  _focus (_scrollToFocused c) = _focus c /\
  children (_scrollToFocused c) = children c.
Proof.
  unfold _scrollToFocused.
  destruct (FocusManager.current (_focus c)); [apply scan_keeps|repeat split].
Qed.

(** X18: in focus mode [Tab] moves the focus to the next focusable
    child and [Shift+Tab] to the previous one, cyclically, provided the
    focused child leaves the key to the panel (as every leaf widget
    does with [Tab]); the panel stays in focus mode. *)
Theorem container_tab_cycles_focus (c : t W) (key : Key) :
  state c = StFocus ->
  named key "tab" = true ->
  (forall a w, FocusManager.current (_focus c) = Some a ->
               children c !! a = Some w -> consumeKey w key = (w, false)) ->
  0 <= FocusManager.index (_focus c)
  < JS.len (FocusManager._focusables (_focus c)) ->
  let c' := handleKey c key in
  state c' = StFocus /\
  FocusManager._focusables (_focus c') = FocusManager._focusables (_focus c) /\
  FocusManager.index (_focus c')
  = (FocusManager.index (_focus c) + (if shift key then -1 else 1))
    mod JS.len (FocusManager._focusables (_focus c)).
Proof.
  intros Hst Htab Hpass Hidx. cbv zeta.
  unfold handleKey. rewrite Hst. unfold _handleFocusMode. cbv zeta.
  assert (Hdel : (match FocusManager.current (_focus c) with
                  | Some a =>
                      match children c !! a with
                      | Some w =>
                          (with_children c
                             (<[a := (consumeKey w key).1]> (children c)),
                           (consumeKey w key).2)
                      | None => (c, false)
                      end
                  | None => (c, false)
                  end) = (c, false)).
  { destruct (FocusManager.current (_focus c)) as [a|] eqn:Ha; [|reflexivity].
    destruct (children c !! a) as [w|] eqn:Hw; [|reflexivity].
    rewrite (Hpass a w eq_refl Hw). simpl.
    rewrite list_insert_id by exact Hw. destruct c; reflexivity. }
  rewrite Hdel. cbn [fst snd]. rewrite Htab.
  set (d := if shift key then Backward else Forward).
  destruct (cycle_index (children c) (_focus c) d Hidx) as [Hi Hf].
  destruct (scrollToFocused_keeps
              (with_focus c (FocusManager.cycle (children c) (_focus c) d)))
    as (-> & -> & _).
  simpl. rewrite Hst, Hf, Hi. repeat split.
  unfold d. destruct (shift key); reflexivity.
Qed.

(** X19: [Escape] zooms out in two steps.  In focus mode with a focused
    child that leaves the key to the panel, the first [Escape] clears
    the focus and keeps the panel in focus mode; the second one brings
    the panel back to the selected state. *)
Theorem container_escape_zooms_out (c : t W) (key : Key) :
  state c = StFocus ->
  named key "escape" = true ->
  (forall a w, FocusManager.current (_focus c) = Some a ->
               children c !! a = Some w -> consumeKey w key = (w, false)) ->
  FocusManager.hasFocus (_focus c) = true ->
  let c1 := handleKey c key in
  let c2 := handleKey c1 key in
  (state c1 = StFocus /\ FocusManager.index (_focus c1) = -1 /\
   _scroll c1 = _scroll c) /\
  (state c2 = StSelect /\ FocusManager.index (_focus c2) = -1 /\
   children c2 = children c1 /\ _scroll c2 = _scroll c).
Proof.
  intros Hst Hesc Hpass Hfoc. cbv zeta.
  assert (Hnt : named key "tab" = false).
  { unfold named in *. apply bool_decide_eq_true in Hesc.
    apply bool_decide_eq_false_2. rewrite Hesc. discriminate. }
  assert (E1 : handleKey c key
               = with_focus c (FocusManager.clear (children c) (_focus c))).
  { unfold handleKey. rewrite Hst. unfold _handleFocusMode. cbv zeta.
    assert (Hdel : (match FocusManager.current (_focus c) with
                    | Some a =>
                        match children c !! a with
                        | Some w =>
                            (with_children c
                               (<[a := (consumeKey w key).1]> (children c)),
                             (consumeKey w key).2)
                        | None => (c, false)
                        end
                    | None => (c, false)
                    end) = (c, false)).
    { destruct (FocusManager.current (_focus c)) as [a|] eqn:Ha; [|reflexivity].
      destruct (children c !! a) as [w|] eqn:Hw; [|reflexivity].
      rewrite (Hpass a w eq_refl Hw). simpl.
      rewrite list_insert_id by exact Hw. destruct c; reflexivity. }
    rewrite Hdel. cbn [fst snd]. rewrite Hnt, Hesc, Hfoc. reflexivity. }
  rewrite E1.
  set (c1 := with_focus c (FocusManager.clear (children c) (_focus c))).
  assert (Hst1 : state c1 = StFocus) by exact Hst.
  split; [repeat split; exact Hst|].
  unfold handleKey. rewrite Hst1. unfold _handleFocusMode. cbv zeta.
  change (FocusManager.current (_focus c1)) with (@None nat).
  cbn [fst snd]. rewrite Hnt, Hesc.
  change (FocusManager.hasFocus (_focus c1)) with false.
  cbn iota. repeat split.
Qed.

End ContainerMoreProps.

Lemma scrollToFocused_shows_target_witness :
  let c := Container.mk 32 8 demo_children StFocus (ScrollState.mk 0 17)
             (FocusManager.mk 0 [10; 21]%nat) in
  let y' := ScrollState.y (Container._scroll (Container._scrollToFocused c)) in
  1 <= Container.ih c /\
  Container.children c !! 10%nat = Some (WInput (Input.new 24)) /\
  y' = 10 /\
  y' <= Container.offset_of c 10 + 0 <= y' + Container.ih c - 1.
Proof.
  intros c y'.
  assert (Hall : Forall (fun w => 0 <= lineCount w) (Container.children c)).
  { repeat (constructor; [vm_compute; discriminate|]). constructor. }
  split; [vm_compute; discriminate|]. split; [reflexivity|].
  split; [reflexivity|].
  refine (proj1 (scrollToFocused_shows_target c 10 (WInput (Input.new 24))
                   eq_refl eq_refl _ Hall _ _));
    vm_compute; repeat split; discriminate.
Defined.

Lemma container_tab_cycles_focus_witness :
  let c := Container.handleKeys demo_panel [key_named "return"] in
  let c' := Container.handleKey c (key_named "tab") in
  Container.state c = StFocus /\
  FocusManager.index (Container._focus c) = 0 /\
  Container.state c' = StFocus /\
  FocusManager.index (Container._focus c') = 1.
Proof.
  intros c c'. split; [reflexivity|]. split; [reflexivity|].
  assert (Hpass : forall a w,
            FocusManager.current (Container._focus c) = Some a ->
            Container.children c !! a = Some w ->
            consumeKey w (key_named "tab") = (w, false)).
  { intros a w [= <-] [= <-]. reflexivity. }
  assert (Hidx : 0 <= FocusManager.index (Container._focus c)
                 < JS.len (FocusManager._focusables (Container._focus c)))
    by (vm_compute; split; [discriminate|reflexivity]).
  destruct (container_tab_cycles_focus c (key_named "tab") eq_refl eq_refl
              Hpass Hidx) as (H1 & _ & H2).
  split; [exact H1|exact H2].
Defined.

Lemma container_escape_zooms_out_witness :
  let c := Container.handleKeys demo_panel [key_named "return"] in
  let c1 := Container.handleKey c (key_named "escape") in
  let c2 := Container.handleKey c1 (key_named "escape") in
  FocusManager.hasFocus (Container._focus c) = true /\
  Container.state c1 = StFocus /\
  FocusManager.index (Container._focus c1) = -1 /\
  Container.state c2 = StSelect.
Proof.
  intros c c1 c2. split; [reflexivity|].
  assert (Hpass : forall a w,
            FocusManager.current (Container._focus c) = Some a ->
            Container.children c !! a = Some w ->
            consumeKey w (key_named "escape") = (w, false)).
  { intros a w [= <-] [= <-]. reflexivity. }
  destruct (container_escape_zooms_out c (key_named "escape") eq_refl eq_refl
              Hpass eq_refl) as ((H1 & H2 & _) & (H3 & _)).
  repeat split; assumption.
Defined.

(** ** ContainerGroup *)

Section ContainerGroupProps.
Context {W : Type} `{IDimensional W, IFocusTarget W, IKeyConsumer W}.
Import ContainerGroup.

(** A panel in the default state ignores every key. *)
Lemma container_default_ignores (c : Container.t W) key :
  Container.state c = StDefault -> Container.handleKey c key = c.
Proof. intros Hs. unfold Container.handleKey. rewrite Hs. reflexivity. Qed.

(** A selected or active panel never falls back to the default state on
    its own. *)
Lemma container_stays_engaged (c : Container.t W) key :
  Container.state c <> StDefault ->
  Container.state (Container.handleKey c key) <> StDefault.
Proof.
  intros Hs. unfold Container.handleKey.
  destruct (Container.state c) eqn:Est; [contradiction| |].
  - case_match; [|rewrite Est; discriminate].
    destruct (scrollToFocused_keeps
                (Container.with_focus (Container.setState c StFocus)
                   (FocusManager.initFirst
                      (Container.children (Container.setState c StFocus))
                      (Container._focus (Container.setState c StFocus)))))
      as (-> & _). simpl. discriminate.
  - unfold Container._handleFocusMode. cbv zeta.
    set (delegated := match FocusManager.current (Container._focus c) with
                      | Some a => _ | None => _ end).
    assert (Hd : Container.state delegated.1 = StFocus).
    { unfold delegated.
      destruct (FocusManager.current (Container._focus c)); [|exact Est].
      destruct (Container.children c !! n); exact Est. }
    repeat case_match;
      try (match goal with
           | |- context [Container._scrollToFocused ?x] =>
               destruct (scrollToFocused_keeps x) as (-> & _)
           end);
      simpl; rewrite ?Hd; discriminate.
Qed.

(** [findIndex] finds nothing exactly when no panel is active, and
    otherwise points at an active panel. *)
Lemma findIndex_from_spec (cs : list (Container.t W)) :
  forall pos, 0 <= pos ->
    (findIndex_from pos cs = -1 /\
     forall (i : nat) c, cs !! i = Some c -> Container.state c <> StFocus)
    \/
    (exists (k : nat) c,
        findIndex_from pos cs = pos + Z.of_nat k /\
        cs !! k = Some c /\ Container.state c = StFocus).
Proof.
  induction cs as [|c cs IH]; intros pos Hpos.
  - left. split; [reflexivity|]. intros i c Hc. discriminate.
  - simpl. unfold Container.getState.
    destruct (Container.state c) eqn:Est; simpl.
    + destruct (IH (pos + 1)) as [[E Hnone]|(k & c' & E & Hk & Hf)]; [lia| |].
      * left. split; [exact E|]. intros [|i] c' Hc; simpl in Hc.
        -- injection Hc as <-. rewrite Est. discriminate.
        -- now apply (Hnone i).
      * right. exists (S k), c'. split; [rewrite E; lia|]. split; assumption.
    + destruct (IH (pos + 1)) as [[E Hnone]|(k & c' & E & Hk & Hf)]; [lia| |].
      * left. split; [exact E|]. intros [|i] c' Hc; simpl in Hc.
        -- injection Hc as <-. rewrite Est. discriminate.
        -- now apply (Hnone i).
      * right. exists (S k), c'. split; [rewrite E; lia|]. split; assumption.
    + right. exists 0%nat, c. split; [lia|]. split; [reflexivity|exact Est].
Qed.

Lemma set_state_inside (cs : list (Container.t W)) i s :
  0 <= i < JS.len cs ->
  exists c, cs !! Z.to_nat i = Some c /\
    set_state cs i s = Ok (<[Z.to_nat i := Container.setState c s]> cs).
Proof.
  intros Hi. destruct (lookup_inside cs i Hi) as [c Hc].
  exists c. split; [exact Hc|].
  unfold set_state. rewrite get_inside by lia. rewrite Hc. reflexivity.
Qed.

(** Moving the selection to a valid index keeps the group consistent. *)
Lemma moveSel_ok (g : t W) i :
  group_ok g -> 0 <= i < JS.len (containers g) ->
  exists g', _moveSel g i = Ok g' /\ group_ok g' /\
    JS.len (containers g') = JS.len (containers g) /\ _sel g' = i /\
    (exists c, containers g' !! Z.to_nat i = Some c /\
               Container.state c = StSelect).
Proof.
  intros (Hsel & Hothers & Hat) Hi. unfold _moveSel, deselect.
  assert (Hcs1 : exists cs1,
            (if 0 <=? _sel g then set_state (containers g) (_sel g) StDefault
             else Ok (containers g)) = Ok cs1 /\
            JS.len cs1 = JS.len (containers g) /\
            forall (k : nat) c, cs1 !! k = Some c -> Container.state c = StDefault).
  { destruct (Z.leb_spec 0 (_sel g)).
    - destruct (set_state_inside (containers g) (_sel g) StDefault)
        as (c & Hc & ->); [lia|].
      eexists. split; [reflexivity|]. split; [apply len_insert|].
      intros k c' Hk.
      destruct (decide (Z.to_nat (_sel g) = k)) as [<-|Hne].
      + rewrite list_lookup_insert_eq in Hk
          by (apply lookup_lt_Some in Hc; exact Hc).
        injection Hk as <-. reflexivity.
      + rewrite list_lookup_insert_ne in Hk by exact Hne.
        apply (Hothers k c' Hk). lia.
    - eexists. split; [reflexivity|]. split; [reflexivity|].
      intros k c Hk. apply (Hothers k c Hk). lia. }
  destruct Hcs1 as (cs1 & -> & Hlen1 & Hdef1). simpl.
  destruct (set_state_inside cs1 i StSelect) as (c & Hc & ->); [lia|].
  simpl. eexists. split; [reflexivity|].
  pose proof (lookup_lt_Some _ _ _ Hc) as Hlt.
  split; [|split; [|split]].
  - split; [|split]; simpl.
    + rewrite len_insert. lia.
    + intros k c' Hk Hne.
      rewrite list_lookup_insert_ne in Hk by lia.
      now apply (Hdef1 k).
    + intros c'. rewrite get_inside by lia.
      rewrite list_lookup_insert_eq by exact Hlt.
      intros [= <-]. simpl. discriminate.
  - simpl. rewrite len_insert. exact Hlen1.
  - reflexivity.
  - simpl. eexists. split; [apply list_lookup_insert_eq; exact Hlt|reflexivity].
Qed.

Lemma clearSel_ok (g : t W) :
  group_ok g ->
  exists g', _clearSel g = Ok g' /\ group_ok g' /\
    JS.len (containers g') = JS.len (containers g) /\ _sel g' = -1 /\
    (forall (k : nat) c, containers g' !! k = Some c ->
                         Container.state c = StDefault).
Proof.
  intros (Hsel & Hothers & Hat). unfold _clearSel, deselect.
  assert (Hcs1 : exists cs1,
            (if 0 <=? _sel g then set_state (containers g) (_sel g) StDefault
             else Ok (containers g)) = Ok cs1 /\
            JS.len cs1 = JS.len (containers g) /\
            forall (k : nat) c, cs1 !! k = Some c -> Container.state c = StDefault).
  { destruct (Z.leb_spec 0 (_sel g)).
    - destruct (set_state_inside (containers g) (_sel g) StDefault)
        as (c & Hc & ->); [lia|].
      eexists. split; [reflexivity|]. split; [apply len_insert|].
      intros k c' Hk.
      destruct (decide (Z.to_nat (_sel g) = k)) as [<-|Hne].
      + rewrite list_lookup_insert_eq in Hk
          by (apply lookup_lt_Some in Hc; exact Hc).
        injection Hk as <-. reflexivity.
      + rewrite list_lookup_insert_ne in Hk by exact Hne.
        apply (Hothers k c' Hk). lia.
    - eexists. split; [reflexivity|]. split; [reflexivity|].
      intros k c Hk. apply (Hothers k c Hk). lia. }
  destruct Hcs1 as (cs1 & -> & Hlen1 & Hdef1). simpl.
  eexists. split; [reflexivity|]. split; [|split; [|split]].
  - split; [|split]; simpl.
    + pose proof (len_nonneg cs1). lia.
    + intros k c Hk _. now apply (Hdef1 k).
    + intros c Hc. rewrite get_negative in Hc by lia. discriminate.
  - exact Hlen1.
  - reflexivity.
  - exact Hdef1.
Qed.

(** Forwarding a key to the panel the selection points at keeps the
    group consistent. *)
Lemma forward_ok (g : t W) key :
  group_ok g -> 0 <= _sel g ->
  exists g', forward g (_sel g) key = Ok g' /\ group_ok g' /\
    JS.len (containers g') = JS.len (containers g) /\ _sel g' = _sel g.
Proof.
  intros (Hsel & Hothers & Hat) Hpos. unfold forward.
  destruct (lookup_inside (containers g) (_sel g)) as [c Hc]; [lia|].
  pose proof (lookup_lt_Some _ _ _ Hc) as Hlt.
  rewrite get_inside by lia. rewrite Hc.
  eexists. split; [reflexivity|]. split; [|split].
  - split; [|split]; simpl.
    + rewrite len_insert. exact Hsel.
    + intros k c' Hk Hne.
      rewrite list_lookup_insert_ne in Hk by lia.
      now apply (Hothers k).
    + intros c'. rewrite get_inside by lia.
      rewrite list_lookup_insert_eq by exact Hlt.
      intros [= <-]. apply container_stays_engaged.
      apply Hat. rewrite get_inside by lia. exact Hc.
  - simpl. apply len_insert.
  - reflexivity.
Qed.

Lemma group_handleKey_ok (g : t W) key :
  1 <= JS.len (containers g) -> group_ok g ->
  exists g', handleKey g key = Ok g' /\ group_ok g' /\
    JS.len (containers g') = JS.len (containers g).
Proof.
  intros HN Hok. pose proof Hok as (Hsel & Hothers & Hat).
  unfold handleKey.
  destruct (findIndex_from_spec (containers g) 0 ltac:(lia))
    as [[E Hnone]|(k & c & E & Hk & Hf)].
  - rewrite E. simpl negb. cbv iota.
    destruct (Z.eqb_spec (_sel g) (-1)) as [Hs|Hs].
    + case_match; [|exists g; auto].
      destruct (moveSel_ok g (if shift key then JS.len (containers g) - 1 else 0) Hok)
        as (g' & Hg & Hok' & Hlen & _); [destruct (shift key); lia|].
      exists g'. auto.
    + assert (Hpos : 0 <= _sel g) by lia.
      set (N := JS.len (containers g)) in *.
      case_match; [destruct (forward_ok g key Hok Hpos) as (g' & ? & ? & ? & _);
                   exists g'; auto|].
      case_match.
      { destruct (moveSel_ok g (Z.rem (_sel g + 1) N) Hok)
          as (g' & Hg & Hok' & Hlen & _).
        - rewrite Z.rem_mod_nonneg by lia.
          apply Z.mod_pos_bound. lia.
        - exists g'. auto. }
      case_match.
      { destruct (moveSel_ok g (Z.rem (_sel g - 1 + N) N) Hok)
          as (g' & Hg & Hok' & Hlen & _).
        - rewrite Z.rem_mod_nonneg by lia.
          apply Z.mod_pos_bound. lia.
        - exists g'. auto. }
      case_match; [|exists g; auto].
      destruct (clearSel_ok g Hok) as (g' & ? & ? & ? & _). exists g'. auto.
  - assert (Hks : Z.of_nat k = _sel g).
    { destruct (decide (Z.of_nat k = _sel g)) as [Heq|Hne]; [exact Heq|].
      pose proof (Hothers k c Hk Hne). congruence. }
    rewrite E, Z.add_0_l, Hks.
    assert (Hne : negb (_sel g =? -1) = true)
      by (destruct (Z.eqb_spec (_sel g) (-1)); [lia|reflexivity]).
    rewrite Hne.
    destruct (forward_ok g key Hok ltac:(lia)) as (g' & ? & ? & ? & _).
    exists g'. auto.
Qed.

(** X20: a group of at least one panel, all in the default state when
    the group is created, never throws on a key, keeps its panels, and
    keeps its selection index in [-1, N-1]; every panel other than the
    selected one is in the default state, so at most one panel is
    active (in focus mode) at any time. *)
Theorem group_at_most_one_engaged (cs : list (Container.t W)) (keys : list Key) :
  1 <= JS.len cs ->
  Forall (fun c => Container.state c = StDefault) cs ->
  exists g,
    handleKeys (new cs) keys = Ok g /\
    JS.len (containers g) = JS.len cs /\
    -1 <= _sel g < JS.len cs /\
    (forall (i : nat) c, containers g !! i = Some c ->
                         Z.of_nat i <> _sel g -> Container.state c = StDefault) /\
    (forall (i j : nat) ci cj,
        containers g !! i = Some ci -> containers g !! j = Some cj ->
        Container.state ci = StFocus -> Container.state cj = StFocus -> i = j).
Proof.
  intros HN Hdef.
  assert (Hall : forall keys g,
            JS.len (containers g) = JS.len cs -> group_ok g ->
            exists g', handleKeys g keys = Ok g' /\
              JS.len (containers g') = JS.len cs /\ group_ok g').
  { clear keys. induction keys as [|k keys IH]; intros g Hlen Hok.
    - exists g. split; [reflexivity|]. split; assumption.
    - destruct (group_handleKey_ok g k ltac:(lia) Hok) as (g1 & E & Hok1 & Hlen1).
      destruct (IH g1 ltac:(lia) Hok1) as (g2 & E2 & Hlen2 & Hok2).
      exists g2. split; [|split; assumption].
      unfold handleKeys in *. simpl. rewrite E. exact E2. }
  assert (Hstart : group_ok (new cs)).
  { split; [|split]; simpl.
    - lia.
    - intros i c Hc _. exact (Forall_lookup_1 _ _ _ _ Hdef Hc).
    - intros c Hc. rewrite get_negative in Hc by lia. discriminate. }
  destruct (Hall keys (new cs) eq_refl Hstart) as (g & E & Hlen & Hsel & Hothers & Hat).
  exists g. split; [exact E|]. split; [exact Hlen|].
  split; [lia|]. split; [exact Hothers|].
  intros i j ci cj Hi Hj Hfi Hfj.
  destruct (decide (Z.of_nat i = _sel g)) as [Ei|Ni];
    [|pose proof (Hothers i ci Hi Ni); congruence].
  destruct (decide (Z.of_nat j = _sel g)) as [Ej|Nj];
    [|pose proof (Hothers j cj Hj Nj); congruence].
  lia.
Qed.

(** X21: a group without panels throws a [TypeError] on the keys that
    would establish a selection, [Right] and [Tab], and ignores every
    other key. *)
Theorem group_without_panels (key : Key) :
  handleKey (new ([] : list (Container.t W))) key
  = if named key "right" || named key "tab" then TypeError
    else Ok (new []).
Proof.
  unfold handleKey, new. simpl.
  destruct (named key "right" || named key "tab"); [|reflexivity].
  unfold _moveSel, deselect. simpl.
  destruct (shift key); reflexivity.
Qed.

(** X22: while no panel is active and panel [sel] is selected, [Right]
    moves the selection to panel [(sel + 1) mod N] and [Left] to panel
    [(sel - 1) mod N]: the newly selected panel is in the selected
    state and every other panel in the default state. *)
Theorem group_selection_moves (g : t W) (key : Key) :
  group_ok g ->
  0 <= _sel g ->
  (forall (i : nat) c, containers g !! i = Some c -> Container.state c <> StFocus) ->
  name key = Some "right"%string \/ name key = Some "left"%string ->
  let N := JS.len (containers g) in
  let sel' := (_sel g + (if named key "right" then 1 else -1)) mod N in
  exists g',
    handleKey g key = Ok g' /\
    _sel g' = sel' /\
    (exists c, containers g' !! Z.to_nat sel' = Some c /\
               Container.state c = StSelect) /\
    (forall (i : nat) c, containers g' !! i = Some c -> Z.of_nat i <> sel' ->
                         Container.state c = StDefault).
Proof.
  intros Hok Hpos Hnone Hname. cbv zeta.
  pose proof Hok as (Hsel & _ & _).
  unfold handleKey.
  destruct (findIndex_from_spec (containers g) 0 ltac:(lia))
    as [[E _]|(k & c & _ & Hk & Hf)];
    [|exfalso; exact (Hnone k c Hk Hf)].
  rewrite E. simpl negb. cbv iota.
  destruct (Z.eqb_spec (_sel g) (-1)); [lia|].
  set (N := JS.len (containers g)) in *.
  destruct Hname as [Hn|Hn];
    rewrite !(named_known key _ _ Hn);
    repeat (rewrite bool_decide_eq_false_2 by discriminate);
    rewrite bool_decide_eq_true_2 by reflexivity; cbn [orb andb].
  - destruct (moveSel_ok g (Z.rem (_sel g + 1) N) Hok)
      as (g' & Hg & (_ & Hothers' & _) & _ & Hs' & Hc').
    + rewrite Z.rem_mod_nonneg by lia. apply Z.mod_pos_bound. lia.
    + rewrite Z.rem_mod_nonneg in * by lia.
      exists g'. split; [exact Hg|]. split; [exact Hs'|].
      split; [exact Hc'|].
      intros i c Hi Hne. apply (Hothers' i c Hi). rewrite Hs'. exact Hne.
  - destruct (moveSel_ok g (Z.rem (_sel g - 1 + N) N) Hok)
      as (g' & Hg & (_ & Hothers' & _) & _ & Hs' & Hc').
    + rewrite Z.rem_mod_nonneg by lia. apply Z.mod_pos_bound. lia.
    + rewrite Z.rem_mod_nonneg in * by lia.
      assert (Em : (_sel g - 1 + N) mod N = (_sel g + -1) mod N).
      { rewrite <- (Z.mod_add (_sel g + -1) 1 N) by lia. f_equal. lia. }
      rewrite Em in *.
      exists g'. split; [exact Hg|]. split; [exact Hs'|].
      split; [exact Hc'|].
      intros i c Hi Hne. apply (Hothers' i c Hi). rewrite Hs'. exact Hne.
Qed.

End ContainerGroupProps.

Lemma group_at_most_one_engaged_witness :
  let p := Container.new is_focusable 32 8 demo_children in
  let keys := [key_named "tab"; key_named "right"; key_named "return";
               key_named "tab"] in
  1 <= JS.len [p; p; p] /\
  Forall (fun c => Container.state c = StDefault) [p; p; p] /\
  exists g,
    ContainerGroup.handleKeys (ContainerGroup.new [p; p; p]) keys = Ok g /\
    JS.len (ContainerGroup.containers g) = JS.len [p; p; p] /\
    -1 <= ContainerGroup._sel g < JS.len [p; p; p] /\
    (forall (i : nat) c,
        ContainerGroup.containers g !! i = Some c ->
        Z.of_nat i <> ContainerGroup._sel g -> Container.state c = StDefault) /\
    (forall (i j : nat) ci cj,
        ContainerGroup.containers g !! i = Some ci ->
        ContainerGroup.containers g !! j = Some cj ->
        Container.state ci = StFocus -> Container.state cj = StFocus -> i = j).
Proof.
  intros p keys.
  assert (HN : 1 <= JS.len [p; p; p]) by (vm_compute; discriminate).
  assert (Hdef : Forall (fun c => Container.state c = StDefault) [p; p; p])
    by (repeat constructor).
  split; [exact HN|]. split; [exact Hdef|].
  exact (group_at_most_one_engaged [p; p; p] keys HN Hdef).
Defined.

(** Three sample panels: [Tab] selects the first, [Right] the second,
    [Return] activates it, and the next [Tab] stays inside it. *)
Example group_of_three_panels :
  let p := Container.new is_focusable 32 8 demo_children in
  (g ← ContainerGroup.handleKeys (ContainerGroup.new [p; p; p])
         [key_named "tab"; key_named "right"; key_named "return";
          key_named "tab"];
   Ok (ContainerGroup._sel g,
       Container.state <$> ContainerGroup.containers g,
       (fun c => FocusManager.index (Container._focus c))
         <$> ContainerGroup.containers g))
  = Ok (1, [StDefault; StFocus; StDefault], [-1; 1; -1]).
Proof. vm_compute. reflexivity. Qed.

Lemma group_selection_moves_witness :
  let p := Container.new is_focusable 32 8 demo_children in
  let g := ContainerGroup.mk [p; p; Container.setState p StSelect] 2 in
  group_ok g /\ 0 <= ContainerGroup._sel g /\
  exists g',
    ContainerGroup.handleKey g (key_named "right") = Ok g' /\
    ContainerGroup._sel g' = 0.
Proof.
  intros p g.
  assert (Hok : group_ok g).
  { split; [|split].
    - vm_compute. split; [discriminate|reflexivity].
    - intros [|[|[|i]]] c Hc Hne; simpl in *;
        try (injection Hc as <-; reflexivity);
        [exfalso; apply Hne; reflexivity|discriminate].
    - intros c [= <-]. discriminate. }
  assert (Hnone : forall (i : nat) c,
            ContainerGroup.containers g !! i = Some c ->
            Container.state c <> StFocus).
  { intros [|[|[|i]]] c Hc; simpl in Hc;
      try (injection Hc as <-; discriminate); discriminate. }
  split; [exact Hok|]. split; [vm_compute; discriminate|].
  destruct (group_selection_moves g (key_named "right") Hok
              ltac:(vm_compute; discriminate) Hnone (or_introl eq_refl))
    as (g' & E & Hs & _).
  exists g'. split; [exact E|exact Hs].
Defined.

(* ===================================================================== *)
(** * Drawing on the canvas *)

Section PaintProps.

Import BrailleCanvas.

Lemma in_canvas_dec cv px py : {in_canvas cv px py} + {~ in_canvas cv px py}.
Proof.
  unfold in_canvas.
  destruct (Z_le_dec 0 px), (Z_lt_dec px (pixelWidth cv)),
    (Z_le_dec 0 py), (Z_lt_dec py (pixelHeight cv));
    first [left; lia | right; lia].
Qed.

(** [setPixel] at a pixel of a well-formed canvas sets it and stores the
    color. *)
Lemma setPixel_inside cv px py color :
  well_formed cv ->
  in_canvas cv px py ->
  exists cv',
    setPixel cv px py color = Ok cv' /\
    cols cv' = cols cv /\ rows cv' = rows cv /\ well_formed cv' /\
    pixel_at cv' px py = true /\
    color_at cv' px py = JS.nullish color "white"%string.
Proof.
  intros Hwf [Hx Hy].
  destruct (setPixel_well_formed cv px py color Hwf)
    as (cv' & Hset & Hc & Hr & Hwf').
  exists cv'. split; [exact Hset|]. split; [exact Hc|]. split; [exact Hr|].
  split; [exact Hwf'|].
  destruct (setPixel_Ok _ _ _ _ _ Hset) as [-> | (_ & _ & Hp & Hcs)].
  - (* the guard did not fire, so this branch is the other one *)
    unfold setPixel in Hset.
    destruct ((px <? 0) || (pixelWidth cv <=? px) || (py <? 0)
              || (pixelHeight cv <=? py)) eqn:G.
    + repeat (apply orb_true_iff in G; destruct G as [G | G]); lia.
    + destruct (set_at false (pixels cv) px py true) as [ps| | |] eqn:Eps;
        try discriminate.
      destruct (set_at None (colors cv) px py color) as [cs| | |] eqn:Ecs;
        try discriminate.
      cbn in Hset. injection Hset as Hcv.
      split.
      * unfold pixel_at. rewrite <- Hcv at 1. cbn [pixels].
        apply (at2_set_at_same false (pixels cv) px py true ps); [lia | exact Eps].
      * unfold color_at. rewrite <- Hcv at 1. cbn [colors].
        rewrite (at2_set_at_same None (colors cv) px py color cs); [reflexivity | lia | exact Ecs].
  - split.
    + unfold pixel_at.
      apply (at2_set_at_same false (pixels cv) px py true); [lia | exact Hp].
    + unfold color_at.
      rewrite (at2_set_at_same None (colors cv) px py color (colors cv'));
        [reflexivity | lia | exact Hcs].
Qed.

Lemma painted_refl cv color : well_formed cv -> painted cv [] color cv.
Proof.
  intros Hwf. split; [reflexivity|]. split; [reflexivity|]. split; [exact Hwf|].
  intros px py. split; [|split].
  - split; [intros H; left; exact H|].
    intros [H | [H _]]; [exact H | inversion H].
  - intros H; inversion H.
  - reflexivity.
Qed.

Lemma in_canvas_same cv cv' px py :
  cols cv' = cols cv -> rows cv' = rows cv ->
  in_canvas cv' px py <-> in_canvas cv px py.
Proof. unfold in_canvas, pixelWidth, pixelHeight. intros -> ->. tauto. Qed.

(** One more point. *)
Lemma painted_step cv pts color cv1 p cv2 :
  painted cv pts color cv1 ->
  setPixel cv1 p.1 p.2 (Some color) = Ok cv2 ->
  painted cv (pts ++ [p]) color cv2.
Proof.
  intros (Hc & Hr & Hwf & Hpx) Hset. destruct p as [qx qy]. cbn [fst snd] in Hset.
  destruct (in_canvas_dec cv1 qx qy) as [Hin | Hout].
  - destruct (setPixel_inside cv1 qx qy (Some color) Hwf Hin)
      as (cv2' & Hset' & Hc2 & Hr2 & Hwf2 & Hp2 & Hcol2).
    rewrite Hset in Hset'. injection Hset' as <-.
    split; [congruence|]. split; [congruence|]. split; [exact Hwf2|].
    intros px py. destruct (Hpx px py) as (H1 & H2 & H3).
    destruct (decide ((px, py) = (qx, qy))) as [E | NE].
    + injection E as -> ->.
      assert (Hin0 : in_canvas cv qx qy) by (apply (in_canvas_same cv cv1); assumption).
      split; [|split].
      * split; [|intros _; exact Hp2].
        intros _. right. split; [|exact Hin0].
        apply elem_of_app. right. apply list_elem_of_singleton. reflexivity.
      * intros _ _. exact Hcol2.
      * intros Hn. exfalso. apply Hn. split; [|exact Hin0].
        apply elem_of_app. right. apply list_elem_of_singleton. reflexivity.
    + destruct (setPixel_other _ _ _ _ _ px py Hset NE) as [Ep Ec].
      rewrite Ep, Ec. split; [|split].
      * rewrite H1. split.
        -- intros [H | [H Hi]]; [left; exact H|].
           right. split; [|exact Hi]. apply elem_of_app. left. exact H.
        -- intros [H | [H Hi]]; [left; exact H|].
           apply elem_of_app in H. destruct H as [H | H].
           ++ right. split; assumption.
           ++ apply list_elem_of_singleton in H. contradiction.
      * intros H Hi. apply elem_of_app in H. destruct H as [H | H].
        -- apply H2; assumption.
        -- apply list_elem_of_singleton in H. contradiction.
      * intros Hn. apply H3. intros [H Hi]. apply Hn. split; [|exact Hi].
        apply elem_of_app. left. exact H.
  - assert (Hout' : qx < 0 \/ pixelWidth cv1 <= qx \/ qy < 0 \/ pixelHeight cv1 <= qy)
      by (unfold in_canvas in Hout; lia).
    rewrite (setPixel_outside _ _ _ _ Hout') in Hset. injection Hset as <-.
    assert (Hout0 : ~ in_canvas cv qx qy).
    { intros H. apply Hout. apply (in_canvas_same cv cv1); assumption. }
    split; [exact Hc|]. split; [exact Hr|]. split; [exact Hwf|].
    intros px py. destruct (Hpx px py) as (H1 & H2 & H3).
    split; [|split].
    + rewrite H1. split.
      * intros [H | [H Hi]]; [left; exact H|].
        right. split; [|exact Hi]. apply elem_of_app. left. exact H.
      * intros [H | [H Hi]]; [left; exact H|].
        apply elem_of_app in H. destruct H as [H | H].
        -- right. split; assumption.
        -- apply list_elem_of_singleton in H. injection H as -> ->. contradiction.
    + intros H Hi. apply elem_of_app in H. destruct H as [H | H].
      * apply H2; assumption.
      * apply list_elem_of_singleton in H. injection H as -> ->. contradiction.
    + intros Hn. apply H3. intros [H Hi]. apply Hn. split; [|exact Hi].
      apply elem_of_app. left. exact H.
Qed.

Lemma paint_from cv color (pts : list (Z * Z)) :
  forall done cv1,
    painted cv done color cv1 ->
    exists cv', paint cv1 pts color = Ok cv' /\ painted cv (done ++ pts) color cv'.
Proof.
  induction pts as [|p pts IH]; intros done cv1 Hp.
  - exists cv1. rewrite app_nil_r. split; [reflexivity | exact Hp].
  - destruct Hp as (Hc & Hr & Hwf & Hpx).
    destruct (setPixel_well_formed cv1 p.1 p.2 (Some color) Hwf)
      as (cv2 & Hset & _).
    destruct (IH (done ++ [p]) cv2) as (cv' & Hrun & Hp').
    { apply (painted_step cv done color cv1 p cv2); [|exact Hset].
      split; [exact Hc|]. split; [exact Hr|]. split; [exact Hwf | exact Hpx]. }
    exists cv'. split.
    + unfold paint in *. cbn [for_each]. rewrite Hset. exact Hrun.
    + rewrite <- app_assoc in Hp'. exact Hp'.
Qed.

(** Painting a list of points on a well-formed canvas never throws, and
    sets exactly the listed pixels that lie on the canvas. *)
Lemma paint_spec cv pts color :
  well_formed cv ->
  exists cv', paint cv pts color = Ok cv' /\ painted cv pts color cv'.
Proof.
  intros Hwf.
  exact (paint_from cv color pts [] cv (painted_refl cv color Hwf)).
Qed.

(** Loops in loops. *)
Lemma for_each_app {A S} (body : S -> A -> outcome S) (l1 l2 : list A) (s : S) :
  for_each body (l1 ++ l2) s = (s' ← for_each body l1 s; for_each body l2 s').
Proof.
  revert s. induction l1 as [|a l1 IH]; intros s; [reflexivity|].
  cbn [for_each app]. destruct (body s a); try reflexivity.
  cbn. apply IH.
Qed.

Lemma for_each_ext {A S} (f g : S -> A -> outcome S) (l : list A) (s : S) :
  (forall s a, a ∈ l -> f s a = g s a) -> for_each f l s = for_each g l s.
Proof.
  revert s. induction l as [|a l IH]; intros s H; [reflexivity|].
  cbn [for_each]. rewrite (H s a) by (apply elem_of_cons; left; reflexivity).
  destruct (g s a); try reflexivity. cbn.
  apply IH. intros s' a' Hin. apply H. apply elem_of_cons. right. exact Hin.
Qed.

Lemma for_each_bind {A B S} (body : S -> B -> outcome S) (inner : A -> list B)
  (l : list A) (s : S) :
  for_each (fun s1 a => for_each body (inner a) s1) l s
  = for_each body (l ≫= inner) s.
Proof.
  revert s. induction l as [|a l IH]; intros s; [reflexivity|].
  cbn [for_each]. change ((a :: l) ≫= inner) with (inner a ++ (l ≫= inner)).
  rewrite for_each_app.
  destruct (for_each body (inner a) s); try reflexivity.
  cbn. apply IH.
Qed.

Lemma drawBar_paint cv x bottom top w color :
  drawBar cv x bottom top w color = paint cv (bar_points x bottom top w) color.
Proof.
  unfold drawBar, paint, bar_points.
  rewrite <- for_each_bind.
  apply for_each_ext. intros s px _.
  rewrite <- (for_each_bind (fun cv1 p => setPixel cv1 p.1 p.2 (Some color))
                (fun py => [(px, py)])).
  apply for_each_ext. intros s' py _. cbn.
  destruct (setPixel s' px py (Some color)); reflexivity.
Qed.

Lemma bar_points_spec x bottom top w px py :
  (px, py) ∈ bar_points x bottom top w <->
  x <= px < x + w /\ top <= py <= bottom.
Proof.
  unfold bar_points. rewrite list_elem_of_bind. split.
  - intros (qx & H & Hx). apply list_elem_of_bind in H.
    destruct H as (qy & H & Hy). apply list_elem_of_singleton in H.
    injection H as -> ->. apply elem_of_seqZ in Hx, Hy. lia.
  - intros [Hx Hy]. exists px. split; [|apply elem_of_seqZ; lia].
    apply list_elem_of_bind. exists py. split; [|apply elem_of_seqZ; lia].
    apply list_elem_of_singleton. reflexivity.
Qed.

Lemma drawDot_paint cv cx cy r color :
  Drawing.drawDot cv cx cy r color = paint cv (dot_points cx cy r) color.
Proof.
  unfold Drawing.drawDot, paint, dot_points.
  rewrite <- for_each_bind.
  apply for_each_ext. intros s dy _.
  rewrite <- (for_each_bind (fun cv1 p => setPixel cv1 p.1 p.2 (Some color))
                (fun dx => if dx * dx + dy * dy <=? r * r
                           then [(cx + dx, cy + dy)] else [])).
  apply for_each_ext. intros s' dx _.
  destruct (dx * dx + dy * dy <=? r * r); [|reflexivity]. cbn.
  destruct (setPixel s' (cx + dx) (cy + dy) (Some color)); reflexivity.
Qed.

Lemma square_bound a b r : 0 <= r -> a * a + b * b <= r * r -> - r <= b <= r.
Proof.
  intros Hr H. pose proof (Z.square_nonneg a) as Ha. unfold Z.square in Ha.
  destruct (Z_le_gt_dec b r) as [H1 | H1], (Z_le_gt_dec (- r) b) as [H2 | H2];
    try lia; exfalso.
  - assert (r * r < b * b) by nia. lia.
  - assert (r * r < b * b) by nia. lia.
Qed.

Lemma dot_points_spec cx cy r px py :
  (px, py) ∈ dot_points cx cy r <->
  0 <= r /\ (px - cx) * (px - cx) + (py - cy) * (py - cy) <= r * r.
Proof.
  unfold dot_points. rewrite list_elem_of_bind. split.
  - intros (dy & H & Hy). apply list_elem_of_bind in H.
    destruct H as (dx & H & Hx).
    destruct (Z.leb_spec (dx * dx + dy * dy) (r * r)) as [Hle | Hgt];
      [|inversion H].
    apply list_elem_of_singleton in H. injection H as -> ->.
    apply elem_of_seqZ in Hx, Hy.
    replace (cx + dx - cx) with dx by lia. replace (cy + dy - cy) with dy by lia.
    lia.
  - intros [Hr Hd]. exists (py - cy).
    assert (Hy : - r <= py - cy <= r)
      by (apply (square_bound (px - cx)); assumption).
    assert (Hx : - r <= px - cx <= r)
      by (apply (square_bound (py - cy)); [assumption | lia]).
    split; [|apply elem_of_seqZ; lia].
    apply list_elem_of_bind. exists (px - cx). split; [|apply elem_of_seqZ; lia].
    destruct (Z.leb_spec ((px - cx) * (px - cx) + (py - cy) * (py - cy)) (r * r));
      [|lia].
    apply list_elem_of_singleton. f_equal; lia.
Qed.

End PaintProps.

(* ===================================================================== *)
(** * Cells and glyphs *)

Section CellProps.

Import BrailleCanvas.

Lemma getCell_glyph cv col row :
  (getCell cv col row).1
  = 10240 + glyph_bits (fun rc => pixel_at cv (col * 2 + rc.2) (row * 4 + rc.1))
                       scan_order.
Proof.
  rewrite getCell_spec. cbn [fst]. unfold glyph_bits, set_subpixels. reflexivity.
Qed.

Lemma scan_order_spec r c : (r, c) ∈ scan_order <-> 0 <= r < 4 /\ 0 <= c < 2.
Proof.
  unfold scan_order. rewrite list_elem_of_bind. split.
  - intros (r' & H & Hr). apply list_elem_of_bind in H.
    destruct H as (c' & H & Hc). apply list_elem_of_singleton in H.
    injection H as -> ->. apply elem_of_seqZ in Hr, Hc. lia.
  - intros [Hr Hc]. exists r. split; [|apply elem_of_seqZ; lia].
    apply list_elem_of_bind. exists c. split; [|apply elem_of_seqZ; lia].
    apply list_elem_of_singleton. reflexivity.
Qed.

(** The eight bits are eight different powers of two. *)
Lemma braille_bits_disjoint a b :
  a ∈ scan_order -> b ∈ scan_order -> a <> b ->
  Z.land (braille_bit a.1 a.2) (braille_bit b.1 b.2) = 0.
Proof.
  assert (H : forallb (fun a => forallb (fun b =>
                 bool_decide (a = b)
                 || (Z.land (braille_bit a.1 a.2) (braille_bit b.1 b.2) =? 0))
               scan_order) scan_order = true) by (vm_compute; reflexivity).
  intros Ha Hb Hne.
  rewrite forallb_forall in H. specialize (H a ltac:(apply list_elem_of_In; exact Ha)).
  rewrite forallb_forall in H. specialize (H b ltac:(apply list_elem_of_In; exact Hb)).
  apply orb_true_iff in H. destruct H as [H | H].
  - apply bool_decide_eq_true in H. contradiction.
  - apply Z.eqb_eq in H. exact H.
Qed.

Lemma braille_bit_range a :
  a ∈ scan_order -> 1 <= braille_bit a.1 a.2 <= 255.
Proof.
  assert (H : forallb (fun a => (1 <=? braille_bit a.1 a.2)
                                && (braille_bit a.1 a.2 <=? 255))
               scan_order = true) by (vm_compute; reflexivity).
  intros Ha. rewrite forallb_forall in H.
  specialize (H a ltac:(apply list_elem_of_In; exact Ha)).
  apply andb_true_iff in H. lia.
Qed.

Lemma lor_byte a b : 0 <= a <= 255 -> 0 <= b <= 255 -> 0 <= Z.lor a b <= 255.
Proof.
  intros Ha Hb.
  assert (H0 : 0 <= Z.lor a b) by (apply Z.lor_nonneg; lia).
  split; [exact H0|].
  destruct (Z.eq_dec (Z.lor a b) 0) as [-> | Hne]; [lia|].
  assert (Hlog : forall x, 0 <= x <= 255 -> Z.log2 x < 8).
  { intros x Hx. destruct (Z.eq_dec x 0) as [-> | Hx0]; [reflexivity|].
    apply Z.log2_lt_pow2; lia. }
  assert (Z.lor a b < 2 ^ 8); [|lia].
  apply Z.log2_lt_pow2; [lia|].
  rewrite Z.log2_lor by lia.
  pose proof (Hlog a Ha). pose proof (Hlog b Hb). lia.
Qed.

Lemma glyph_bits_cons f rc l :
  glyph_bits f (rc :: l)
  = if f rc then Z.lor (braille_bit rc.1 rc.2) (glyph_bits f l) else glyph_bits f l.
Proof.
  unfold glyph_bits. rewrite filter_cons.
  destruct (f rc) eqn:E.
  - rewrite decide_True by reflexivity. reflexivity.
  - rewrite decide_False by discriminate. reflexivity.
Qed.

Lemma glyph_bits_range f l :
  l ⊆ scan_order -> 0 <= glyph_bits f l <= 255.
Proof.
  induction l as [|rc l IH]; intros Hsub.
  - unfold glyph_bits. cbn. lia.
  - rewrite glyph_bits_cons.
    assert (Hl : l ⊆ scan_order).
    { intros x Hx. apply Hsub. apply elem_of_cons. right. exact Hx. }
    specialize (IH Hl). destruct (f rc); [|exact IH].
    apply lor_byte; [|exact IH].
    pose proof (braille_bit_range rc
                  ltac:(apply Hsub; apply elem_of_cons; left; reflexivity)). lia.
Qed.

(** Each of the eight bits can be read back from the or. *)
Lemma glyph_bits_decode f l rc :
  l ⊆ scan_order -> NoDup l -> rc ∈ l ->
  Z.land (glyph_bits f l) (braille_bit rc.1 rc.2)
  = if f rc then braille_bit rc.1 rc.2 else 0.
Proof.
  intros Hsub Hnd Hin.
  assert (Hout : forall l', l' ⊆ scan_order -> rc ∉ l' ->
            Z.land (glyph_bits f l') (braille_bit rc.1 rc.2) = 0).
  { induction l' as [|rc' l' IH]; intros Hsub' Hnot.
    - unfold glyph_bits. cbn. reflexivity.
    - rewrite glyph_bits_cons.
      assert (Hl : l' ⊆ scan_order).
      { intros x Hx. apply Hsub'. apply elem_of_cons. right. exact Hx. }
      assert (Hn' : rc ∉ l').
      { intros Hx. apply Hnot. apply elem_of_cons. right. exact Hx. }
      specialize (IH Hl Hn'). destruct (f rc'); [|exact IH].
      rewrite Z.land_lor_distr_l, IH, Z.lor_0_r.
      apply braille_bits_disjoint.
      + apply Hsub'. apply elem_of_cons. left. reflexivity.
      + apply Hsub. exact Hin.
      + intros ->. apply Hnot. apply elem_of_cons. left. reflexivity. }
  induction l as [|rc' l IH]; [inversion Hin|].
  assert (Hl : l ⊆ scan_order).
  { intros x Hx. apply Hsub. apply elem_of_cons. right. exact Hx. }
  apply NoDup_cons in Hnd. destruct Hnd as [Hnot Hnd].
  rewrite glyph_bits_cons.
  apply elem_of_cons in Hin. destruct Hin as [-> | Hin].
  - destruct (f rc').
    + rewrite Z.land_lor_distr_l, (Hout l Hl Hnot), Z.lor_0_r. apply Z.land_diag.
    + apply (Hout l Hl Hnot).
  - destruct (f rc') eqn:E'; [|apply IH; assumption].
    rewrite Z.land_lor_distr_l, (IH Hl Hnd Hin).
    rewrite braille_bits_disjoint.
    + apply Z.lor_0_l.
    + apply Hsub. apply elem_of_cons. left. reflexivity.
    + apply Hsub. apply elem_of_cons. right. exact Hin.
    + intros ->. contradiction.
Qed.

(** Setting one more sub-pixel ors its bit into the glyph. *)
Lemma glyph_bits_add f f' rc0 l :
  (forall rc, rc ∈ l -> f' rc = if decide (rc = rc0) then true else f rc) ->
  glyph_bits f' l
  = if decide (rc0 ∈ l) then Z.lor (glyph_bits f l) (braille_bit rc0.1 rc0.2)
    else glyph_bits f l.
Proof.
  induction l as [|rc l IH]; intros Hf.
  - rewrite decide_False by (intros H; inversion H). reflexivity.
  - rewrite !glyph_bits_cons.
    rewrite (Hf rc) by (apply elem_of_cons; left; reflexivity).
    rewrite IH by (intros x Hx; apply Hf; apply elem_of_cons; right; exact Hx).
    destruct (decide (rc = rc0)) as [-> | Hne].
    + rewrite (decide_True (P := rc0 ∈ rc0 :: l))
        by (apply elem_of_cons; left; reflexivity).
      destruct (decide (rc0 ∈ l)), (f rc0);
        apply Z.bits_inj'; intros k _; rewrite ?Z.lor_spec;
        destruct (Z.testbit (braille_bit rc0.1 rc0.2) k),
          (Z.testbit (glyph_bits f l) k); reflexivity.
    + destruct (decide (rc0 ∈ l)) as [Hin | Hnot].
      * rewrite (decide_True (P := rc0 ∈ rc :: l))
          by (apply elem_of_cons; right; exact Hin).
        destruct (f rc); [|reflexivity]. apply Z.lor_assoc.
      * rewrite (decide_False (P := rc0 ∈ rc :: l)).
        -- reflexivity.
        -- intros H. apply elem_of_cons in H. destruct H as [H | H];
             [congruence | contradiction].
Qed.

Lemma filter_none {X} (P : X -> Prop) `{forall x, Decision (P x)} (l : list X) :
  (forall x, x ∈ l -> ~ P x) -> filter P l = [].
Proof.
  induction l as [|x l IH]; intros Hn; [reflexivity|].
  rewrite filter_cons, decide_False
    by (apply Hn; apply elem_of_cons; left; reflexivity).
  apply IH. intros y Hy. apply Hn. apply elem_of_cons. right. exact Hy.
Qed.

(** [getCell] looks at the eight sub-pixels of its cell only. *)
Lemma getCell_ext cv cv' col row :
  (forall r c, 0 <= r < 4 -> 0 <= c < 2 ->
     pixel_at cv' (col * 2 + c) (row * 4 + r) = pixel_at cv (col * 2 + c) (row * 4 + r) /\
     color_at cv' (col * 2 + c) (row * 4 + r) = color_at cv (col * 2 + c) (row * 4 + r)) ->
  getCell cv' col row = getCell cv col row.
Proof.
  intros H. unfold getCell.
  assert (E : forall l st, l ⊆ scan_order ->
            fold_left (visit cv' col row) l st = fold_left (visit cv col row) l st).
  { induction l as [|[r c] l IH]; intros st Hsub; [reflexivity|].
    cbn [fold_left].
    assert (Hrc : 0 <= r < 4 /\ 0 <= c < 2).
    { apply scan_order_spec. apply Hsub. apply elem_of_cons. left. reflexivity. }
    destruct (H r c) as [Hp Hc]; [lia | lia |].
    assert (Hv : visit cv' col row st (r, c) = visit cv col row st (r, c)).
    { unfold visit. destruct st as [[bits color] found]. cbn [fst snd].
      rewrite Hp, Hc. reflexivity. }
    rewrite Hv. apply IH. intros x Hx. apply Hsub. apply elem_of_cons. right. exact Hx. }
  rewrite E by reflexivity. reflexivity.
Qed.

End CellProps.

Section RowProps.

Import BrailleCanvas.

Lemma run_cells_app runs1 runs2 :
  run_cells (runs1 ++ runs2) = run_cells runs1 ++ run_cells runs2.
Proof. unfold run_cells. apply bind_app. Qed.

Lemma run_cells_one color glyphs :
  run_cells [(color, glyphs)] = (fun g => (g, color)) <$> glyphs.
Proof. unfold run_cells. cbn. apply app_nil_r. Qed.

Lemma flush_nonempty out runColor runStr :
  runStr <> [] -> Drawing.flush out runColor runStr = out ++ [(runColor, runStr)].
Proof. destruct runStr; [congruence | reflexivity]. Qed.

Lemma adjacent_snoc (out : list Drawing.styled) (run : Drawing.styled) :
  (forall (i : nat) r1 r2, out !! i = Some r1 -> out !! S i = Some r2 -> r1.1 <> r2.1) ->
  (forall r, last out = Some r -> r.1 <> run.1) ->
  forall (i : nat) r1 r2,
    (out ++ [run]) !! i = Some r1 -> (out ++ [run]) !! S i = Some r2 -> r1.1 <> r2.1.
Proof.
  intros Hadj Hlast i r1 r2 H1 H2.
  destruct (decide (S i < length out)%nat) as [Hlt | Hge].
  - rewrite lookup_app_l in H1 by lia. rewrite lookup_app_l in H2 by lia.
    exact (Hadj i r1 r2 H1 H2).
  - assert (Hlen : S i = length out).
    { apply lookup_lt_Some in H2. rewrite length_app in H2. cbn in H2. lia. }
    rewrite lookup_app_l in H1 by lia.
    rewrite Hlen, lookup_app_r in H2 by lia.
    rewrite Nat.sub_diag in H2. cbn in H2. injection H2 as <-.
    apply Hlast. rewrite last_lookup.
    replace (Nat.pred (length out)) with i by lia. exact H1.
Qed.

Lemma getRow_step_inv cv row cells st col :
  row_inv cells st ->
  row_inv (cells ++ [getCell cv col row]) (Drawing.getRow_step cv row st col).
Proof.
  destruct st as [[out runColor] runStr]. unfold row_inv, Drawing.getRow_step.
  intros (Hcells & Hne & Hadj & Hlast & Hempty).
  destruct (getCell cv col row) as [ch color].
  destruct (bool_decide (color = runColor)) eqn:E.
  - apply bool_decide_eq_true in E. subst color.
    split; [|split; [|split; [|split]]].
    + rewrite fmap_app, app_assoc, Hcells. reflexivity.
    + exact Hne.
    + exact Hadj.
    + exact Hlast.
    + intros H. destruct runStr; discriminate.
  - apply bool_decide_eq_false in E.
    destruct runStr as [|g runStr].
    + destruct (Hempty eq_refl) as [-> ->]. cbn [Drawing.flush].
      split; [|split; [|split; [|split]]].
      * reflexivity.
      * constructor.
      * intros i r1 r2 H. inversion H.
      * intros r H. inversion H.
      * discriminate.
    + rewrite flush_nonempty by discriminate.
      split; [|split; [|split; [|split]]].
      * rewrite run_cells_app, run_cells_one, Hcells. reflexivity.
      * apply Forall_app. split; [exact Hne|].
        constructor; [discriminate | constructor].
      * apply adjacent_snoc; assumption.
      * intros r H. rewrite last_snoc in H. injection H as <-.
        cbn. congruence.
      * discriminate.
Qed.

Lemma getRow_loop_inv cv row (l : list Z) :
  forall cells st,
    row_inv cells st ->
    row_inv (cells ++ ((fun col => getCell cv col row) <$> l))
            (fold_left (Drawing.getRow_step cv row) l st).
Proof.
  induction l as [|col l IH]; intros cells st Hinv.
  - cbn. rewrite app_nil_r. exact Hinv.
  - cbn [fold_left fmap list_fmap].
    rewrite (cons_middle _ cells), app_assoc.
    apply IH. apply getRow_step_inv. exact Hinv.
Qed.

(** X29: [getRow] is a run-length encoding of the cells of the row:
    read piece by piece, its output shows exactly the glyph and the
    color of [getCell] for the columns [0 .. cols - 1], in order; no
    piece is empty, and two neighbouring pieces never have the same
    color, so the pieces are the maximal runs of equal color. *)
Theorem getRow_run_length cv row :
  let runs := Drawing.getRow cv row in
  run_cells runs = (fun col => getCell cv col row) <$> seqZ 0 (cols cv) /\
  Forall (fun run => run.2 <> []) runs /\
  (forall (i : nat) r1 r2,
     runs !! i = Some r1 -> runs !! S i = Some r2 -> r1.1 <> r2.1).
Proof.
  intros runs. subst runs. unfold Drawing.getRow.
  assert (H0 : row_inv [] ([], ""%string, [])).
  { split; [reflexivity|]. split; [constructor|].
    split; [intros i r1 r2 H; inversion H|].
    split; [intros r H; inversion H|]. intros _. split; reflexivity. }
  pose proof (getRow_loop_inv cv row (seqZ 0 (cols cv)) [] _ H0) as H.
  destruct (fold_left (Drawing.getRow_step cv row) (seqZ 0 (cols cv))
              ([], ""%string, [])) as [[out runColor] runStr].
  cbn [app] in H. destruct H as (Hcells & Hne & Hadj & Hlast & Hempty).
  destruct runStr as [|g runStr].
  - destruct (Hempty eq_refl) as [-> E]. cbn [Drawing.flush].
    split; [rewrite E; reflexivity|].
    split; [constructor|]. intros i r1 r2 H. inversion H.
  - rewrite flush_nonempty by discriminate.
    split; [|split].
    + rewrite run_cells_app, run_cells_one. exact Hcells.
    + apply Forall_app. split; [exact Hne|].
      constructor; [discriminate | constructor].
    + apply adjacent_snoc; assumption.
Qed.

End RowProps.

Section CellTheorems.

Import BrailleCanvas.

(** X23: on a well-formed canvas, [setPixel] at a pixel of the canvas
    does not throw; it sets that sub-pixel and stores its color
    ([null] reads back as ["white"]), and changes no other sub-pixel.
    Only the cell [(px div 2, py div 4)] can look different afterwards:
    every other cell keeps its glyph and color, and the glyph of that
    cell gains the bit [BRAILLE_BITS[py mod 4][px mod 2]]. *)
Theorem setPixel_changes_one_cell cv px py color :
  well_formed cv ->
  in_canvas cv px py ->
  exists cv',
    setPixel cv px py color = Ok cv' /\
    well_formed cv' /\
    pixel_at cv' px py = true /\
    color_at cv' px py = JS.nullish color "white"%string /\
    (forall px' py', (px', py') <> (px, py) ->
       pixel_at cv' px' py' = pixel_at cv px' py' /\
       color_at cv' px' py' = color_at cv px' py') /\
    (forall col row, (col, row) <> (px / 2, py / 4) ->
       getCell cv' col row = getCell cv col row) /\
    (getCell cv' (px / 2) (py / 4)).1
    = 10240 + Z.lor ((getCell cv (px / 2) (py / 4)).1 - 10240)
                    (braille_bit (py mod 4) (px mod 2)).
Proof.
  intros Hwf Hin.
  destruct (setPixel_inside cv px py color Hwf Hin)
    as (cv' & Hset & _ & _ & Hwf' & Hp & Hc).
  exists cv'. split; [exact Hset|]. split; [exact Hwf'|].
  split; [exact Hp|]. split; [exact Hc|].
  assert (Hother : forall px' py', (px', py') <> (px, py) ->
            pixel_at cv' px' py' = pixel_at cv px' py' /\
            color_at cv' px' py' = color_at cv px' py').
  { intros px' py' Hne. exact (setPixel_other _ _ _ _ _ px' py' Hset Hne). }
  split; [exact Hother|].
  pose proof (Z.div_mod px 2 ltac:(lia)) as Hpx.
  pose proof (Z.div_mod py 4 ltac:(lia)) as Hpy.
  pose proof (Z.mod_pos_bound px 2 ltac:(lia)) as Hmx.
  pose proof (Z.mod_pos_bound py 4 ltac:(lia)) as Hmy.
  split.
  - intros col row Hne. apply getCell_ext. intros r c Hr Hcc.
    apply Hother. intros E. injection E as Ex Ey. apply Hne.
    f_equal.
    + apply (Z.div_unique_pos px 2 col c); lia.
    + apply (Z.div_unique_pos py 4 row r); lia.
  - rewrite !getCell_glyph.
    rewrite (glyph_bits_add
               (fun rc => pixel_at cv (px / 2 * 2 + rc.2) (py / 4 * 4 + rc.1))
               (fun rc => pixel_at cv' (px / 2 * 2 + rc.2) (py / 4 * 4 + rc.1))
               (py mod 4, px mod 2)).
    + rewrite decide_True by (apply scan_order_spec; lia).
      cbn [fst snd]. f_equal. f_equal. lia.
    + intros [r c] _. cbn [fst snd].
      destruct (decide ((r, c) = (py mod 4, px mod 2))) as [E | Hne].
      * injection E as -> ->.
        replace (px / 2 * 2 + px mod 2) with px by lia.
        replace (py / 4 * 4 + py mod 4) with py by lia. exact Hp.
      * apply Hother. intros E. injection E as Ex Ey. apply Hne.
        f_equal; lia.
Qed.

(** X24: the glyph of a cell is a character of the Braille block,
    [U+2800 .. U+28FF], and it determines the eight sub-pixels of the
    cell: sub-pixel [(r, c)] is set exactly when the bit
    [BRAILLE_BITS[r][c]] is present in [glyph - 0x2800].  A cell that
    shows the blank glyph [U+2800] is reported in ["gray"]. *)
Theorem getCell_glyph_decodes cv col row r c :
  0 <= r < 4 -> 0 <= c < 2 ->
  let g := (getCell cv col row).1 in
  10240 <= g <= 10495 /\
  (pixel_at cv (col * 2 + c) (row * 4 + r) = true <->
   Z.land (g - 10240) (braille_bit r c) <> 0) /\
  (g = 10240 -> (getCell cv col row).2 = "gray"%string).
Proof.
  intros Hr Hc g. subst g. rewrite getCell_glyph.
  set (f := fun rc : Z * Z => pixel_at cv (col * 2 + rc.2) (row * 4 + rc.1)).
  pose proof (glyph_bits_range f scan_order ltac:(reflexivity)) as Hrange.
  assert (Hdec : forall rc, rc ∈ scan_order ->
            Z.land (glyph_bits f scan_order) (braille_bit rc.1 rc.2)
            = if f rc then braille_bit rc.1 rc.2 else 0).
  { intros rc Hin. apply glyph_bits_decode;
      [reflexivity | apply scan_order_NoDup | exact Hin]. }
  split; [lia|]. split.
  - replace (10240 + glyph_bits f scan_order - 10240)
      with (glyph_bits f scan_order) by lia.
    assert (Hin : (r, c) ∈ scan_order) by (apply scan_order_spec; lia).
    pose proof (Hdec (r, c) Hin) as Hd.
    pose proof (braille_bit_range (r, c) Hin) as Hb. cbn [fst snd] in Hd, Hb.
    rewrite Hd.
    change (f (r, c)) with (pixel_at cv (col * 2 + c) (row * 4 + r)).
    destruct (pixel_at cv (col * 2 + c) (row * 4 + r)).
    + split; [intros _; lia | reflexivity].
    + split; [discriminate | intros H; contradiction H; reflexivity].
  - intros Hblank. assert (H0 : glyph_bits f scan_order = 0) by lia.
    rewrite getCell_spec. cbn [snd].
    assert (Hnone : set_subpixels cv col row = []).
    { unfold set_subpixels. apply filter_none.
      intros rc Hin Hset. specialize (Hdec rc Hin).
      rewrite H0, Z.land_0_l in Hdec.
      change (f rc) with (pixel_at cv (col * 2 + rc.2) (row * 4 + rc.1)) in Hdec.
      rewrite Hset in Hdec.
      pose proof (braille_bit_range rc Hin). lia. }
    rewrite Hnone. reflexivity.
Qed.

Lemma getCell_blank cv col row :
  (forall px py, pixel_at cv px py = false) ->
  getCell cv col row = (10240, "gray"%string).
Proof.
  intros Hoff. rewrite getCell_spec.
  assert (Hnone : set_subpixels cv col row = []).
  { unfold set_subpixels. apply filter_none.
    intros rc _. rewrite Hoff. discriminate. }
  rewrite Hnone. reflexivity.
Qed.

Lemma getRow_uniform cv row ch color (n : nat) :
  (forall col, getCell cv col row = (ch, color)) ->
  forall start out runStr,
    fold_left (Drawing.getRow_step cv row) (seqZ start (Z.of_nat n))
              (out, color, runStr)
    = (out, color, runStr ++ replicate n ch).
Proof.
  intros Hcell. induction n as [|n IH]; intros start out runStr.
  - cbn. rewrite app_nil_r. reflexivity.
  - rewrite seqZ_cons by lia. cbn [fold_left].
    unfold Drawing.getRow_step at 2. rewrite Hcell.
    rewrite bool_decide_eq_true_2 by reflexivity.
    replace (Z.pred (Z.of_nat (S n))) with (Z.of_nat n) by lia.
    rewrite IH. rewrite <- app_assoc. reflexivity.
Qed.

(** X25: after [clear] every cell of the canvas is the blank glyph
    [U+2800] in ["gray"], whatever was drawn before, and [getRow] gives
    each row as a single gray piece of [cols] blank glyphs (no piece at
    all when the canvas has no columns). *)
Theorem clear_blanks_every_cell cv col row :
  getCell (clear cv) col row = (10240, "gray"%string) /\
  Drawing.getRow (clear cv) row
  = if 0 <? cols cv
    then [("gray"%string, replicate (Z.to_nat (cols cv)) 10240)]
    else [].
Proof.
  assert (Hcell : forall col', getCell (clear cv) col' row = (10240, "gray"%string)).
  { intros col'. apply getCell_blank. apply clear_pixel_at. }
  split; [apply Hcell|].
  unfold Drawing.getRow. change (cols (clear cv)) with (cols cv).
  destruct (Z.ltb_spec 0 (cols cv)) as [Hpos | Hnone].
  - rewrite seqZ_cons by lia. cbn [fold_left].
    unfold Drawing.getRow_step at 2. rewrite Hcell.
    rewrite bool_decide_eq_false_2 by discriminate.
    cbn [Drawing.flush].
    replace (Z.pred (cols cv)) with (Z.of_nat (Z.to_nat (cols cv - 1))) by lia.
    rewrite (getRow_uniform (clear cv) row 10240 "gray"%string _ Hcell).
    cbn [Drawing.flush app].
    replace (Z.to_nat (cols cv)) with (S (Z.to_nat (cols cv - 1))) by lia.
    reflexivity.
  - replace (seqZ 0 (cols cv)) with (@nil Z); [reflexivity|].
    unfold seqZ. replace (Z.to_nat (cols cv)) with 0%nat by lia. reflexivity.
Qed.

End CellTheorems.

Lemma setPixel_changes_one_cell_witness :
  BrailleCanvas.well_formed demo_canvas /\
  in_canvas demo_canvas 1 2 /\
  exists cv',
    BrailleCanvas.setPixel demo_canvas 1 2 (Some "blue"%string) = Ok cv' /\
    BrailleCanvas.getCell demo_canvas 0 0 = (10240 + 1, "red"%string) /\
    (BrailleCanvas.getCell cv' 0 0).1 = 10240 + 1 + 32.
Proof.
  assert (Hwf : BrailleCanvas.well_formed demo_canvas).
  { split; [reflexivity|]. split; [reflexivity|].
    split; repeat constructor. }
  assert (Hin : in_canvas demo_canvas 1 2) by (vm_compute; intuition discriminate).
  split; [exact Hwf|]. split; [exact Hin|].
  destruct (setPixel_changes_one_cell demo_canvas 1 2 (Some "blue"%string) Hwf Hin)
    as (cv' & Hset & _ & _ & _ & _ & _ & Hglyph).
  exists cv'. split; [exact Hset|]. split; [reflexivity|].
  exact Hglyph.
Defined.

Lemma getCell_glyph_decodes_witness :
  (0 <= 0 < 4) /\ (0 <= 0 < 2) /\
  (10240 <= (BrailleCanvas.getCell demo_canvas 0 0).1 <= 10495) /\
  (BrailleCanvas.pixel_at demo_canvas (0 * 2 + 0) (0 * 4 + 0) = true <->
   Z.land ((BrailleCanvas.getCell demo_canvas 0 0).1 - 10240)
          (BrailleCanvas.braille_bit 0 0) <> 0).
Proof.
  assert (Hr : 0 <= 0 < 4) by lia. assert (Hc : 0 <= 0 < 2) by lia.
  split; [exact Hr|]. split; [exact Hc|].
  destruct (getCell_glyph_decodes demo_canvas 0 0 0 0 Hr Hc) as (H1 & H2 & _).
  split; [exact H1 | exact H2].
Defined.

Section DrawProps.

Import BrailleCanvas.

(** The footprint of a paint, for a region given by a predicate. *)
Lemma painted_region cv pts color cv' (inside : Z -> Z -> Prop) :
  painted cv pts color cv' ->
  (forall px py, (px, py) ∈ pts <-> inside px py) ->
  forall px py,
    (pixel_at cv' px py = true <->
     pixel_at cv px py = true \/ (inside px py /\ in_canvas cv px py)) /\
    (inside px py /\ in_canvas cv px py -> color_at cv' px py = color) /\
    (~ (inside px py /\ in_canvas cv px py) ->
     color_at cv' px py = color_at cv px py).
Proof.
  intros (_ & _ & _ & H) Hpts px py. destruct (H px py) as (H1 & H2 & H3).
  split; [|split].
  - rewrite H1, Hpts. reflexivity.
  - intros [Hi Hc]. apply H2; [apply Hpts; exact Hi | exact Hc].
  - intros Hn. apply H3. rewrite Hpts. exact Hn.
Qed.

(** X26: on a well-formed canvas [drawBar] does not throw, and it
    fills exactly the part of the rectangle [x <= px < x + w],
    [top <= py <= bottom] that lies on the canvas: those pixels are set
    and get the color of the bar, every other pixel keeps its state and
    its color.  (Nothing is drawn when [w <= 0] or [top > bottom].) *)
Theorem drawBar_fills_rectangle cv x bottom top w color :
  well_formed cv ->
  exists cv',
    drawBar cv x bottom top w color = Ok cv' /\
    well_formed cv' /\
    forall px py,
      let inside :=
        (x <= px < x + w /\ top <= py <= bottom) /\ in_canvas cv px py in
      (pixel_at cv' px py = true <-> pixel_at cv px py = true \/ inside) /\
      (inside -> color_at cv' px py = color) /\
      (~ inside -> color_at cv' px py = color_at cv px py).
Proof.
  intros Hwf. rewrite drawBar_paint.
  destruct (paint_spec cv (bar_points x bottom top w) color Hwf)
    as (cv' & Hrun & Hp).
  exists cv'. split; [exact Hrun|]. split; [apply Hp|].
  intros px py. cbv zeta.
  apply (painted_region cv _ color cv'
           (fun px py => x <= px < x + w /\ top <= py <= bottom) Hp).
  intros qx qy. apply bar_points_spec.
Qed.

(** X27: on a well-formed canvas [drawDot] does not throw, and it
    fills exactly the pixels of the canvas within distance [r] of the
    centre, [(px - cx)^2 + (py - cy)^2 <= r^2], with the color of the
    dot; every other pixel keeps its state and its color, and a negative
    radius draws nothing. *)
Theorem drawDot_fills_disc cv cx cy r color :
  well_formed cv ->
  exists cv',
    Drawing.drawDot cv cx cy r color = Ok cv' /\
    well_formed cv' /\
    forall px py,
      let inside :=
        (0 <= r /\ (px - cx) * (px - cx) + (py - cy) * (py - cy) <= r * r)
        /\ in_canvas cv px py in
      (pixel_at cv' px py = true <-> pixel_at cv px py = true \/ inside) /\
      (inside -> color_at cv' px py = color) /\
      (~ inside -> color_at cv' px py = color_at cv px py).
Proof.
  intros Hwf. rewrite drawDot_paint.
  destruct (paint_spec cv (dot_points cx cy r) color Hwf) as (cv' & Hrun & Hp).
  exists cv'. split; [exact Hrun|]. split; [apply Hp|].
  intros px py. cbv zeta.
  apply (painted_region cv _ color cv'
           (fun px py => 0 <= r /\
              (px - cx) * (px - cx) + (py - cy) * (py - cy) <= r * r) Hp).
  intros qx qy. apply dot_points_spec.
Qed.

(** The loop of [drawLine], [rx] steps away from the end point in x and
    [ry] steps in y. *)
Lemma drawLine_loop_spec cv0 x1 y1 dx dy sx sy color :
  0 <= dx -> 0 <= dy -> sx = 1 \/ sx = -1 -> sy = 1 \/ sy = -1 ->
  forall (fuel : nat) cv done x y err rx ry,
    painted cv0 done color cv ->
    0 <= rx <= dx -> 0 <= ry <= dy ->
    x = x1 - sx * rx -> y = y1 - sy * ry ->
    err = dx - dy + rx * dy - ry * dx ->
    (Z.to_nat (rx + ry) < fuel)%nat ->
    exists pts cv',
      Drawing.drawLine_loop fuel cv x y err x1 y1 dx dy sx sy color = Some (Ok cv') /\
      painted cv0 (done ++ pts) color cv' /\
      head pts = Some (x, y) /\
      last pts = Some (x1, y1) /\
      chain pts /\
      Forall (fun p => exists rx' ry',
                0 <= rx' <= rx /\ 0 <= ry' <= ry /\
                p = (x1 - sx * rx', y1 - sy * ry')) pts.
Proof.
  intros Hdx Hdy Hsx Hsy.
  induction fuel as [|fuel IH]; intros cv done x y err rx ry Hp Hrx Hry Ex Ey Eerr Hfuel;
    [lia|].
  cbn [Drawing.drawLine_loop].
  destruct (setPixel_well_formed cv x y (Some color) ltac:(apply Hp))
    as (cv2 & Hset & _).
  rewrite Hset.
  pose proof (painted_step cv0 done color cv (x, y) cv2 Hp Hset) as Hp2.
  assert (Hhere : exists rx' ry', 0 <= rx' <= rx /\ 0 <= ry' <= ry /\
                    (x, y) = (x1 - sx * rx', y1 - sy * ry')).
  { exists rx, ry. split; [lia|]. split; [lia|]. congruence. }
  destruct ((x =? x1) && (y =? y1)) eqn:Eend.
  - apply andb_true_iff in Eend. destruct Eend as [E1 E2].
    apply Z.eqb_eq in E1, E2.
    exists [(x, y)], cv2. split; [reflexivity|]. split; [exact Hp2|].
    split; [reflexivity|]. split; [cbn; congruence|].
    split; [cbn; tauto|]. constructor; [exact Hhere | constructor].
  - assert (Hleft : 0 < rx + ry).
    { apply andb_false_iff in Eend.
      destruct Eend as [E | E]; apply Z.eqb_neq in E;
        destruct Hsx as [-> | ->], Hsy as [-> | ->]; lia. }
    cbv zeta.
    assert (Hxstep : - dy < 2 * err -> 0 < rx).
    { intros H. destruct (Z.eq_dec rx 0) as [-> | ?]; [|lia]. exfalso.
      assert (dx * (1 - ry) <= 0) by nia. nia. }
    assert (Hystep : 2 * err < dx -> 0 < ry).
    { intros H. destruct (Z.eq_dec ry 0) as [-> | ?]; [|lia]. exfalso.
      assert (0 <= dy * (rx - 1)) by nia. nia. }
    assert (Hsome : - dy < 2 * err \/ 2 * err < dx).
    { destruct (Z_lt_dec (- dy) (2 * err)); [left; assumption|].
      right. destruct (Z.eq_dec rx 0) as [E0 | ?].
      - subst rx. assert (0 < ry) by lia. nia.
      - nia. }
    destruct (Z.ltb_spec (- dy) (2 * err)) as [Hx | Hx];
      destruct (Z.ltb_spec (2 * err) dx) as [Hy | Hy].
    + (* a diagonal step *)
      specialize (Hxstep Hx). specialize (Hystep Hy).
      destruct (IH cv2 (done ++ [(x, y)]) (x + sx) (y + sy) (err - dy + dx)
                  (rx - 1) (ry - 1) Hp2)
        as (pts & cv' & Hrun & Hp' & Hhead & Hlast & Hchain & Hall);
        [lia | lia | lia | lia | lia | lia |].
      exists ((x, y) :: pts), cv'. split; [exact Hrun|].
      split; [rewrite <- app_assoc in Hp'; exact Hp'|].
      split; [reflexivity|].
      destruct pts as [|q pts]; [discriminate|].
      split; [exact Hlast|]. injection Hhead as ->.
      split.
      * split; [|exact Hchain]. split; [|cbn; lia].
        intros E. injection E as E _. lia.
      * constructor; [exact Hhere|].
        eapply Forall_impl; [exact Hall|].
        intros p (rx' & ry' & ? & ? & ->). exists rx', ry'.
        split; [lia|]. split; [lia | reflexivity].
    + (* a step in x *)
      specialize (Hxstep Hx).
      destruct (IH cv2 (done ++ [(x, y)]) (x + sx) y (err - dy)
                  (rx - 1) ry Hp2)
        as (pts & cv' & Hrun & Hp' & Hhead & Hlast & Hchain & Hall);
        [lia | lia | lia | lia | lia | lia |].
      exists ((x, y) :: pts), cv'. split; [exact Hrun|].
      split; [rewrite <- app_assoc in Hp'; exact Hp'|].
      split; [reflexivity|].
      destruct pts as [|q pts]; [discriminate|].
      split; [exact Hlast|]. injection Hhead as ->.
      split.
      * split; [|exact Hchain]. split; [|cbn; lia].
        intros E. injection E as E. lia.
      * constructor; [exact Hhere|].
        eapply Forall_impl; [exact Hall|].
        intros p (rx' & ry' & ? & ? & ->). exists rx', ry'.
        split; [lia|]. split; [lia | reflexivity].
    + (* a step in y *)
      specialize (Hystep Hy).
      destruct (IH cv2 (done ++ [(x, y)]) x (y + sy) (err + dx)
                  rx (ry - 1) Hp2)
        as (pts & cv' & Hrun & Hp' & Hhead & Hlast & Hchain & Hall);
        [lia | lia | lia | lia | lia | lia |].
      exists ((x, y) :: pts), cv'. split; [exact Hrun|].
      split; [rewrite <- app_assoc in Hp'; exact Hp'|].
      split; [reflexivity|].
      destruct pts as [|q pts]; [discriminate|].
      split; [exact Hlast|]. injection Hhead as ->.
      split.
      * split; [|exact Hchain]. split; [|cbn; lia].
        intros E. injection E as E. lia.
      * constructor; [exact Hhere|].
        eapply Forall_impl; [exact Hall|].
        intros p (rx' & ry' & ? & ? & ->). exists rx', ry'.
        split; [lia|]. split; [lia | reflexivity].
    + exfalso. lia.
Qed.

End DrawProps.

(** X28: [drawLine] between integer points terminates: on a
    well-formed canvas, more than [|x1 - x0| + |y1 - y0|] iterations
    are never needed, and nothing is thrown.  The pixels it visits form
    a connected line: the first is [(x0, y0)], the last is [(x1, y1)],
    each one is one of the eight neighbours of the one before, and all
    lie in the bounding box of the two end points.  The canvas
    afterwards is the canvas before with the visited pixels that lie on
    it set and colored, and nothing else changed. *)
Theorem drawLine_draws_connected_line cv x0 y0 x1 y1 color (fuel : nat) :
  BrailleCanvas.well_formed cv ->
  (Z.to_nat (Z.abs (x1 - x0) + Z.abs (y1 - y0)) < fuel)%nat ->
  exists pts cv',
    Drawing.drawLine fuel cv x0 y0 x1 y1 color = Some (Ok cv') /\
    painted cv pts color cv' /\
    head pts = Some (x0, y0) /\
    last pts = Some (x1, y1) /\
    chain pts /\
    Forall (fun p => Z.min x0 x1 <= p.1 <= Z.max x0 x1 /\
                     Z.min y0 y1 <= p.2 <= Z.max y0 y1) pts.
Proof.
  intros Hwf Hfuel. unfold Drawing.drawLine.
  set (dx := Z.abs (x1 - x0)) in *. set (dy := Z.abs (y1 - y0)) in *.
  set (sx := if x0 <? x1 then 1 else -1). set (sy := if y0 <? y1 then 1 else -1).
  assert (Hsx : sx = 1 \/ sx = -1) by (subst sx; destruct (x0 <? x1); auto).
  assert (Hsy : sy = 1 \/ sy = -1) by (subst sy; destruct (y0 <? y1); auto).
  assert (Ex : x0 = x1 - sx * dx).
  { subst sx dx. destruct (Z.ltb_spec x0 x1); lia. }
  assert (Ey : y0 = y1 - sy * dy).
  { subst sy dy. destruct (Z.ltb_spec y0 y1); lia. }
  destruct (drawLine_loop_spec cv x1 y1 dx dy sx sy color
              ltac:(subst dx; lia) ltac:(subst dy; lia) Hsx Hsy
              fuel cv [] x0 y0 (dx - dy) dx dy
              (painted_refl cv color Hwf))
    as (pts & cv' & Hrun & Hp & Hhead & Hlast & Hchain & Hall);
    [subst dx; lia | subst dy; lia | exact Ex | exact Ey | lia | exact Hfuel |].
  exists pts, cv'. split; [exact Hrun|]. split; [exact Hp|].
  split; [exact Hhead|]. split; [exact Hlast|]. split; [exact Hchain|].
  eapply Forall_impl; [exact Hall|].
  intros p (rx' & ry' & Hrx & Hry & ->). cbn [fst snd].
  subst sx sy dx dy.
  destruct (Z.ltb_spec x0 x1), (Z.ltb_spec y0 y1); lia.
Qed.

Lemma demo_canvas_well_formed : BrailleCanvas.well_formed demo_canvas.
Proof.
  split; [reflexivity|]. split; [reflexivity|]. split; repeat constructor.
Qed.

Lemma drawBar_fills_rectangle_witness :
  BrailleCanvas.well_formed demo_canvas /\
  exists cv',
    BrailleCanvas.drawBar demo_canvas 1 3 2 5 "cyan"%string = Ok cv' /\
    BrailleCanvas.pixel_at cv' 1 2 = true /\
    BrailleCanvas.color_at cv' 1 3 = "cyan"%string /\
    BrailleCanvas.color_at cv' 0 0 = "red"%string.
Proof.
  split; [exact demo_canvas_well_formed|].
  destruct (drawBar_fills_rectangle demo_canvas 1 3 2 5 "cyan"%string
              demo_canvas_well_formed) as (cv' & Hrun & _ & H).
  exists cv'. split; [exact Hrun|].
  split; [|split].
  - apply (H 1 2). right. vm_compute. intuition discriminate.
  - apply (H 1 3). vm_compute. intuition discriminate.
  - destruct (H 0 0) as (_ & _ & H3). rewrite H3; [reflexivity|].
    intros [[[Hx _] _] _]. lia.
Defined.

Lemma drawDot_fills_disc_witness :
  BrailleCanvas.well_formed demo_canvas /\
  exists cv',
    Drawing.drawDot demo_canvas 1 2 1 "cyan"%string = Ok cv' /\
    BrailleCanvas.pixel_at cv' 0 2 = true /\
    BrailleCanvas.pixel_at cv' 1 1 = true /\
    BrailleCanvas.pixel_at cv' 0 1 = false.
Proof.
  split; [exact demo_canvas_well_formed|].
  destruct (drawDot_fills_disc demo_canvas 1 2 1 "cyan"%string
              demo_canvas_well_formed) as (cv' & Hrun & _ & H).
  exists cv'. split; [exact Hrun|].
  split; [|split].
  - apply (H 0 2). right. vm_compute. intuition discriminate.
  - apply (H 1 1). right. vm_compute. intuition discriminate.
  - destruct (BrailleCanvas.pixel_at cv' 0 1) eqn:E; [|reflexivity].
    apply (H 0 1) in E. destruct E as [E | [[_ E] _]]; [discriminate E | lia].
Defined.

Lemma drawLine_draws_connected_line_witness :
  BrailleCanvas.well_formed demo_canvas /\
  (Z.to_nat (Z.abs (1 - 0) + Z.abs (3 - 0)) < 5)%nat /\
  exists pts cv',
    Drawing.drawLine 5 demo_canvas 0 0 1 3 "cyan"%string = Some (Ok cv') /\
    painted demo_canvas pts "cyan"%string cv' /\
    head pts = Some (0, 0) /\ last pts = Some (1, 3).
Proof.
  assert (Hfuel : (Z.to_nat (Z.abs (1 - 0) + Z.abs (3 - 0)) < 5)%nat)
    by (vm_compute; lia).
  split; [exact demo_canvas_well_formed|]. split; [exact Hfuel|].
  destruct (drawLine_draws_connected_line demo_canvas 0 0 1 3 "cyan"%string 5
              demo_canvas_well_formed Hfuel)
    as (pts & cv' & Hrun & Hp & Hhead & Hlast & _).
  exists pts, cv'. split; [exact Hrun|]. split; [exact Hp|].
  split; [exact Hhead | exact Hlast].
Defined.

(** The line from (0, 0) to (1, 3) on the sample canvas, run. *)
Example drawLine_demo :
  exists cv',
    Drawing.drawLine 5 demo_canvas 0 0 1 3 "cyan"%string = Some (Ok cv') /\
    BrailleCanvas.getCell cv' 0 0 = (10240 + 1 + 2 + 32 + 128, "cyan"%string).
Proof. eexists. split; vm_compute; reflexivity. Qed.

(* ===================================================================== *)
(** * The bars of a bar chart *)

Section BarRenderProps.

Import BrailleCanvas BarChart.

Lemma drawBar_region cv x bottom top w color :
  well_formed cv ->
  exists cv',
    drawBar cv x bottom top w color = Ok cv' /\
    cols cv' = cols cv /\ rows cv' = rows cv /\ well_formed cv' /\
    forall px py,
      (pixel_at cv' px py = true <->
       pixel_at cv px py = true \/
       ((x <= px < x + w /\ top <= py <= bottom) /\ in_canvas cv px py)) /\
      ((x <= px < x + w /\ top <= py <= bottom) /\ in_canvas cv px py ->
       color_at cv' px py = color) /\
      (~ ((x <= px < x + w /\ top <= py <= bottom) /\ in_canvas cv px py) ->
       color_at cv' px py = color_at cv px py).
Proof.
  intros Hwf. rewrite drawBar_paint.
  destruct (paint_spec cv (bar_points x bottom top w) color Hwf)
    as (cv' & Hrun & Hp).
  exists cv'. split; [exact Hrun|].
  split; [apply Hp|]. split; [apply Hp|]. split; [apply Hp|].
  apply (painted_region cv _ color cv'
           (fun px py => x <= px < x + w /\ top <= py <= bottom) Hp).
  intros qx qy. apply bar_points_spec.
Qed.

Lemma draw_bars_on_cons height cv max ph barPx gapPx i x v vs :
  BarChartOn.draw_bars height cv max ph barPx gapPx i x (v :: vs)
  = (h ← height max ph v;
     cv' ← drawBar cv x (ph - 1) (ph - 1 - h) barPx (palette i);
     BarChartOn.draw_bars height cv' max ph barPx gapPx (i + 1)
       (x + barPx + gapPx) vs).
Proof. reflexivity. Qed.

(** With [barH] as the height function, [BarChartOn] is [BarChart]. *)
Lemma draw_bars_on_barH cv max ph barPx gapPx i x vs :
  BarChartOn.draw_bars barH cv max ph barPx gapPx i x vs
  = draw_bars cv max ph barPx gapPx i x vs.
Proof. reflexivity. Qed.

Lemma render_on_barH c : BarChartOn._render barH c = _render c.
Proof. reflexivity. Qed.

(** The loop over the bars: bar [k] of the remaining values is drawn
    at column [x + k * (barPx + gapPx)], in the color [palette (i + k)];
    the bars do not overlap, so that no bar repaints another one. *)
Lemma draw_bars_on_spec height max ph barPx gapPx :
  0 <= barPx -> 0 <= gapPx ->
  forall vs hs cv i x,
    well_formed cv ->
    Forall2 (fun v h => height max ph v = Ok h) vs hs ->
    exists cv',
      BarChartOn.draw_bars height cv max ph barPx gapPx i x vs = Ok cv' /\
      cols cv' = cols cv /\ rows cv' = rows cv /\ well_formed cv' /\
      forall px py,
        (pixel_at cv' px py = true <->
         pixel_at cv px py = true \/
         (in_canvas cv px py /\
          exists (k : nat) h, hs !! k = Some h /\ in_bar x barPx gapPx ph k h px py)) /\
        (forall (k : nat) h,
           hs !! k = Some h -> in_bar x barPx gapPx ph k h px py ->
           in_canvas cv px py ->
           color_at cv' px py = palette (i + Z.of_nat k)) /\
        ((forall (k : nat) h, hs !! k = Some h ->
            ~ (in_bar x barPx gapPx ph k h px py /\ in_canvas cv px py)) ->
         color_at cv' px py = color_at cv px py).
Proof.
  intros Hbar Hgap.
  induction vs as [|v vs IH]; intros hs cv i x Hwf Hhs.
  - apply Forall2_nil_inv_l in Hhs. subst hs.
    exists cv. split; [reflexivity|]. split; [reflexivity|].
    split; [reflexivity|]. split; [exact Hwf|].
    intros px py. split; [|split].
    + split; [intros H; left; exact H|].
      intros [H | (_ & k & h & H & _)]; [exact H | inversion H].
    + intros k h H. inversion H.
    + reflexivity.
  - apply Forall2_cons_inv_l in Hhs. destruct Hhs as (h0 & hs' & Hh0 & Hhs & ->).
    rewrite draw_bars_on_cons, Hh0.
    change (mbind ?f (Ok ?a)) with (f a). cbv beta.
    destruct (drawBar_region cv x (ph - 1) (ph - 1 - h0) barPx (palette i) Hwf)
      as (cv1 & Hdraw & Hc1 & Hr1 & Hwf1 & Hfoot).
    rewrite Hdraw. change (mbind ?f (Ok ?a)) with (f a). cbv beta.
    destruct (IH hs' cv1 (i + 1) (x + barPx + gapPx) Hwf1 Hhs)
      as (cv' & Hrun & Hc & Hr & Hwf' & Hrest).
    exists cv'. split; [exact Hrun|]. split; [congruence|].
    split; [congruence|]. split; [exact Hwf'|].
    assert (Hcan : forall px py, in_canvas cv1 px py <-> in_canvas cv px py).
    { intros px py. apply in_canvas_same; assumption. }
    assert (Hshift : forall (k : nat) h px py,
              in_bar (x + barPx + gapPx) barPx gapPx ph k h px py
              <-> in_bar x barPx gapPx ph (S k) h px py).
    { intros k h px py. unfold in_bar.
      replace (Z.of_nat (S k)) with (Z.of_nat k + 1) by lia.
      replace ((Z.of_nat k + 1) * (barPx + gapPx))
        with (Z.of_nat k * (barPx + gapPx) + barPx + gapPx) by lia.
      lia. }
    assert (Hfirst : forall h px py,
              in_bar x barPx gapPx ph 0 h px py
              <-> (x <= px < x + barPx /\ ph - 1 - h <= py <= ph - 1)).
    { intros h px py. unfold in_bar. cbn [Z.of_nat].
      replace (0 * (barPx + gapPx)) with 0 by lia. lia. }
    assert (Hapart : forall (k : nat) h h' px py,
              in_bar x barPx gapPx ph 0 h px py ->
              in_bar (x + barPx + gapPx) barPx gapPx ph k h' px py -> False).
    { intros k h h' px py H0 Hk. apply Hfirst in H0. unfold in_bar in Hk.
      assert (0 <= Z.of_nat k * (barPx + gapPx)) by nia. lia. }
    intros px py.
    destruct (Hfoot px py) as (F1 & F2 & F3).
    destruct (Hrest px py) as (R1 & R2 & R3).
    split; [|split].
    + rewrite R1, F1. split.
      * intros [[H | [Hb Hin]] | (Hin & k & h & Hk & Hb)].
        -- left. exact H.
        -- right. split; [exact Hin|]. exists 0%nat, h0.
           split; [reflexivity|]. apply Hfirst. exact Hb.
        -- right. split; [apply Hcan; exact Hin|]. exists (S k), h.
           split; [exact Hk|]. apply Hshift. exact Hb.
      * intros [H | (Hin & k & h & Hk & Hb)]; [left; left; exact H|].
        destruct k as [|k].
        -- injection Hk as <-. left. right. split; [|exact Hin].
           apply Hfirst. exact Hb.
        -- right. split; [apply Hcan; exact Hin|]. exists k, h.
           split; [exact Hk|]. apply Hshift. exact Hb.
    + intros k h Hk Hb Hin. destruct k as [|k].
      * injection Hk as <-. rewrite R3.
        -- replace (i + Z.of_nat 0) with i by lia.
           apply F2. split; [apply Hfirst; exact Hb | exact Hin].
        -- intros k' h' _ [Hb' _]. exact (Hapart k' h0 h' px py Hb Hb').
      * replace (i + Z.of_nat (S k)) with (i + 1 + Z.of_nat k) by lia.
        apply (R2 k h Hk); [apply Hshift; exact Hb | apply Hcan; exact Hin].
    + intros Hnone. rewrite R3.
      * apply F3. intros [Hb Hin]. apply (Hnone 0%nat h0 eq_refl).
        split; [apply Hfirst; exact Hb | exact Hin].
      * intros k h Hk [Hb Hin]. apply (Hnone (S k) h Hk).
        split; [apply Hshift; exact Hb | apply Hcan; exact Hin].
Qed.

(** What [_render] leaves on the canvas, given the heights. *)
Lemma render_on_spec height (c : BarChart.t) (heights : list Z) :
  well_formed (_canvas c) ->
  _dirty c = true ->
  1 <= JS.len (values c) ->
  Forall2 (fun v h => height (max_of (values c)) (pixelHeight (_canvas c)) v = Ok h)
          (values c) heights ->
  let pw := pixelWidth (_canvas c) in
  let ph := pixelHeight (_canvas c) in
  let n := JS.len (values c) in
  let barPx := Z.max 1 (pw / (n * 2)) in
  let gapPx := Z.max 0 ((pw - barPx * n) / (n + 1)) in
  exists c',
    BarChartOn._render height c = Ok c' /\
    _dirty c' = false /\
    values c' = values c /\
    (forall px py,
       pixel_at (_canvas c') px py = true <->
       in_canvas (_canvas c) px py /\
       exists (i : nat) h,
         heights !! i = Some h /\ in_bar gapPx barPx gapPx ph i h px py) /\
    (forall (i : nat) h px py,
       heights !! i = Some h -> in_bar gapPx barPx gapPx ph i h px py ->
       in_canvas (_canvas c) px py ->
       color_at (_canvas c') px py = palette (Z.of_nat i)).
Proof.
  intros Hwf Hdirty Hn Hall pw ph n barPx gapPx.
  assert (Hbar : 0 <= barPx) by (subst barPx; lia).
  assert (Hgap : 0 <= gapPx) by (subst gapPx; lia).
  destruct (draw_bars_on_spec height (max_of (values c)) ph barPx gapPx
              Hbar Hgap (values c) heights (clear (_canvas c)) 0 gapPx
              (clear_well_formed _ Hwf) Hall)
    as (cv' & Hrun & Hc & Hr & Hwf' & Hfoot).
  exists (mk (width c) (BarChart.height c) (values c)
            cv' false (max_of (values c))).
  assert (Hcan : forall px py,
            in_canvas (clear (_canvas c)) px py <-> in_canvas (_canvas c) px py).
  { intros px py. apply in_canvas_same; reflexivity. }
  split; [|split; [|split; [|split]]].
  - unfold BarChartOn._render. rewrite Hdirty. cbn [negb].
    destruct (Z.eqb_spec (JS.len (values c)) 0) as [E | _]; [lia|].
    cbv zeta.
    change (pixelWidth (clear (_canvas c))) with pw.
    change (pixelHeight (clear (_canvas c))) with ph.
    fold n. fold barPx. fold gapPx. rewrite Hrun. reflexivity.
  - reflexivity.
  - reflexivity.
  - intros px py. cbn [_canvas].
    destruct (Hfoot px py) as (F1 & _ & _). rewrite F1.
    rewrite clear_pixel_at. rewrite Hcan. split.
    + intros [H | H]; [discriminate | exact H].
    + intros H. right. exact H.
  - intros i h px py Hi Hb Hin. cbn [_canvas].
    destruct (Hfoot px py) as (_ & F2 & _).
    rewrite (F2 i h Hi Hb); [f_equal; lia | apply Hcan; exact Hin].
Qed.


End BarRenderProps.

Section BarChartZero.

Import BrailleCanvas BarChart.

(** C10: rasterizing a bar chart whose values are all zero completes:
    nothing throws and no division by zero occurs, because the divisor
    is the epsilon 0.001; every bar gets the height 0 and is drawn as
    such.  With [n] values, bar width [barPx = max(1, floor(pw / 2n))]
    and gap [gapPx = max(0, floor((pw - barPx n) / (n + 1)))], the
    pixels set on the canvas afterwards are exactly the pixels of the
    canvas in the base row [ph - 1] of one of the bars, bar [i] being
    the columns [left i .. left i + barPx - 1] with
    [left i = gapPx + i (barPx + gapPx)]; they have the color
    [PALETTE[i mod 7]] of their bar, and no pixel above the bottom pixel
    row is set. *)
Theorem barchart_all_zero_renders c :
  well_formed (_canvas c) ->
  _dirty c = true ->
  Forall (fun v => v == 0)%Q (BarChart.values c) ->
  let pw := pixelWidth (_canvas c) in
  let ph := pixelHeight (_canvas c) in
  let n := JS.len (BarChart.values c) in
  let barPx := Z.max 1 (pw / (n * 2)) in
  let gapPx := Z.max 0 ((pw - barPx * n) / (n + 1)) in
  exists c',
    _render c = Ok c' /\
    max_of (BarChart.values c) = (1 # 1000)%Q /\
    ~ (max_of (BarChart.values c) == 0)%Q /\
    Forall (fun bh => bh = Ok 0) (bar_heights c) /\
    (forall px py,
       pixel_at (_canvas c') px py = true <->
       in_canvas (_canvas c) px py /\
       exists i : nat,
         Z.of_nat i < n /\ in_bar gapPx barPx gapPx ph i 0 px py) /\
    (forall (i : nat) px py,
       Z.of_nat i < n -> in_bar gapPx barPx gapPx ph i 0 px py ->
       in_canvas (_canvas c) px py ->
       color_at (_canvas c') px py = palette (Z.of_nat i)) /\
    (forall px py,
       pixel_at (_canvas c') px py = true -> py = pixelHeight (_canvas c) - 1).
Proof.
  intros Hwf Hdirty Hzero pw ph n barPx gapPx.
  pose proof (max_of_zeros _ Hzero) as Hmax.
  assert (Heps : ~ (max_of (BarChart.values c) == 0)%Q)
    by (rewrite Hmax; discriminate).
  assert (Hheights : Forall (fun bh => bh = Ok 0) (bar_heights c)).
  { unfold bar_heights. rewrite Hmax. apply Forall_fmap.
    eapply Forall_impl; [exact Hzero|]. intros v Hv. simpl.
    now apply barH_zero. }
  assert (Hset : exists c',
            _render c = Ok c' /\
            (forall px py,
               pixel_at (_canvas c') px py = true <->
               in_canvas (_canvas c) px py /\
               exists i : nat,
                 Z.of_nat i < n /\ in_bar gapPx barPx gapPx ph i 0 px py) /\
            (forall (i : nat) px py,
               Z.of_nat i < n -> in_bar gapPx barPx gapPx ph i 0 px py ->
               in_canvas (_canvas c) px py ->
               color_at (_canvas c') px py = palette (Z.of_nat i))).
  { destruct (Z.eq_dec n 0) as [E0 | Hne].
    - (* no values: the canvas is cleared and nothing is drawn *)
      exists (mk (width c) (height c) (BarChart.values c) (clear (_canvas c))
                false (_max c)).
      split; [|split].
      + unfold _render. rewrite Hdirty. cbn [negb]. fold n. rewrite E0.
        reflexivity.
      + intros px py. cbn [_canvas]. rewrite clear_pixel_at.
        split; [discriminate|]. intros (_ & i & Hi & _). lia.
      + intros i px py Hi. lia.
    - assert (Hn : 1 <= JS.len (BarChart.values c)).
      { pose proof (len_nonneg (BarChart.values c)). subst n. lia. }
      set (heights := replicate (length (BarChart.values c)) 0).
      assert (Hall : Forall2
                (fun v h => barH (max_of (BarChart.values c))
                              (pixelHeight (_canvas c)) v = Ok h)
                (BarChart.values c) heights).
      { rewrite Hmax. subst heights. clear -Hzero.
        induction Hzero as [|v vs Hv _ IH]; [constructor|].
        cbn [length replicate]. constructor; [|exact IH].
        now apply barH_zero. }
      assert (Hlook : forall (i : nat) h,
                heights !! i = Some h <-> Z.of_nat i < n /\ h = 0).
      { intros i h. subst heights. rewrite lookup_replicate.
        subst n. unfold JS.len. split.
        - intros [-> Hi]. split; [lia | reflexivity].
        - intros [Hi ->]. split; [reflexivity | lia]. }
      destruct (render_on_spec barH c heights Hwf Hdirty Hn Hall)
        as (c' & Hrun & _ & _ & Hpix & Hcol).
      rewrite render_on_barH in Hrun.
      exists c'. split; [exact Hrun|]. split.
      + intros px py. rewrite Hpix. split.
        * intros (Hin & i & h & Hi & Hb). apply Hlook in Hi.
          destruct Hi as [Hi ->]. split; [exact Hin|]. exists i.
          split; [exact Hi | exact Hb].
        * intros (Hin & i & Hi & Hb). split; [exact Hin|]. exists i, 0.
          split; [apply Hlook; split; [exact Hi | reflexivity] | exact Hb].
      + intros i px py Hi Hb Hin.
        apply (Hcol i 0 px py); [|exact Hb | exact Hin].
        apply Hlook. split; [exact Hi | reflexivity]. }
  destruct Hset as (c' & Hrun & Hpix & Hcol).
  exists c'. split; [exact Hrun|]. split; [exact Hmax|]. split; [exact Heps|].
  split; [exact Hheights|]. split; [exact Hpix|]. split; [exact Hcol|].
  intros px py Hp. apply Hpix in Hp. destruct Hp as (_ & i & _ & _ & Hy).
  fold ph. lia.
Qed.

End BarChartZero.

Lemma barchart_all_zero_renders_witness :
  BrailleCanvas.well_formed (BarChart._canvas demo_chart) /\
  BarChart._dirty demo_chart = true /\
  Forall (fun v => v == 0)%Q (BarChart.values demo_chart) /\
  exists c',
    BarChart._render demo_chart = Ok c' /\
    BarChart.max_of (BarChart.values demo_chart) = (1 # 1000)%Q /\
    Forall (fun bh => bh = Ok 0) (BarChart.bar_heights demo_chart) /\
    BrailleCanvas.pixel_at (BarChart._canvas c') 2 11 = true /\
    BrailleCanvas.pixel_at (BarChart._canvas c') 2 10 = false /\
    BrailleCanvas.pixel_at (BarChart._canvas c') 4 11 = false /\
    BrailleCanvas.color_at (BarChart._canvas c') 6 11 = "yellow"%string.
Proof.
  assert (Hwf : BrailleCanvas.well_formed (BarChart._canvas demo_chart)).
  { unfold BrailleCanvas.well_formed. vm_compute.
    repeat split; repeat constructor. }
  assert (Hz : Forall (fun v => v == 0)%Q (BarChart.values demo_chart)).
  { vm_compute. repeat constructor. }
  split; [exact Hwf|]. split; [reflexivity|]. split; [exact Hz|].
  destruct (barchart_all_zero_renders demo_chart Hwf eq_refl Hz)
    as (c' & Hrun & Hmax & _ & Hh & Hpix & Hcol & _).
  exists c'. split; [exact Hrun|]. split; [exact Hmax|]. split; [exact Hh|].
  split; [|split; [|split]].
  - apply Hpix. split; [vm_compute; intuition discriminate|].
    exists 0%nat. vm_compute. intuition discriminate.
  - destruct (BrailleCanvas.pixel_at (BarChart._canvas c') 2 10) eqn:E;
      [|reflexivity].
    apply Hpix in E. destruct E as (_ & i & _ & _ & Hy).
    vm_compute in Hy. destruct Hy as [Hy _]. contradiction Hy. reflexivity.
  - destruct (BrailleCanvas.pixel_at (BarChart._canvas c') 4 11) eqn:E;
      [|reflexivity].
    apply Hpix in E. destruct E as (_ & i & Hi & Hx & _).
    change (2 + Z.of_nat i * (2 + 2) <= 4 < 2 + Z.of_nat i * (2 + 2) + 2) in Hx.
    lia.
  - apply (Hcol 1%nat 6 11).
    + vm_compute. reflexivity.
    + vm_compute. intuition discriminate.
    + vm_compute. intuition discriminate.
Defined.


